(** * instruments.py: embouchure and tone-hole positions of end-blown flutes

    A shallow embedding of [instruments.py] (classes [Pipe], [VibratingPipe],
    [QuenaBody], [ClarinetBody] and [Quena]) and the properties of it that the
    design document states.

    Python numbers are modelled by an interface [PyNum] with two instances:
    - [float], the kernel's binary64 numbers, which is what the interpreter
      computes with; every definition below evaluates there;
    - [R], exact real arithmetic, in which the formulas of the design document
      are written.
    Python exceptions are values of an error monad [result]; the unbounded
    [while] loop of [Quena.holes_pos] takes a fuel argument. *)

From Stdlib Require Import ZArith List Bool Lia.
From Stdlib Require Import Sorted Permutation.
From Stdlib Require Import Uint63 Floats.
From Stdlib Require Import Reals Lra Psatz.
Import ListNotations.

Set Warnings "-inexact-float".

(* ================================================================== *)
(** ** Exceptions and the error monad *)

(** The text of a [ValueError]: the one [math.sqrt] raises, and the one
    [Quena.holes_pos] raises in its [except] clause, which carries the hole
    index [n]. *)
Inductive message : Type :=
| MathDomain
| OpenHoleFailed (n : nat).

Inductive exn : Type :=
| ZeroDivisionError
| ValueError (m : message)
| IndexError
| OverflowError.

(** The outcome of running a piece of code: a value, an exception, or the
    fuel of a [while] loop used up before its test failed. *)
Inductive result (A : Type) : Type :=
| Ok (a : A)
| Raise (e : exn)
| OutOfFuel.

Arguments Ok {A} a.
Arguments Raise {A} e.
Arguments OutOfFuel {A}.

Definition bind {A B : Type} (c : result A) (k : A -> result B) : result B :=
  match c with
  | Ok a => k a
  | Raise e => Raise e
  | OutOfFuel => OutOfFuel
  end.

Declare Scope py_scope.
Delimit Scope py_scope with py.
Bind Scope py_scope with result.

Notation "x <- c ;; k" := (bind c (fun x => k))
  (at level 61, c at next level, right associativity) : py_scope.

(** [try: c  except ValueError: h] *)
Definition try_except_ValueError {A : Type} (c h : result A) : result A :=
  match c with
  | Raise (ValueError _) => h
  | _ => c
  end.

(** [l[n]] for a non-negative index. *)
Definition getitem {A : Type} (l : list A) (n : nat) : result A :=
  match nth_error l n with
  | Some a => Ok a
  | None => Raise IndexError
  end.

(** [l[n] = v] for a non-negative index. *)
Fixpoint setitem {A : Type} (l : list A) (n : nat) (v : A) : result (list A) :=
  match l, n with
  | [], _ => Raise IndexError
  | _ :: t, O => Ok (v :: t)
  | a :: t, S m => bind (setitem t m v) (fun t' => Ok (a :: t'))
  end.

(** A list comprehension whose element expression may raise. *)
Fixpoint comprehension {A B : Type} (f : A -> result B) (l : list A)
  : result (list B) :=
  match l with
  | [] => Ok []
  | a :: t => bind (f a) (fun b => bind (comprehension f t) (fun t' => Ok (b :: t')))
  end.

(* ================================================================== *)
(** ** Python numbers *)

(** The operations [instruments.py] applies to numbers.  [/], [**2] and
    [math.sqrt] can raise; [+], [-], [*], [abs] and the comparisons cannot. *)
Class PyNum (F : Type) : Type := {
  of_int : Z -> F;
  npi : F;                       (* math.pi *)
  nadd : F -> F -> F;
  nsub : F -> F -> F;
  nmul : F -> F -> F;
  ndiv : F -> F -> result F;     (* ZeroDivisionError *)
  npow2 : F -> result F;         (* x ** 2; OverflowError *)
  nsqrt : F -> result F;         (* math.sqrt; ValueError *)
  nabs : F -> F;
  nltb : F -> F -> bool;         (* < *)
  neqb : F -> F -> bool          (* == *)
}.

Definition lift1 {A B : Type} (f : A -> result B) (a : result A) : result B :=
  bind a f.

(** Operands are evaluated left to right, then the operation is applied. *)
Definition lift2 {A B C : Type} (f : A -> B -> result C)
  (a : result A) (b : result B) : result C :=
  bind a (fun x => bind b (fun y => f x y)).

Definition total2 {A B C : Type} (f : A -> B -> C) (x : A) (y : B) : result C :=
  Ok (f x y).

Notation "a + b" := (lift2 (total2 nadd) a b) : py_scope.
Notation "a - b" := (lift2 (total2 nsub) a b) : py_scope.
Notation "a * b" := (lift2 (total2 nmul) a b) : py_scope.
Notation "a / b" := (lift2 ndiv a b) : py_scope.
Notation "a **2" := (lift1 npow2 a) (at level 1, format "a **2") : py_scope.

(** An integer literal. *)
Definition int {F : Type} `{PyNum F} (z : Z) : result F := Ok (of_int z).

(** A decimal literal [m]e-[e], as in [0.307 = dec 307 3]. *)
Definition dec {F : Type} `{PyNum F} (m : Z) (e : nat) : result F :=
  (int m / int (10 ^ Z.of_nat e))%py.

(** [math.sqrt(x)] and [abs(x)] on expressions. *)
Definition sqrt_ {F : Type} `{PyNum F} (a : result F) : result F := lift1 nsqrt a.
Definition abs_ {F : Type} `{PyNum F} (a : result F) : result F :=
  lift1 (fun x => Ok (nabs x)) a.

(** Comparisons of expressions. *)
Definition gt_ {F : Type} `{PyNum F} (a b : result F) : result bool :=
  lift2 (total2 (fun x y => nltb y x)) a b.

(* ------------------------------------------------------------------ *)
(** *** Exact real arithmetic *)

Definition Rltb (x y : R) : bool := if Rlt_dec x y then true else false.
Definition Reqb (x y : R) : bool := if Req_dec_T x y then true else false.

#[export] Instance PyNum_R : PyNum R := {|
  of_int := IZR;
  npi := PI;
  nadd := Rplus;
  nsub := Rminus;
  nmul := Rmult;
  ndiv := fun x y => if Reqb y 0 then Raise ZeroDivisionError else Ok (x / y)%R;
  npow2 := fun x => Ok (x * x)%R;
  nsqrt := fun x => if Rltb x 0 then Raise (ValueError MathDomain) else Ok (sqrt x);
  nabs := Rabs;
  nltb := Rltb;
  neqb := Reqb
|}.

(* ------------------------------------------------------------------ *)
(** *** binary64 *)

(** A Python [int] as a [float]; exact for the integers of magnitude below
    2^53, which is all the program and its tests use. *)
Definition float_of_Z (z : Z) : float :=
  match z with
  | Z0 => PrimFloat.zero
  | Zpos _ => PrimFloat.of_uint63 (Uint63.of_Z z)
  | Zneg _ => PrimFloat.opp (PrimFloat.of_uint63 (Uint63.of_Z (Z.opp z)))
  end.

(** [x / y]: the interpreter tests the divisor before it divides. *)
Definition float_div (x y : float) : result float :=
  if PrimFloat.eqb y PrimFloat.zero then Raise ZeroDivisionError
  else Ok (PrimFloat.div x y).

(** [x ** 2], modelled as the product [x * x], correctly rounded.  The
    interpreter calls the [pow] of the C library, whose result can differ
    from that product in the last digit, so a value computed here through a
    square is the program's up to that digit.  The exception is the same: a
    finite [x] whose square is out of range raises [OverflowError]. *)
Definition float_pow2 (x : float) : result float :=
  let y := PrimFloat.mul x x in
  if PrimFloat.is_finite x && PrimFloat.is_infinity y then Raise OverflowError
  else Ok y.

(** [math.sqrt(x)]: a negative argument is a domain error. *)
Definition float_sqrt (x : float) : result float :=
  if PrimFloat.ltb x PrimFloat.zero then Raise (ValueError MathDomain)
  else Ok (PrimFloat.sqrt x).

#[export] Instance PyNum_float : PyNum float := {|
  of_int := float_of_Z;
  npi := 3.141592653589793%float;
  nadd := PrimFloat.add;
  nsub := PrimFloat.sub;
  nmul := PrimFloat.mul;
  ndiv := float_div;
  npow2 := float_pow2;
  nsqrt := float_sqrt;
  nabs := PrimFloat.abs;
  nltb := PrimFloat.ltb;
  neqb := PrimFloat.eqb
|}.

(* ================================================================== *)
(** ** Built-ins on lists *)

Section Builtins.
Context {A : Type}.
Variable lt : A -> A -> bool.

(** [sorted] is stable and compares with [<] only; on a list that [<]
    orders totally its result does not depend on the algorithm, which is
    written here as an insertion sort, the elements inserted from the last
    to the first, each before the first element that is not less than it. *)
Fixpoint insert (x : A) (l : list A) : list A :=
  match l with
  | [] => [x]
  | y :: t => if lt y x then y :: insert x t else x :: y :: t
  end.

Definition sorted (l : list A) : list A := fold_right insert [] l.
End Builtins.

(** [<] on pairs: the first components that differ (by [==]) decide. *)
Definition tuple_ltb {F : Type} `{PyNum F} (p q : F * F) : bool :=
  if neqb (fst p) (fst q)
  then if neqb (snd p) (snd q) then false else nltb (snd p) (snd q)
  else nltb (fst p) (fst q).

(** [le_of lt x y]: [y < x] is false. *)
Definition le_of {A : Type} (lt : A -> A -> bool) (x y : A) : Prop :=
  lt y x = false.

(** On the elements of [l], [<] is a strict total order and [==] is
    equality: what [sorted] needs to put [l] in order.  It holds of every
    list of real numbers; in binary64 it excludes NaN, and 0.0 next to
    -0.0. *)
Definition ordered_by_lt {F : Type} `{PyNum F} (l : list F) : Prop :=
  (forall x y, In x l -> In y l -> nltb x y = true -> nltb y x = false)
  /\ (forall x y z, In x l -> In y l -> In z l ->
                   le_of nltb x y -> le_of nltb y z -> le_of nltb x z)
  /\ (forall x y, In x l -> In y l -> le_of nltb x y -> le_of nltb y x -> x = y)
  /\ (forall x y, In x l -> In y l -> neqb x y = true -> x = y).

(** [sum(l)]: additions from the left, starting from the integer 0. *)
Definition sum {F : Type} `{PyNum F} (l : list F) : F :=
  fold_left nadd l (of_int 0).

(** [range(a, b)] *)
Definition range (a b : nat) : list nat := seq a (b - a).

(* ================================================================== *)
(** ** The instruments *)

Section Instruments.
Context {F : Type} `{PyNum F}.

Local Coercion value (x : F) : result F := Ok x.
Local Open Scope py_scope.

Definition SOUND_VEL : Z := 345 * 10 ^ 3.     (* In mm.s-1 *)
Definition EPSILON : result F := dec 1 5.      (* .00001 *)
Definition math_pi : result F := Ok npi.        (* from math import pi as PI *)

(** *** class Pipe *)

Record Pipe : Type := mkPipe { diam : F; thick : F }.

(** End adjustment. *)
Definition end_adj (self : Pipe) : result F :=
  dec 8 1 * diam self.

(** *** class VibratingPipe *)

Record VibratingPipe : Type := mkVibratingPipe {
  pipe : Pipe;
  emb_diam : F;
  freq : F
}.

(** The methods that subclasses override; [emb_loc] calls them on [self]. *)
Class Instrument (Self : Type) : Type := {
  end_pos : Self -> result F;
  emb_adj : Self -> result F
}.

Definition theoric_length (self : VibratingPipe) : result F :=
  int SOUND_VEL / freq self / int 2.

Definition VibratingPipe_end_pos (self : VibratingPipe) : result F :=
  theoric_length self - end_adj (pipe self).

Definition thick_emb (self : VibratingPipe) : result F :=
  diam (pipe self) / int 2 + thick (pipe self) + dec 307 3 * emb_diam self.

Definition VibratingPipe_emb_adj (self : VibratingPipe) : result F :=
  diam_ratio <- diam (pipe self) / emb_diam self ;;
  diam_ratio **2 * thick_emb self.

#[export] Instance VibratingPipe_Instrument : Instrument VibratingPipe := {|
  end_pos := VibratingPipe_end_pos;
  emb_adj := VibratingPipe_emb_adj
|}.

(** Physical embouchure location, from pipe end. *)
Definition emb_loc {Self : Type} `{Instrument Self} (self : Self) : result F :=
  end_pos self - emb_adj self.

(** *** class QuenaBody(VibratingPipe) *)

Record QuenaBody : Type := mkQuenaBody { quena_super : VibratingPipe }.

Definition lips_coverage : result F := dec 15 2.

Definition QuenaBody_init (pipe : Pipe) (freq emb_size : F) : result QuenaBody :=
  emb_diam <- emb_size * sqrt_ (int 1 + math_pi / int 4) ;;
  Ok (mkQuenaBody (mkVibratingPipe pipe emb_diam freq)).

Definition QuenaBody_emb_adj (self : QuenaBody) : result F :=
  VibratingPipe_emb_adj (quena_super self) * (int 1 - lips_coverage).

#[export] Instance QuenaBody_Instrument : Instrument QuenaBody := {|
  end_pos := fun self => VibratingPipe_end_pos (quena_super self);
  emb_adj := QuenaBody_emb_adj
|}.

(** *** class ClarinetBody(VibratingPipe) *)

Record ClarinetBody : Type := mkClarinetBody { clarinet_super : VibratingPipe }.

Definition ClarinetBody_init (pipe : Pipe) (freq : F) : result ClarinetBody :=
  Ok (mkClarinetBody (mkVibratingPipe pipe (diam pipe) freq)).

#[export] Instance ClarinetBody_Instrument : Instrument ClarinetBody := {|
  end_pos := fun self => VibratingPipe_end_pos (clarinet_super self);
  emb_adj := fun self => VibratingPipe_emb_adj (clarinet_super self)
|}.

(** *** class Quena(QuenaBody) *)

Record Quena : Type := mkQuena {
  body : QuenaBody;
  ring : bool;
  holes_freqs : list F;
  holes_diams : list F
}.

Definition vibrating (self : Quena) : VibratingPipe := quena_super (body self).

Definition ring_offset : result F := dec 2358 2.   (* mm *)

(** The [holes_diams] argument: a number, or a sequence of numbers. *)
Inductive diams_arg : Type :=
| Scalar (d : F)
| Sequence (l : list F).

(** Modelled from the spec: [utils.iterable] is not among the sources; the
    design document has the argument be a scalar, broadcast to all holes,
    or a sequence. *)
Definition iterable (a : diams_arg) : bool :=
  match a with
  | Scalar _ => false
  | Sequence _ => true
  end.

(** The argument read as a sequence, which the code does when it is
    iterable, and as a number, which it does when it is not. *)
Definition as_sequence (a : diams_arg) : list F :=
  match a with
  | Sequence l => l
  | Scalar _ => []
  end.

Definition as_number (a : diams_arg) : F :=
  match a with
  | Scalar d => d
  | Sequence _ => of_int 0
  end.

(** [holes_diams=None] stands for the argument left out, the default 5;
    likewise [ring], default [False]. *)
Definition Quena_init (pipe : Pipe) (freq : F) (holes_freqs0 : list F)
    (emb_size : F) (holes_diams0 : option diams_arg) (ring0 : option bool)
  : result Quena :=
  let holes_diams0 := match holes_diams0 with
                      | Some a => a
                      | None => Scalar (of_int 5)
                      end in
  let ring := match ring0 with Some b => b | None => false end in
  let holes_freqs := sorted nltb holes_freqs0 in
  holes_diams <-
    (if iterable holes_diams0
     then
       let l := as_sequence holes_diams0 in
       if negb (length l =? length holes_freqs0)%nat
       then Raise IndexError
       else Ok (map snd (sorted tuple_ltb (combine holes_freqs0 l)))
     else Ok (repeat (as_number holes_diams0) (length holes_freqs0))) ;;
  super <- QuenaBody_init pipe freq emb_size ;;
  Ok (mkQuena super ring holes_freqs holes_diams).

Definition holes_nb (self : Quena) : nat := length (holes_freqs self).

(** Ring adjustment. *)
Definition ring_adj (self : Quena) : result F :=
  if ring self then ring_offset else int 0.

(** Closed hole adjustment for tone hole n. *)
Definition closed_adj (self : Quena) (n : nat) : result F :=
  free_thick <- thick (pipe (vibrating self)) / int 10 ;;
  free_thick * (getitem (holes_diams self) n / diam (pipe (vibrating self))) **2.

(** Cumulated closed hole adjustment from hole a up to hole b; [b or
    self.holes_nb] takes [holes_nb] for [None] and for 0. *)
Definition cum_closed_adj (self : Quena) (a : nat) (b : option nat) : result F :=
  let b := match b with
           | None | Some O => holes_nb self
           | Some b => b
           end in
  l <- comprehension (closed_adj self) (range a b) ;;
  Ok (sum l).

(** Position of flute end, from the start of the air column. *)
Definition Quena_end_pos (self : Quena) : result F :=
  VibratingPipe_end_pos (vibrating self) - ring_adj self
  - cum_closed_adj self 0 None.

#[export] Instance Quena_Instrument : Instrument Quena := {|
  end_pos := Quena_end_pos;
  emb_adj := fun self => QuenaBody_emb_adj (body self)
|}.

(** Theoric position of hole n. *)
Definition theoric_hole_pos (self : Quena) (n : nat) : result F :=
  int SOUND_VEL / getitem (holes_freqs self) n / int 2.

(** Effective pipe thickness, due to open tonal hole n. *)
Definition thick_hole (self : Quena) (n : nat) : result F :=
  thick (pipe (vibrating self)) + dec 75 2 * getitem (holes_diams self) n.

(** The [try] block of [holes_pos] with its [except] clause: the open hole
    correction of hole [n] in the state [holes_pos]. *)
Definition open_adj (self : Quena) (n : nat) (holes_pos : list F) : result F :=
  try_except_ValueError
    (match n with
     | O =>
         ratio <- getitem (holes_diams self) 0 / diam (pipe (vibrating self)) ;;
         dist <- Quena_end_pos self - getitem holes_pos 0 ;;
         thick_hole self 0 / (ratio **2 + thick_hole self 0 / dist)
     | S n' =>
         ratio <- diam (pipe (vibrating self)) / getitem (holes_diams self) n ;;
         dist <- getitem holes_pos n' - getitem holes_pos n ;;
         dist / int 2
         * (sqrt_ (int 1 + int 4 * (thick_hole self n / dist * ratio **2)) - int 1)
     end)
    (Raise (ValueError (OpenHoleFailed n))).

(** The distance [dist] that the correction of hole [n] computes. *)
Definition hole_dist (self : Quena) (n : nat) (holes_pos : list F) : result F :=
  match n with
  | O => Quena_end_pos self - getitem holes_pos 0
  | S n' => getitem holes_pos n' - getitem holes_pos n
  end.

(** The argument of [sqrt] in the correction of a hole [n] other than the
    first, as [open_adj] computes it. *)
Definition radicand (self : Quena) (n : nat) (holes_pos : list F) : result F :=
  ratio <- diam (pipe (vibrating self)) / getitem (holes_diams self) n ;;
  dist <- hole_dist self n holes_pos ;;
  int 1 + int 4 * (thick_hole self n / dist * ratio **2).

(** The body of the [while] loop after [old_pos = holes_pos[n]]. *)
Definition while_body (self : Quena) (n : nat) (holes_pos : list F)
  : result (list F) :=
  open_adj <- open_adj self n holes_pos ;;
  v <- theoric_hole_pos self n - open_adj ;;
  holes_pos <- setitem holes_pos n v ;;
  if (n <? holes_nb self - 1)%nat
  then v <- getitem holes_pos n - cum_closed_adj self (n + 1) None ;;
       setitem holes_pos n v
  else Ok holes_pos.

(** The test of the [while] loop, [abs(holes_pos[n] - old_pos) > EPSILON]. *)
Definition loop_test (holes_pos : list F) (n : nat) (old_pos : F) : result bool :=
  gt_ (abs_ (getitem holes_pos n - old_pos)) EPSILON.

(** [while abs(holes_pos[n] - old_pos) > EPSILON: ...], at most [fuel]
    passes through the body. *)
Fixpoint while_loop (fuel : nat) (self : Quena) (n : nat)
    (holes_pos : list F) (old_pos : F) : result (list F) :=
  test <- loop_test holes_pos n old_pos ;;
  if test : bool
  then match fuel with
       | O => OutOfFuel
       | S fuel =>
           old_pos <- getitem holes_pos n ;;
           holes_pos <- while_body self n holes_pos ;;
           while_loop fuel self n holes_pos old_pos
       end
  else Ok holes_pos.

(** [for n in range(self.holes_nb): ...] *)
Fixpoint for_loop (fuel : nat) (self : Quena) (ns : list nat)
    (holes_pos : list F) : result (list F) :=
  match ns with
  | [] => Ok holes_pos
  | n :: ns =>
      holes_pos <- while_loop fuel self n (holes_pos ++ [of_int 0]) (of_int 1) ;;
      for_loop fuel self ns holes_pos
  end.

(** Find the locations of all finger holes. *)
Definition holes_pos (fuel : nat) (self : Quena) : result (list F) :=
  for_loop fuel self (range 0 (holes_nb self)) [].

(** The value that one pass of the loop body leaves in [holes_pos[n]]:
    [while_body] is [holes_pos[n] = next_pos] (lemma [while_body_next_pos]). *)
Definition next_pos (self : Quena) (n : nat) (holes_pos : list F) : result F :=
  open_adj <- open_adj self n holes_pos ;;
  v <- theoric_hole_pos self n - open_adj ;;
  if (n <? holes_nb self - 1)%nat
  then v - cum_closed_adj self (n + 1) None
  else Ok v.

(** The states in which [holes_pos] evaluates the test of its [while]
    loop: the hole [n], the list [holes_pos] and [old_pos]. *)
Inductive visited (self : Quena) : nat -> list F -> F -> Prop :=
| visited_first :
    (0 < holes_nb self)%nat ->
    visited self 0 [of_int 0] (of_int 1)
| visited_pass (n : nat) (holes_pos holes_pos' : list F) (old_pos cur : F) :
    visited self n holes_pos old_pos ->
    loop_test holes_pos n old_pos = Ok true ->
    getitem holes_pos n = Ok cur ->
    while_body self n holes_pos = Ok holes_pos' ->
    visited self n holes_pos' cur
| visited_next (n : nat) (holes_pos : list F) (old_pos : F) :
    visited self n holes_pos old_pos ->
    loop_test holes_pos n old_pos = Ok false ->
    (S n < holes_nb self)%nat ->
    visited self (S n) (holes_pos ++ [of_int 0]) (of_int 1).

(** The sentinel: with [holes_pos[n] = 0] and [old_pos = 1] the test of the
    loop is true, so the body runs at least once. *)
Definition sentinel_enters : Prop :=
  gt_ (abs_ (int 0 - int 1)) EPSILON = Ok true.

(** Physical holes locations, relative to flute end. *)
Definition holes_loc (fuel : nat) (self : Quena) : result (list F) :=
  l <- holes_pos fuel self ;;
  comprehension (fun pos : F => Quena_end_pos self - pos) l.

End Instruments.

(* ================================================================== *)
(** ** Exact-arithmetic constants and the inputs of the test suite *)

(** The constant under the square root of [QuenaBody.__init__]. *)
Definition lips_k : R := sqrt (1 + PI / 4).

(** [Pipe(18, 3.5)], the fixture [water_pipe] of [tests.py], in both number
    systems. *)
Definition water_pipe_R : @Pipe R := mkPipe 18%R 3.5%R.
Definition water_pipe_float : @Pipe float := mkPipe 18%float 3.5%float.

(** [within actual expected rel]: the comparison [actual == approx(expected,
    rel)] of the tests, a relative tolerance. *)
Definition within (actual expected rel : R) : Prop :=
  (Rabs (actual - expected) <= rel * Rabs expected)%R.

Definition within_float (actual expected rel : float) : bool :=
  PrimFloat.leb (PrimFloat.abs (actual - expected))
                (rel * PrimFloat.abs expected)%float.

(* ================================================================== *)
(** ** The formulas of the design document *)

(** Written after the words of the design document (sections 3 and 4.4), in
    exact arithmetic with the total operations of [R], to be compared with
    what the code computes. *)
Module Spec.
Local Open Scope R_scope.

Definition SOUND_VELOCITY : R := 345000.
Definition EPSILON : R := 0.00001.

Section OfQuena.
Variable q : @Quena R.

Definition boreInnerDiameter : R := diam (pipe (vibrating q)).
Definition wallThickness : R := thick (pipe (vibrating q)).
Definition holeCount : nat := length (holes_freqs q).
Definition holeFrequency (n : nat) : R := nth n (holes_freqs q) 0.
Definition holeDiameter (n : nat) : R := nth n (holes_diams q) 0.

Definition theoreticalLength : R :=
  SOUND_VELOCITY / (2 * freq (vibrating q)).

Definition baseEndPosition : R :=
  theoreticalLength - 0.8 * boreInnerDiameter.

Definition ringAdjustment : R := if ring q then 23.58 else 0.

Definition closedAdjustment (n : nat) : R :=
  (wallThickness / 10) * (holeDiameter n / boreInnerDiameter) ^ 2.

(** The sum of [closedAdjustment i] for [i] in [[a, b)]. *)
Definition closedAdjustmentSum (a b : nat) : R :=
  fold_right Rplus 0 (map closedAdjustment (seq a (b - a))).

Definition endPosition : R :=
  baseEndPosition - ringAdjustment - closedAdjustmentSum 0 holeCount.

Definition openThickness (n : nat) : R :=
  wallThickness + 0.75 * holeDiameter n.

Definition theoreticalHolePos (n : nat) : R :=
  SOUND_VELOCITY / (2 * holeFrequency n).

(** Step 2b: the open-hole correction of hole [n], [pos] holding the
    positions of the holes before [n] and the current estimate of
    [pos[n]]. *)
Definition openAdj (n : nat) (pos : list R) : R :=
  match n with
  | O =>
      let ratio := holeDiameter 0 / boreInnerDiameter in
      let dist := endPosition - nth 0 pos 0 in
      openThickness 0 / (ratio ^ 2 + openThickness 0 / dist)
  | S m =>
      let ratio := boreInnerDiameter / holeDiameter n in
      let dist := nth m pos 0 - nth n pos 0 in
      (dist / 2) * (sqrt (1 + 4 * (openThickness n / dist) * ratio ^ 2) - 1)
  end.

(** When the arithmetic of step 2b is valid: no division by zero and no
    square root of a negative number. *)
Definition openAdjDefined (n : nat) (pos : list R) : Prop :=
  match n with
  | O =>
      let ratio := holeDiameter 0 / boreInnerDiameter in
      let dist := endPosition - nth 0 pos 0 in
      dist <> 0 /\ ratio ^ 2 + openThickness 0 / dist <> 0
  | S m =>
      let ratio := boreInnerDiameter / holeDiameter n in
      let dist := nth m pos 0 - nth n pos 0 in
      holeDiameter n <> 0 /\ dist <> 0
      /\ 0 <= 1 + 4 * (openThickness n / dist) * ratio ^ 2
  end.

(** Steps 2c and 2d: the next estimate of [pos[n]]. *)
Definition nextPos (n : nat) (pos : list R) : R :=
  if (n <? holeCount - 1)%nat
  then theoreticalHolePos n - openAdj n pos - closedAdjustmentSum (n + 1) holeCount
  else theoreticalHolePos n - openAdj n pos.
End OfQuena.
End Spec.

(** A flute like the fixture [quena_G4] of [tests.py]: seven holes on
    [water_pipe], a ring, embouchure size 9.5.  The table [NOTES] is not
    among the sources; the frequencies of G4 and of A4 ... G5 are written
    out. *)
Definition quena_G4_float : result (@Quena float) :=
  Quena_init water_pipe_float 392%float
    [440; 493.88; 523.25; 587.33; 659.25; 739.99; 783.99]%float
    9.5%float
    (Some (Sequence [10; 12; 9; 12; 12; 12; 7.5]%float))
    (Some true).

(** What the constructor builds for the flute of [test_quena_emb_pos]
    (lemma [quena_400_R_init]), in exact arithmetic. *)
Definition quena_400_R : @Quena R :=
  mkQuena (mkQuenaBody (mkVibratingPipe water_pipe_R (9.5 * lips_k)%R 362.67%R))
    false [400%R] [10%R].

(** The flute of [test_impossible_quena]. *)
Definition impossible_float : result (@Quena float) :=
  Quena_init water_pipe_float 380%float [450; 650; 780]%float 9.5%float
    (Some (Scalar 4%float)) None.

(** A flute whose single hole is tuned below the flute itself. *)
Definition low_hole_float : result (@Quena float) :=
  Quena_init water_pipe_float 400%float [300]%float 9.5%float
    (Some (Scalar 10%float)) None.

(** A flute whose end position is exactly 0 in binary64: the theoric length
    16.375 less the end adjustment 16 and the closed adjustment 0.375 of its
    hole. *)
Definition zero_end_float : result (@Quena float) :=
  Quena_init (mkPipe 20%float 3.75%float) 10534.351145038168%float [12000]%float
    9.5%float (Some (Scalar 20%float)) None.


(* ================================================================== *)
(** ** The exceptions of the arithmetic *)

(** What the operations of a number system raise: [/] nothing but
    [ZeroDivisionError], [**2] nothing but [OverflowError], [math.sqrt]
    nothing but the [ValueError] of a domain error. *)
Definition arithmetic_raises {F : Type} `{PyNum F} : Prop :=
  (forall (x y : F) (e : exn), ndiv x y = Raise e -> e = ZeroDivisionError)
  /\ (forall (x : F) (e : exn), npow2 x = Raise e -> e = OverflowError)
  /\ (forall (x : F) (e : exn), nsqrt x = Raise e -> e = ValueError MathDomain).

(** [fails_in P c]: an exception that [c] raises satisfies [P]. *)
Definition fails_in {A : Type} (P : exn -> Prop) (c : result A) : Prop :=
  forall e : exn, c = Raise e -> P e.

(** The exceptions of a division and of a square. *)
Definition division_or_overflow (e : exn) : Prop :=
  e = ZeroDivisionError \/ e = OverflowError.

(** The exceptions of the correction of hole [n]: those, and for a hole
    other than the first the [ValueError] that names it. *)
Definition hole_failure (n : nat) (e : exn) : Prop :=
  division_or_overflow e
  \/ ((0 < n)%nat /\ e = ValueError (OpenHoleFailed n)).

(* ================================================================== *)
(** ** More inputs *)

(** The first three holes of the fixture [quena_G4], as the constructor
    stores them, the embouchure diameter taken as 12. *)
Definition three_holes_R : @Quena R :=
  mkQuena (mkQuenaBody (mkVibratingPipe water_pipe_R 12%R 392%R)) true
    [440; 493.88; 523.25]%R [10; 12; 9]%R.
(* ================================================================== *)
(** ** Exact arithmetic: how the operations of [PyNum_R] evaluate *)

Local Open Scope R_scope.

Lemma Reqb_true_iff (x y : R) : Reqb x y = true <-> x = y.
Proof. unfold Reqb. destruct (Req_dec_T x y); split; congruence. Qed.

Lemma Reqb_false_iff (x y : R) : Reqb x y = false <-> x <> y.
Proof. unfold Reqb. destruct (Req_dec_T x y); split; congruence. Qed.

Lemma Rltb_true_iff (x y : R) : Rltb x y = true <-> x < y.
Proof. unfold Rltb. destruct (Rlt_dec x y); split; congruence. Qed.

Lemma Rltb_false_iff (x y : R) : Rltb x y = false <-> y <= x.
Proof.
  unfold Rltb. destruct (Rlt_dec x y); split; intros; try congruence; lra.
Qed.

Lemma ndiv_R_ok (x y : R) : y <> 0 -> ndiv x y = Ok (x / y).
Proof. intros Hy. cbn. apply Reqb_false_iff in Hy. now rewrite Hy. Qed.

Lemma ndiv_R_zero (x y : R) : y = 0 -> ndiv x y = Raise ZeroDivisionError.
Proof. intros Hy. cbn. apply Reqb_true_iff in Hy. now rewrite Hy. Qed.

Lemma nsqrt_R_ok (x : R) : 0 <= x -> nsqrt x = Ok (sqrt x).
Proof. intros Hx. cbn. apply Rltb_false_iff in Hx. now rewrite Hx. Qed.

Lemma nsqrt_R_neg (x : R) : x < 0 -> nsqrt x = Raise (ValueError MathDomain).
Proof. intros Hx. cbn. apply Rltb_true_iff in Hx. now rewrite Hx. Qed.

Lemma dec_R (m : Z) (e : nat) :
  dec m e = Ok (IZR m / IZR (10 ^ Z.of_nat e)).
Proof.
  unfold dec, int, lift2, bind. apply ndiv_R_ok.
  apply not_0_IZR. apply Z.pow_nonzero; lia.
Qed.

(** Rewriting an expression of the error monad into its value. *)
Ltac py_unfold :=
  unfold sqrt_, abs_, gt_, int, value, math_pi;
  unfold lift2, lift1, total2;
  cbn [bind of_int npi nadd nsub nmul nabs nltb neqb npow2 PyNum_R].
Ltac py_div :=
  rewrite ndiv_R_ok by (try assumption; try lra);
  cbn [bind of_int npi nadd nsub nmul nabs nltb neqb npow2 PyNum_R].

(** Deciding the comparisons of constants that occur in the goal. *)
Ltac decide_R :=
  repeat match goal with
    | |- context [Rltb ?a ?b] =>
        first [ rewrite (proj2 (Rltb_true_iff a b)) by lra
              | rewrite (proj2 (Rltb_false_iff a b)) by lra ]
    | |- context [Reqb ?a ?b] =>
        first [ rewrite (proj2 (Reqb_true_iff a b)) by lra
              | rewrite (proj2 (Reqb_false_iff a b)) by lra ]
    end.

(** Evaluating the integer powers of literals, as in [10 ^ 3]. *)
Ltac norm_Z :=
  repeat match goal with
    | |- context [IZR (?a ^ ?b)%Z] =>
        let v := eval vm_compute in (a ^ b)%Z in
        change (a ^ b)%Z with v
    | |- context [IZR (?a * ?b)%Z] =>
        let v := eval vm_compute in (a * b)%Z in
        change (a * b)%Z with v
    end.

Ltac py_eq :=
  first [ reflexivity
        | f_equal; norm_Z; first [ lra | ring | field; lra ] ].


Lemma lips_k_sqr : lips_k * lips_k = 1 + PI / 4.
Proof.
  unfold lips_k. apply sqrt_sqrt. pose proof PI_RGT_0. lra.
Qed.

Lemma lips_k_pos : 0 < lips_k.
Proof.
  unfold lips_k. apply sqrt_lt_R0. pose proof PI_RGT_0. lra.
Qed.

Lemma QuenaBody_init_R (p : Pipe) (f s : R) :
  QuenaBody_init p f s = Ok (mkQuenaBody (mkVibratingPipe p (s * lips_k) f)).
Proof.
  unfold QuenaBody_init. py_unfold. py_div.
  rewrite nsqrt_R_ok by (pose proof PI_RGT_0; lra).
  reflexivity.
Qed.

Lemma theoric_length_R (vp : VibratingPipe) :
  freq vp <> 0 -> theoric_length vp = Ok (IZR SOUND_VEL / freq vp / 2).
Proof.
  intros Hf. unfold theoric_length. py_unfold. py_div. py_div. reflexivity.
Qed.

Lemma end_adj_R (p : Pipe) : end_adj p = Ok (0.8 * diam p).
Proof.
  unfold end_adj. rewrite dec_R. py_unfold. py_eq.
Qed.

Lemma VibratingPipe_end_pos_R (vp : VibratingPipe) :
  freq vp <> 0 ->
  VibratingPipe_end_pos vp = Ok (IZR SOUND_VEL / freq vp / 2 - 0.8 * diam (pipe vp)).
Proof.
  intros Hf. unfold VibratingPipe_end_pos.
  rewrite theoric_length_R, end_adj_R by assumption. reflexivity.
Qed.

Lemma thick_emb_R (vp : VibratingPipe) :
  thick_emb vp
  = Ok (diam (pipe vp) / 2 + thick (pipe vp) + 0.307 * emb_diam vp).
Proof.
  unfold thick_emb. rewrite dec_R. py_unfold. py_div. py_eq.
Qed.

Lemma VibratingPipe_emb_adj_R (vp : VibratingPipe) :
  emb_diam vp <> 0 ->
  VibratingPipe_emb_adj vp
  = Ok ((diam (pipe vp) / emb_diam vp) ^ 2
        * (diam (pipe vp) / 2 + thick (pipe vp) + 0.307 * emb_diam vp)).
Proof.
  intros He. unfold VibratingPipe_emb_adj. rewrite thick_emb_R.
  py_unfold. py_div. py_eq.
Qed.

Lemma VibratingPipe_emb_adj_R_zero (vp : VibratingPipe) :
  emb_diam vp = 0 -> VibratingPipe_emb_adj vp = Raise ZeroDivisionError.
Proof.
  intros He. unfold VibratingPipe_emb_adj. py_unfold.
  rewrite ndiv_R_zero by assumption. reflexivity.
Qed.

Lemma QuenaBody_emb_adj_R (b : QuenaBody) :
  emb_diam (quena_super b) <> 0 ->
  QuenaBody_emb_adj b
  = Ok ((diam (pipe (quena_super b)) / emb_diam (quena_super b)) ^ 2
        * (diam (pipe (quena_super b)) / 2 + thick (pipe (quena_super b))
           + 0.307 * emb_diam (quena_super b))
        * (1 - 0.15)).
Proof.
  intros He. unfold QuenaBody_emb_adj, lips_coverage.
  rewrite VibratingPipe_emb_adj_R, dec_R by assumption.
  py_unfold. py_eq.
Qed.

Lemma QuenaBody_emb_loc_R (b : QuenaBody) :
  freq (quena_super b) <> 0 -> emb_diam (quena_super b) <> 0 ->
  emb_loc b
  = Ok (IZR SOUND_VEL / freq (quena_super b) / 2
        - 0.8 * diam (pipe (quena_super b))
        - (diam (pipe (quena_super b)) / emb_diam (quena_super b)) ^ 2
          * (diam (pipe (quena_super b)) / 2 + thick (pipe (quena_super b))
             + 0.307 * emb_diam (quena_super b))
          * (1 - 0.15)).
Proof.
  intros Hf He. unfold emb_loc. cbn [end_pos emb_adj QuenaBody_Instrument].
  rewrite VibratingPipe_end_pos_R, QuenaBody_emb_adj_R by assumption.
  reflexivity.
Qed.

Lemma ClarinetBody_emb_loc_R (p : Pipe) (f : R) :
  f <> 0 -> diam p <> 0 ->
  (c <- ClarinetBody_init p f ;; emb_loc c)%py
  = Ok (IZR SOUND_VEL / f / 2 - 0.8 * diam p
        - (diam p / diam p) ^ 2 * (diam p / 2 + thick p + 0.307 * diam p)).
Proof.
  intros Hf Hd. unfold ClarinetBody_init, emb_loc. cbn [bind].
  cbn [end_pos emb_adj ClarinetBody_Instrument clarinet_super].
  rewrite VibratingPipe_end_pos_R, VibratingPipe_emb_adj_R by assumption.
  reflexivity.
Qed.

(** Bounds on [sqrt (1 + PI/4)] from [3 < PI <= 4]. *)
Lemma lips_k_bounds : 1.3228 < lips_k < 1.4143.
Proof.
  pose proof lips_k_sqr as Hk. pose proof lips_k_pos as Hp.
  pose proof PI2_3_2 as H3. pose proof PI_4 as H4.
  split; nra.
Qed.

(** The embouchure correction of [QuenaBody(Pipe(18, 3.5), _, 9.5)] lies
    between 24.9 and 29 mm. *)
Lemma water_quena_emb_adj_bounds :
  24.9 < (18 / (9.5 * lips_k)) ^ 2 * (18 / 2 + 3.5 + 0.307 * (9.5 * lips_k))
          * (1 - 0.15) < 29.
Proof.
  pose proof lips_k_bounds as [Hlo Hhi].
  set (e := 9.5 * lips_k).
  assert (He : 12.5666 < e < 13.43585) by (unfold e; lra).
  set (r := 18 / e).
  assert (Hre : r * e = 18) by (unfold r; field; lra).
  assert (Hr : 1.3396 < r < 1.4324) by (split; nra).
  assert (Hr2 : 1.7945 < r ^ 2 < 2.0518) by (split; nra).
  split; nra.
Qed.

(** The decimal literals of the program, as [dec] builds them in binary64,
    are the numbers the interpreter reads. *)
Example dec_float_literals :
  (@dec float _ 8 1, @dec float _ 307 3, @dec float _ 15 2,
   @dec float _ 2358 2, @dec float _ 75 2, @dec float _ 1 5)
  = (Ok 0.8%float, Ok 0.307%float, Ok 0.15%float,
     Ok 23.58%float, Ok 0.75%float, Ok 0.00001%float).
Proof. vm_compute. reflexivity. Qed.

(* ================================================================== *)
(** ** C3: the reference measurements *)

(** C3, as stated, fails: with the direct-bore embouchure ([ClarinetBody])
    on [Pipe(18, 3.5)] the embouchure location is about 510.6 mm at
    317.66 Hz and about 371.95 mm at 426.58 Hz, neither within 1% of the
    measured 499.0 mm and 361.5 mm; in exact arithmetic and in binary64. *)
Lemma C3_direct_bore_counterexample :
  (exists v : R,
      (c <- ClarinetBody_init water_pipe_R 317.66 ;; emb_loc c)%py = Ok v
      /\ ~ within v 499 0.01)
  /\ (exists v : R,
      (c <- ClarinetBody_init water_pipe_R 426.58 ;; emb_loc c)%py = Ok v
      /\ ~ within v 361.5 0.01)
  /\ (exists v : float,
      (c <- ClarinetBody_init water_pipe_float 317.66%float ;; emb_loc c)%py = Ok v
      /\ v = 510.60743197129005%float
      /\ within_float v 499%float 0.01%float = false)
  /\ (exists v : float,
      (c <- ClarinetBody_init water_pipe_float 426.58%float ;; emb_loc c)%py = Ok v
      /\ v = 371.95301448731777%float
      /\ within_float v 361.5%float 0.01%float = false).
Proof.
  repeat split.
  - eexists. split.
    + apply ClarinetBody_emb_loc_R; cbn; lra.
    + unfold within, water_pipe_R, SOUND_VEL. cbn [diam thick].
      replace (18 / 18) with 1 by lra.
      change (345 * 10 ^ 3)%Z with 345000%Z.
      intros Hw. rewrite (Rabs_pos_eq 499) in Hw by lra.
      match type of Hw with Rabs ?x <= _ => pose proof (Rle_abs x) end. lra.
  - eexists. split.
    + apply ClarinetBody_emb_loc_R; cbn; lra.
    + unfold within, water_pipe_R, SOUND_VEL. cbn [diam thick].
      replace (18 / 18) with 1 by lra.
      change (345 * 10 ^ 3)%Z with 345000%Z.
      intros Hw. rewrite (Rabs_pos_eq 361.5) in Hw by lra.
      match type of Hw with Rabs ?x <= _ => pose proof (Rle_abs x) end. lra.
  - eexists. repeat split; vm_compute; reflexivity.
  - eexists. repeat split; vm_compute; reflexivity.
Qed.

(** C3, amended: on [Pipe(18, 3.5)] with the lip-covered embouchure of size
    9.5 ([QuenaBody], which is what [test_quena_body_emb_pos] builds) the
    embouchure location is within 1% of 499.0 mm at 317.66 Hz and within 1%
    of 361.5 mm at 426.58 Hz; in exact arithmetic and in binary64. *)
Theorem C3_lip_covered_measurements :
  (exists v : R,
      (b <- QuenaBody_init water_pipe_R 317.66 9.5 ;; emb_loc b)%py = Ok v
      /\ within v 499 0.01)
  /\ (exists v : R,
      (b <- QuenaBody_init water_pipe_R 426.58 9.5 ;; emb_loc b)%py = Ok v
      /\ within v 361.5 0.01)
  /\ (exists v : float,
      (b <- QuenaBody_init water_pipe_float 317.66%float 9.5%float ;; emb_loc b)%py
      = Ok v
      /\ v = 500.60841860363615%float
      /\ within_float v 499%float 0.01%float = true)
  /\ (exists v : float,
      (b <- QuenaBody_init water_pipe_float 426.58%float 9.5%float ;; emb_loc b)%py
      = Ok v
      /\ v = 361.95400111966387%float
      /\ within_float v 361.5%float 0.01%float = true).
Proof.
  pose proof lips_k_bounds as Hk.
  pose proof water_quena_emb_adj_bounds as Ha.
  repeat split.
  - eexists. split.
    + rewrite QuenaBody_init_R. cbn [bind].
      apply QuenaBody_emb_loc_R; cbn; lra.
    + unfold within, water_pipe_R, SOUND_VEL. cbn [diam thick pipe quena_super emb_diam freq].
      change (345 * 10 ^ 3)%Z with 345000%Z.
      rewrite (Rabs_pos_eq 499) by lra. apply Rabs_le. lra.
  - eexists. split.
    + rewrite QuenaBody_init_R. cbn [bind].
      apply QuenaBody_emb_loc_R; cbn; lra.
    + unfold within, water_pipe_R, SOUND_VEL. cbn [diam thick pipe quena_super emb_diam freq].
      change (345 * 10 ^ 3)%Z with 345000%Z.
      rewrite (Rabs_pos_eq 361.5) by lra. apply Rabs_le. lra.
  - eexists. repeat split; vm_compute; reflexivity.
  - eexists. repeat split; vm_compute; reflexivity.
Qed.

(* ================================================================== *)
(** ** C8: the theoric length and the frequencies *)

Lemma theoric_length_R_zero (vp : VibratingPipe) :
  freq vp = 0 -> theoric_length vp = Raise ZeroDivisionError.
Proof.
  intros Hf. unfold theoric_length. py_unfold.
  rewrite ndiv_R_zero by assumption. reflexivity.
Qed.

Lemma theoric_hole_pos_R (q : Quena) (n : nat) (f : R) :
  nth_error (holes_freqs q) n = Some f ->
  theoric_hole_pos q n
  = if Reqb f 0 then Raise ZeroDivisionError else Ok (IZR SOUND_VEL / f / 2).
Proof.
  intros Hn. unfold theoric_hole_pos, getitem. rewrite Hn. py_unfold.
  destruct (Reqb f 0) eqn:Hf.
  - apply Reqb_true_iff in Hf. rewrite ndiv_R_zero by assumption. reflexivity.
  - apply Reqb_false_iff in Hf. py_div. py_div. reflexivity.
Qed.

(** C8, as stated, fails: a negative target frequency, and a negative hole
    frequency, are not reported; the theoric length and the theoric hole
    position are returned, negative.  In exact arithmetic and in binary64. *)
Lemma C8_negative_frequency_counterexample :
  theoric_length (mkVibratingPipe water_pipe_R 18 (-440)) = Ok (- (345000 / 880))
  /\ theoric_length (mkVibratingPipe water_pipe_float 18%float (-440)%float)
     = Ok (-392.04545454545456)%float
  /\ (q <- Quena_init water_pipe_float 392%float [(-440)%float] 9.5%float None None ;;
      theoric_hole_pos q 0)%py
     = Ok (-392.04545454545456)%float.
Proof.
  split; [| split].
  - rewrite theoric_length_R by (cbn; lra). unfold SOUND_VEL. cbn [freq].
    change (345 * 10 ^ 3)%Z with 345000%Z. f_equal. lra.
  - vm_compute. reflexivity.
  - vm_compute. reflexivity.
Qed.

(** C8, amended: the theoric length is SOUND_VEL / (2 * freq) for every
    frequency other than zero, negative ones included, and the division by
    a zero frequency raises [ZeroDivisionError]; the same holds of the theoric
    position of a hole and its frequency.  No other frequency is refused. *)
Theorem C8_theoric_length (vp : VibratingPipe) (q : Quena) (n : nat) (f : R) :
  (freq vp <> 0 -> theoric_length vp = Ok (IZR SOUND_VEL / (2 * freq vp)))
  /\ (freq vp = 0 -> theoric_length vp = Raise ZeroDivisionError)
  /\ (nth_error (holes_freqs q) n = Some f ->
      (f <> 0 -> theoric_hole_pos q n = Ok (IZR SOUND_VEL / (2 * f)))
      /\ (f = 0 -> theoric_hole_pos q n = Raise ZeroDivisionError)).
Proof.
  split; [| split].
  - intros Hf. rewrite theoric_length_R by assumption. f_equal. field. assumption.
  - apply theoric_length_R_zero.
  - intros Hn. rewrite (theoric_hole_pos_R q n f Hn). split; intros Hf.
    + apply Reqb_false_iff in Hf as Hb. rewrite Hb. f_equal. field. assumption.
    + apply Reqb_true_iff in Hf. rewrite Hf. reflexivity.
Qed.

(** At 440 Hz, at 0 Hz, and for a hole of frequency 0. *)
Lemma C8_theoric_length_witness :
  theoric_length (mkVibratingPipe water_pipe_R 18 440) = Ok (IZR SOUND_VEL / (2 * 440))
  /\ theoric_length (mkVibratingPipe water_pipe_R 18 0) = Raise ZeroDivisionError
  /\ theoric_hole_pos
       (mkQuena (mkQuenaBody (mkVibratingPipe water_pipe_R 18 392)) false [440; 0] [5; 5])
       1 = Raise ZeroDivisionError.
Proof.
  pose proof (C8_theoric_length (mkVibratingPipe water_pipe_R 18 440)
                (mkQuena (mkQuenaBody (mkVibratingPipe water_pipe_R 18 392)) false
                   [440; 0] [5; 5]) 1 0) as [H1 _].
  pose proof (C8_theoric_length (mkVibratingPipe water_pipe_R 18 0)
                (mkQuena (mkQuenaBody (mkVibratingPipe water_pipe_R 18 392)) false
                   [440; 0] [5; 5]) 1 0) as [_ [H2 H3]].
  split; [| split].
  - apply H1. cbn. lra.
  - apply H2. reflexivity.
  - apply H3; reflexivity.
Defined.

(* ================================================================== *)
(** ** C5: the lip-covered embouchure *)

Lemma Quena_init_body (p : Pipe) (f : R) (hf : list R) (s : R)
    (hd : option diams_arg) (rg : option bool) (q : Quena) :
  Quena_init p f hf s hd rg = Ok q ->
  body q = mkQuenaBody (mkVibratingPipe p (s * lips_k) f).
Proof.
  unfold Quena_init. rewrite QuenaBody_init_R.
  destruct (match hd with Some a => a | None => Scalar (of_int 5) end) as [d | l];
    cbn [bind iterable as_sequence as_number].
  - intros Hq. injection Hq as <-. reflexivity.
  - destruct (negb (length l =? length hf)%nat); cbn [bind]; [discriminate |].
    intros Hq. injection Hq as <-. reflexivity.
Qed.

(** C5: a [QuenaBody] built from the embouchure size [s] has the embouchure
    diameter [s * sqrt (1 + PI/4)]; for [s] other than zero its embouchure
    correction is the base correction
    [(diam/emb_diam)^2 * (diam/2 + thick + 0.307 * emb_diam)]
    times [1 - 0.15] (for [s = 0] the base correction divides by zero).
    The same holds of a [Quena], which inherits both. *)
Theorem C5_lip_covered_emb_adj (p : Pipe) (f s : R) :
  (exists b : QuenaBody,
      QuenaBody_init p f s = Ok b
      /\ pipe (quena_super b) = p
      /\ emb_diam (quena_super b) = s * sqrt (1 + PI / 4)
      /\ (s <> 0 ->
          exists base : R,
            VibratingPipe_emb_adj (quena_super b) = Ok base
            /\ base = (diam p / emb_diam (quena_super b)) ^ 2
                      * (diam p / 2 + thick p + 0.307 * emb_diam (quena_super b))
            /\ emb_adj b = Ok (base * (1 - 0.15)))
      /\ (s = 0 -> emb_adj b = Raise ZeroDivisionError))
  /\ (forall hf hd rg (q : Quena),
      Quena_init p f hf s hd rg = Ok q ->
      emb_diam (vibrating q) = s * sqrt (1 + PI / 4)
      /\ (s <> 0 ->
          emb_adj q
          = Ok ((diam p / emb_diam (vibrating q)) ^ 2
                * (diam p / 2 + thick p + 0.307 * emb_diam (vibrating q))
                * (1 - 0.15)))).
Proof.
  pose proof lips_k_pos as Hk.
  split.
  - eexists. split; [apply QuenaBody_init_R |]. cbn [quena_super pipe emb_diam].
    split; [reflexivity |]. split; [reflexivity |]. split.
    + intros Hs.
      assert (He : s * lips_k <> 0)
        by (apply Rmult_integral_contrapositive_currified; lra).
      eexists. split; [| split].
      * apply VibratingPipe_emb_adj_R. exact He.
      * reflexivity.
      * cbn [emb_adj QuenaBody_Instrument]. apply QuenaBody_emb_adj_R. exact He.
    + intros ->. cbn [emb_adj QuenaBody_Instrument]. unfold QuenaBody_emb_adj.
      rewrite VibratingPipe_emb_adj_R_zero by (cbn; ring). reflexivity.
  - intros hf hd rg q Hq. apply Quena_init_body in Hq.
    unfold vibrating. cbn [emb_adj Quena_Instrument]. rewrite Hq.
    cbn [quena_super emb_diam]. split; [reflexivity |]. intros Hs.
    assert (He : s * lips_k <> 0) by (apply Rmult_integral_contrapositive_currified; lra).
    rewrite QuenaBody_emb_adj_R by exact He. reflexivity.
Qed.

(** On [water_pipe] with the embouchure size 9.5. *)
Lemma C5_lip_covered_emb_adj_witness :
  exists b : QuenaBody,
    QuenaBody_init water_pipe_R 392 9.5 = Ok b
    /\ emb_diam (quena_super b) = 9.5 * sqrt (1 + PI / 4)
    /\ emb_adj b
       = Ok ((18 / emb_diam (quena_super b)) ^ 2
             * (18 / 2 + 3.5 + 0.307 * emb_diam (quena_super b)) * (1 - 0.15)).
Proof.
  destruct (C5_lip_covered_emb_adj water_pipe_R 392 9.5) as [[b [Hb [_ [He [Ha _]]]]] _].
  exists b. split; [exact Hb |]. split; [exact He |].
  destruct Ha as [base [_ [Hbase Hadj]]]; [lra |].
  rewrite Hadj, Hbase. reflexivity.
Defined.

(* ================================================================== *)
(** ** C9: the embouchure correction decreases with the embouchure size *)

Lemma emb_adj_formula_decreasing (D A c e1 e2 : R) :
  0 < D -> 0 < A -> 0 < c -> 0 < e1 -> e1 < e2 ->
  (D / e2) ^ 2 * (A + 0.307 * e2) * c < (D / e1) ^ 2 * (A + 0.307 * e1) * c.
Proof.
  intros HD HA Hc H1 H12.
  assert (H2 : 0 < e2) by lra.
  set (u1 := / e1). set (u2 := / e2).
  assert (Hu1 : u1 * e1 = 1) by (unfold u1; field; lra).
  assert (Hu2 : u2 * e2 = 1) by (unfold u2; field; lra).
  assert (Hu2pos : 0 < u2) by (unfold u2; apply Rinv_0_lt_compat; lra).
  assert (Hu : u2 < u1) by (unfold u1, u2; apply Rinv_lt_contravar; nra).
  replace ((D / e2) ^ 2 * (A + 0.307 * e2)) with (D * D * (A * (u2 * u2) + 0.307 * u2))
    by (unfold u2; field; lra).
  replace ((D / e1) ^ 2 * (A + 0.307 * e1)) with (D * D * (A * (u1 * u1) + 0.307 * u1))
    by (unfold u1; field; lra).
  apply Rmult_lt_compat_r; [exact Hc |].
  apply Rmult_lt_compat_l; [nra |].
  assert (u2 * u2 < u1 * u1) by nra.
  nra.
Qed.

(** C9: in exact arithmetic, with the pipe (positive diameter and wall
    thickness) and the target frequency fixed, of two embouchure sizes
    [0 < s1 < s2] the larger has the strictly smaller embouchure
    correction. *)
Theorem C9_emb_adj_decreasing (p : Pipe) (f s1 s2 : R) :
  0 < diam p -> 0 < thick p -> 0 < s1 -> s1 < s2 ->
  exists c1 c2 : R,
    (b <- QuenaBody_init p f s1 ;; emb_adj b)%py = Ok c1
    /\ (b <- QuenaBody_init p f s2 ;; emb_adj b)%py = Ok c2
    /\ c2 < c1.
Proof.
  intros HD HT Hs1 Hs12. pose proof lips_k_pos as Hk.
  assert (He1 : 0 < s1 * lips_k) by (apply Rmult_lt_0_compat; lra).
  assert (He12 : s1 * lips_k < s2 * lips_k) by (apply Rmult_lt_compat_r; lra).
  rewrite !QuenaBody_init_R. cbn [bind emb_adj QuenaBody_Instrument].
  rewrite !QuenaBody_emb_adj_R by (cbn; lra).
  cbn [quena_super pipe emb_diam].
  do 2 eexists. split; [reflexivity |]. split; [reflexivity |].
  apply emb_adj_formula_decreasing; lra.
Qed.

(** On [water_pipe], the sizes 9 and 9.5. *)
Lemma C9_emb_adj_decreasing_witness :
  exists c1 c2 : R,
    (b <- QuenaBody_init water_pipe_R 392 9 ;; emb_adj b)%py = Ok c1
    /\ (b <- QuenaBody_init water_pipe_R 392 9.5 ;; emb_adj b)%py = Ok c2
    /\ c2 < c1.
Proof.
  apply (C9_emb_adj_decreasing water_pipe_R 392 9 9.5); cbn; lra.
Defined.

(* ================================================================== *)
(** ** [sorted]: length, contents and order *)

Section SortedFacts.
Context {A : Type}.
Variable lt : A -> A -> bool.

Lemma insert_perm (x : A) (l : list A) : Permutation (x :: l) (insert lt x l).
Proof.
  induction l as [| y t IH]; cbn; [reflexivity |].
  destruct (lt y x); [| reflexivity].
  rewrite perm_swap. now apply perm_skip.
Qed.

Lemma sorted_perm (l : list A) : Permutation l (sorted lt l).
Proof.
  induction l as [| x t IH]; cbn; [constructor |].
  rewrite <- insert_perm. now apply perm_skip.
Qed.

Lemma sorted_length (l : list A) : length (sorted lt l) = length l.
Proof. symmetry. apply Permutation_length, sorted_perm. Qed.

(** When, on the elements that satisfy [P], [<] is asymmetric and [le_of lt]
    is transitive, [sorted] puts a list of such elements in [le_of lt]
    order. *)
Variable P : A -> Prop.
Hypothesis lt_asym : forall x y, P x -> P y -> lt x y = true -> lt y x = false.
Hypothesis le_trans :
  forall x y z, P x -> P y -> P z -> le_of lt x y -> le_of lt y z -> le_of lt x z.

Lemma insert_sorted (x : A) (l : list A) :
  P x -> Forall P l ->
  StronglySorted (le_of lt) l -> StronglySorted (le_of lt) (insert lt x l).
Proof.
  intros Hx Hl Hs. induction Hs as [| y t Hs IH Hall]; cbn.
  - repeat constructor.
  - inversion Hl as [| ? ? Hy Ht]; subst.
    destruct (lt y x) eqn:Hyx.
    + constructor; [now apply IH |].
      apply (Permutation_Forall (insert_perm x t)).
      constructor; [now apply lt_asym | exact Hall].
    + constructor; [constructor; assumption |].
      constructor; [exact Hyx |].
      rewrite Forall_forall in Hall, Ht. apply Forall_forall. intros z Hz.
      apply (le_trans x y z); auto.
Qed.

Lemma sorted_sorted (l : list A) :
  Forall P l -> StronglySorted (le_of lt) (sorted lt l).
Proof.
  induction 1 as [| x t Hx Ht IH]; cbn; [constructor |].
  apply insert_sorted; [exact Hx | | exact IH].
  apply (Permutation_Forall (sorted_perm t)). exact Ht.
Qed.
End SortedFacts.

(** Where the order is antisymmetric, a list has one sorted arrangement. *)
Lemma StronglySorted_perm_unique {A : Type} (le : A -> A -> Prop) (P : A -> Prop) :
  (forall x y, P x -> P y -> le x y -> le y x -> x = y) ->
  forall l1 l2 : list A,
    Forall P l1 ->
    StronglySorted le l1 -> StronglySorted le l2 -> Permutation l1 l2 -> l1 = l2.
Proof.
  intros Hanti. induction l1 as [| x t1 IH]; intros l2 HP H1 H2 Hp.
  - apply Permutation_nil in Hp. now subst.
  - destruct l2 as [| y t2]; [apply Permutation_sym, Permutation_nil in Hp; discriminate |].
    inversion H1 as [| ? ? Hs1 Ha1]; subst.
    inversion H2 as [| ? ? Hs2 Ha2]; subst.
    inversion HP as [| ? ? Px Pt]; subst.
    assert (Hin1 : In x (y :: t2)) by (eapply Permutation_in; [exact Hp | now left]).
    assert (Hin2 : In y (x :: t1))
      by (eapply Permutation_in; [symmetry; exact Hp | now left]).
    assert (Py : P y).
    { destruct Hin2 as [<- | Hin2]; [exact Px |].
      rewrite Forall_forall in Pt. now apply Pt. }
    assert (Hxy : x = y).
    { destruct Hin1 as [-> | Hin1]; [reflexivity |].
      destruct Hin2 as [-> | Hin2]; [reflexivity |].
      rewrite Forall_forall in Ha1, Ha2.
      apply Hanti; [exact Px | exact Py | now apply Ha1 | now apply Ha2]. }
    subst y. f_equal. apply IH; try assumption.
    eapply Permutation_cons_inv. exact Hp.
Qed.

Lemma combine_fst_snd {A B : Type} (l : list (A * B)) :
  combine (map fst l) (map snd l) = l.
Proof.
  induction l as [| [a b] t IH]; cbn; [reflexivity | now rewrite IH].
Qed.

Lemma map_fst_combine {A B : Type} (l1 : list A) (l2 : list B) :
  length l2 = length l1 -> map fst (combine l1 l2) = l1.
Proof.
  revert l2. induction l1 as [| a t IH]; intros [| b u] Hlen; try discriminate; cbn.
  - reflexivity.
  - f_equal. apply IH. cbn in Hlen. lia.
Qed.

Lemma map_snd_combine {A B : Type} (l1 : list A) (l2 : list B) :
  length l2 = length l1 -> map snd (combine l1 l2) = l2.
Proof.
  revert l2. induction l1 as [| a t IH]; intros [| b u] Hlen; try discriminate; cbn.
  - reflexivity.
  - f_equal. apply IH. cbn in Hlen. lia.
Qed.

(** Sorting the (frequency, diameter) pairs. *)
Section SortedPairs.
Context {F : Type} `{PyNum F}.
Variable hf : list F.
Hypothesis Hord : ordered_by_lt hf.

Let P (x : F) : Prop := In x hf.
Let le_fst (p q : F * F) : Prop := le_of nltb (fst p) (fst q).

Lemma nltb_irrefl (x : F) : P x -> nltb x x = false.
Proof.
  intros Hx. destruct Hord as [Hasym _].
  destruct (nltb x x) eqn:Hxx; [| reflexivity].
  rewrite (Hasym x x Hx Hx Hxx) in Hxx. discriminate.
Qed.

(** The pairs come out in the order of their frequencies, whatever the
    diameters. *)
Lemma insert_fst_sorted (x : F * F) (l : list (F * F)) :
  P (fst x) -> Forall (fun p => P (fst p)) l ->
  StronglySorted le_fst l -> StronglySorted le_fst (insert tuple_ltb x l).
Proof.
  destruct Hord as [Hasym [Htrans [_ Heq]]].
  intros Hx Hl Hs. induction Hs as [| y t Hs IH Hall]; cbn [insert].
  - repeat constructor.
  - inversion Hl as [| ? ? Hy Ht]; subst.
    assert (Hyx : tuple_ltb y x = true -> le_fst y x).
    { unfold tuple_ltb, le_fst, le_of.
      destruct (neqb (fst y) (fst x)) eqn:He.
      - intros _. rewrite (Heq _ _ Hy Hx He). now apply nltb_irrefl.
      - intros Hlt. now apply Hasym. }
    assert (Hxy : tuple_ltb y x = false -> le_fst x y).
    { unfold tuple_ltb, le_fst, le_of.
      destruct (neqb (fst y) (fst x)) eqn:He.
      - intros _. rewrite (Heq _ _ Hy Hx He). now apply nltb_irrefl.
      - auto. }
    destruct (tuple_ltb y x) eqn:Hlt.
    + constructor; [now apply IH |].
      apply (Permutation_Forall (insert_perm tuple_ltb x t)).
      constructor; [now apply Hyx | exact Hall].
    + constructor; [constructor; assumption |].
      constructor; [now apply Hxy |].
      rewrite Forall_forall in Hall, Ht. apply Forall_forall. intros z Hz.
      apply (Htrans (fst x) (fst y) (fst z)); auto.
      * now apply Ht.
      * now apply Hxy.
      * now apply Hall.
Qed.

Lemma sorted_fst_sorted (l : list (F * F)) :
  Forall (fun p => P (fst p)) l -> StronglySorted le_fst (sorted tuple_ltb l).
Proof.
  induction 1 as [| x t Hx Ht IH]; cbn; [constructor |].
  apply insert_fst_sorted; [exact Hx | | exact IH].
  apply (Permutation_Forall (sorted_perm tuple_ltb t)). exact Ht.
Qed.

Lemma fst_sorted_map (l : list (F * F)) :
  StronglySorted le_fst l -> StronglySorted (le_of nltb) (map fst l).
Proof.
  induction 1 as [| p t Hs IH Hall]; cbn; constructor; [exact IH |].
  apply Forall_map. exact Hall.
Qed.

Lemma sorted_freqs_sorted : StronglySorted (le_of nltb) (sorted nltb hf).
Proof.
  destruct Hord as [Hasym [Htrans _]].
  apply (sorted_sorted nltb P); [exact Hasym | exact Htrans |].
  apply Forall_forall. auto.
Qed.

(** The frequencies of the sorted pairs are the sorted frequencies. *)
Lemma sorted_zip_fst (hd : list F) :
  length hd = length hf ->
  map fst (sorted tuple_ltb (combine hf hd)) = sorted nltb hf.
Proof.
  intros Hlen. destruct Hord as [_ [_ [Hanti _]]].
  assert (Hperm : Permutation (map fst (sorted tuple_ltb (combine hf hd))) hf).
  { rewrite <- (sorted_perm tuple_ltb). now rewrite map_fst_combine. }
  apply (StronglySorted_perm_unique (le_of nltb) P Hanti).
  - apply (Permutation_Forall (Permutation_sym Hperm)). apply Forall_forall. auto.
  - apply fst_sorted_map, sorted_fst_sorted.
    apply Forall_forall. intros [a b] Hin.
    apply in_combine_l in Hin. exact Hin.
  - apply sorted_freqs_sorted.
  - rewrite Hperm. apply sorted_perm.
Qed.
End SortedPairs.

(** The order of the real numbers. *)
Lemma Rle_of_iff (x y : R) : le_of Rltb x y <-> x <= y.
Proof. unfold le_of. apply Rltb_false_iff. Qed.

Lemma ordered_by_lt_R (l : list R) : ordered_by_lt l.
Proof.
  unfold ordered_by_lt. cbn [nltb neqb PyNum_R]. repeat split.
  - intros x y _ _. rewrite Rltb_true_iff, Rltb_false_iff. lra.
  - intros x y z _ _ _. rewrite !Rle_of_iff. lra.
  - intros x y _ _. rewrite !Rle_of_iff. lra.
  - intros x y _ _. apply Reqb_true_iff.
Qed.

Lemma sorted_R_sorted (l : list R) : StronglySorted Rle (sorted Rltb l).
Proof.
  pose proof (sorted_freqs_sorted l (ordered_by_lt_R l)) as Hs.
  cbn [nltb PyNum_R] in Hs.
  induction Hs as [| x t Hs IH Hall]; constructor; [exact IH |].
  eapply Forall_impl; [| exact Hall]. intros z. apply Rle_of_iff.
Qed.

(* ================================================================== *)
(** ** C6, C7, C10: [Quena.__init__] *)

(** What [Quena.__init__] stores. *)
Lemma Quena_init_inv {F : Type} `{PyNum F} (p : Pipe) (f : F) (hf : list F)
    (s : F) (hd : option diams_arg) (rg : option bool) (q : Quena) :
  Quena_init p f hf s hd rg = Ok q ->
  QuenaBody_init p f s = Ok (body q)
  /\ ring q = match rg with Some b => b | None => false end
  /\ holes_freqs q = sorted nltb hf
  /\ match hd with
     | Some (Sequence l) =>
         length l = length hf
         /\ holes_diams q = map snd (sorted tuple_ltb (combine hf l))
     | Some (Scalar d) => holes_diams q = repeat d (length hf)
     | None => holes_diams q = repeat (of_int 5) (length hf)
     end.
Proof.
  unfold Quena_init.
  destruct hd as [[d | l] |]; cbn [bind iterable as_sequence as_number].
  - destruct (QuenaBody_init p f s) as [b | e |]; cbn [bind]; try discriminate.
    intros Hq. injection Hq as <-. cbn. auto.
  - destruct (length l =? length hf)%nat eqn:Hlen; cbn [negb bind]; [| discriminate].
    apply Nat.eqb_eq in Hlen.
    destruct (QuenaBody_init p f s) as [b | e |]; cbn [bind]; try discriminate.
    intros Hq. injection Hq as <-. cbn. auto.
  - destruct (QuenaBody_init p f s) as [b | e |]; cbn [bind]; try discriminate.
    intros Hq. injection Hq as <-. cbn. auto.
Qed.

Lemma Quena_init_lengths {F : Type} `{PyNum F} (p : Pipe) (f : F) (hf : list F)
    (s : F) (hd : option diams_arg) (rg : option bool) (q : Quena) :
  Quena_init p f hf s hd rg = Ok q ->
  length (holes_diams q) = holes_nb q.
Proof.
  intros Hq. apply Quena_init_inv in Hq as [_ [_ [Hf Hd]]].
  unfold holes_nb. rewrite Hf, sorted_length.
  destruct hd as [[d | l] |].
  - rewrite Hd. apply repeat_length.
  - destruct Hd as [Hlen ->]. rewrite length_map, sorted_length, length_combine. lia.
  - rewrite Hd. apply repeat_length.
Qed.

(** C6: the stored hole frequencies are the given ones in ascending order;
    when a sequence of diameters is given, the stored diameters are a
    rearrangement of it, and the stored (frequency, diameter) pairs, position
    by position, are a rearrangement of the given pairs.
    For every number system and every list of frequencies that [<] orders
    (in binary64: no NaN); in exact arithmetic that is every list, and the
    order is [<=] on the real numbers. *)
Theorem C6_holes_sorted :
  (forall (F : Type) (N : PyNum F) (p : Pipe) (f : F) (hf : list F) (s : F)
          (hd : option diams_arg) (rg : option bool) (q : @Quena F),
      ordered_by_lt hf ->
      Quena_init p f hf s hd rg = Ok q ->
      StronglySorted (le_of nltb) (holes_freqs q)
      /\ Permutation hf (holes_freqs q)
      /\ (forall l : list F,
            hd = Some (Sequence l) ->
            Permutation l (holes_diams q)
            /\ Permutation (combine hf l)
                           (combine (holes_freqs q) (holes_diams q))))
  /\ (forall (p : Pipe) (f : R) (hf : list R) (s : R)
        (hd : option diams_arg) (rg : option bool) (q : @Quena R),
      Quena_init p f hf s hd rg = Ok q ->
      StronglySorted Rle (holes_freqs q)
      /\ Permutation hf (holes_freqs q)
      /\ (forall l : list R,
            hd = Some (Sequence l) ->
            Permutation l (holes_diams q)
            /\ Permutation (combine hf l)
                           (combine (holes_freqs q) (holes_diams q)))).
Proof.
  assert (Hgen : forall (F : Type) (N : PyNum F) (p : Pipe) (f : F) (hf : list F)
                        (s : F) (hd : option diams_arg) (rg : option bool)
                        (q : @Quena F),
             ordered_by_lt hf ->
             Quena_init p f hf s hd rg = Ok q ->
             holes_freqs q = sorted nltb hf
             /\ Permutation hf (holes_freqs q)
             /\ (forall l : list F,
                   hd = Some (Sequence l) ->
                   Permutation l (holes_diams q)
                   /\ Permutation (combine hf l)
                                  (combine (holes_freqs q) (holes_diams q)))).
  { intros F N p f hf s hd rg q Hord Hq.
    apply Quena_init_inv in Hq as [_ [_ [Hf Hd]]].
    rewrite Hf. split; [reflexivity |]. split; [apply sorted_perm |].
    intros l ->. destruct Hd as [Hlen ->]. split.
    - rewrite <- (map_snd_combine hf l Hlen) at 1.
      apply Permutation_map, sorted_perm.
    - rewrite <- (sorted_zip_fst hf Hord l Hlen), combine_fst_snd.
      apply sorted_perm. }
  split.
  - intros F N p f hf s hd rg q Hord Hq.
    destruct (Hgen F N p f hf s hd rg q Hord Hq) as [Hf Hrest].
    split; [| exact Hrest]. rewrite Hf. now apply sorted_freqs_sorted.
  - intros p f hf s hd rg q Hq.
    destruct (Hgen R _ p f hf s hd rg q (ordered_by_lt_R hf) Hq) as [Hf Hrest].
    split; [| exact Hrest]. rewrite Hf. apply sorted_R_sorted.
Qed.

(** Three holes given out of order in binary64, two in exact arithmetic. *)
Lemma C6_holes_sorted_witness :
  (exists q : @Quena float,
      Quena_init water_pipe_float 392%float [493.88; 440; 523.25]%float 9.5%float
        (Some (Sequence [12; 10; 9]%float)) None = Ok q
      /\ holes_freqs q = [440; 493.88; 523.25]%float
      /\ holes_diams q = [10; 12; 9]%float
      /\ StronglySorted (le_of PrimFloat.ltb) (holes_freqs q)
      /\ Permutation [12; 10; 9]%float (holes_diams q)
      /\ Permutation (combine [493.88; 440; 523.25]%float [12; 10; 9]%float)
                     (combine (holes_freqs q) (holes_diams q)))
  /\ (exists q : @Quena R,
      Quena_init water_pipe_R 392 [493.88; 440] 9.5 (Some (Sequence [12; 10])) None
      = Ok q
      /\ holes_freqs q = [440; 493.88]
      /\ holes_diams q = [10; 12]
      /\ StronglySorted Rle (holes_freqs q)
      /\ Permutation [12; 10] (holes_diams q)
      /\ Permutation (combine [493.88; 440] [12; 10])
                     (combine (holes_freqs q) (holes_diams q))).
Proof.
  split.
  - assert (Hord : @ordered_by_lt float _ [493.88; 440; 523.25]%float).
    { unfold ordered_by_lt, le_of. cbn [In nltb neqb PyNum_float].
      repeat split; intros;
        repeat match goal with
          | H : _ \/ _ |- _ => destruct H
          | H : False |- _ => destruct H
          end; subst;
        first [ reflexivity
              | match goal with
                | H : _ = _ :> bool |- _ => vm_compute in H; discriminate H
                end ]. }
    let r := eval vm_compute in
      (Quena_init water_pipe_float 392%float [493.88; 440; 523.25]%float 9.5%float
         (Some (Sequence [12; 10; 9]%float)) None) in
    match r with Ok ?q => exists q end.
    match goal with
    | |- ?I = Ok ?q /\ _ =>
        assert (Hq : I = Ok q) by (vm_compute; reflexivity);
        destruct (proj1 C6_holes_sorted float _ _ _ _ _ _ _ q Hord Hq) as [Hs [_ Hd]]
    end.
    split; [exact Hq |]. split; [reflexivity |]. split; [reflexivity |].
    split; [exact Hs |]. apply Hd. reflexivity.
  - eexists. split; [| split; [| split]].
    + unfold Quena_init. rewrite QuenaBody_init_R.
      cbn [iterable as_sequence length Nat.eqb negb bind]. reflexivity.
    + cbn. decide_R. reflexivity.
    + cbn. unfold tuple_ltb. cbn. decide_R. reflexivity.
    + match goal with
      | |- context [holes_freqs ?q] =>
          destruct (proj2 C6_holes_sorted water_pipe_R 392 [493.88; 440] 9.5
                      (Some (Sequence [12; 10])) None q) as [Hs [_ Hd]]
      end.
      * unfold Quena_init. rewrite QuenaBody_init_R. reflexivity.
      * split; [exact Hs |]. apply Hd. reflexivity.
Defined.

(** The same construction in binary64. *)
Example Quena_init_float_sorts :
  (q <- Quena_init water_pipe_float 392%float [493.88; 440]%float 9.5%float
          (Some (Sequence [12; 10]%float)) None ;;
   Ok (holes_freqs q, holes_diams q))%py
  = Ok ([440; 493.88]%float, [10; 12]%float).
Proof. vm_compute. reflexivity. Qed.

(** C7: a sequence of diameters whose length is not the number of
    frequencies makes the constructor raise [IndexError]; no [Quena] is
    built, so nothing can be solved.  For every number system. *)
Theorem C7_length_mismatch {F : Type} `{PyNum F} (p : Pipe) (f : F)
    (hf : list F) (s : F) (l : list F) (rg : option bool) :
  length l <> length hf ->
  Quena_init p f hf s (Some (Sequence l)) rg = Raise IndexError.
Proof.
  intros Hlen. unfold Quena_init. cbn [iterable as_sequence].
  apply Nat.eqb_neq in Hlen. rewrite Hlen. reflexivity.
Qed.

(** Two frequencies and one diameter, in binary64. *)
Lemma C7_length_mismatch_witness :
  Quena_init water_pipe_float 392%float [440; 493.88]%float 9.5%float
    (Some (Sequence [10]%float)) None
  = Raise IndexError.
Proof.
  apply (C7_length_mismatch water_pipe_float). cbn. lia.
Defined.

Lemma QuenaBody_init_float (p : @Pipe float) (f s : float) :
  QuenaBody_init p f s
  = Ok (mkQuenaBody (mkVibratingPipe p (s * 1.3361879221866393)%float f)).
Proof.
  unfold QuenaBody_init.
  change (sqrt_ (int 1 + math_pi / int 4)%py)
    with (Ok 1.3361879221866393%float : result float).
  reflexivity.
Qed.

(** C10: a scalar [holes_diams] is repeated once per frequency, whatever the
    number of frequencies: the constructor succeeds and checks no length;
    with the argument left out every hole gets the diameter 5.  In exact
    arithmetic and in binary64. *)
Theorem C10_scalar_broadcast :
  (forall (p : @Pipe R) (f : R) (hf : list R) (s d : R) (rg : option bool),
      exists q : Quena,
        Quena_init p f hf s (Some (Scalar d)) rg = Ok q
        /\ holes_diams q = repeat d (length hf)
        /\ length (holes_diams q) = length (holes_freqs q)
        /\ Forall (eq d) (holes_diams q))
  /\ (forall (p : @Pipe R) (f : R) (hf : list R) (s : R) (rg : option bool),
      exists q : Quena,
        Quena_init p f hf s None rg = Ok q
        /\ holes_diams q = repeat 5 (length hf)
        /\ length (holes_diams q) = length (holes_freqs q))
  /\ (forall (p : @Pipe float) (f : float) (hf : list float) (s d : float)
        (rg : option bool),
      exists q : Quena,
        Quena_init p f hf s (Some (Scalar d)) rg = Ok q
        /\ holes_diams q = repeat d (length hf)
        /\ length (holes_diams q) = length (holes_freqs q)
        /\ Forall (eq d) (holes_diams q))
  /\ (forall (p : @Pipe float) (f : float) (hf : list float) (s : float)
        (rg : option bool),
      exists q : Quena,
        Quena_init p f hf s None rg = Ok q
        /\ holes_diams q = repeat 5%float (length hf)
        /\ length (holes_diams q) = length (holes_freqs q)).
Proof.
  split; [| split; [| split]]; intros; eexists;
    (split; [unfold Quena_init;
             first [rewrite QuenaBody_init_R | rewrite QuenaBody_init_float];
             cbn [bind]; reflexivity |]);
    cbn [holes_diams holes_freqs]; rewrite ?repeat_length, ?sorted_length;
    repeat split.
  - apply Forall_forall. intros x Hx. symmetry. eapply repeat_spec. exact Hx.
  - apply Forall_forall. intros x Hx. symmetry. eapply repeat_spec. exact Hx.
Qed.

(* ================================================================== *)
(** ** C2: the end position of a [Quena] *)

Lemma sum_R (l : list R) : sum l = fold_right Rplus 0 l.
Proof.
  unfold sum. cbn [of_int nadd PyNum_R].
  assert (Hg : forall (l : list R) (a : R),
             fold_left Rplus l a = a + fold_right Rplus 0 l).
  { clear l. induction l as [| x t IH]; intros a; cbn; [lra |].
    rewrite IH. lra. }
  rewrite Hg. lra.
Qed.

Lemma ring_adj_R (q : Quena) : ring_adj q = Ok (Spec.ringAdjustment q).
Proof.
  unfold ring_adj, Spec.ringAdjustment, ring_offset.
  destruct (ring q); [rewrite dec_R; py_eq | reflexivity].
Qed.

Lemma getitem_nth {A : Type} (l : list A) (n : nat) (d : A) :
  (n < length l)%nat -> getitem l n = Ok (nth n l d).
Proof.
  intros Hn. unfold getitem.
  rewrite (nth_error_nth' l d Hn). reflexivity.
Qed.

Lemma closed_adj_R (q : Quena) (n : nat) :
  (n < length (holes_diams q))%nat ->
  diam (pipe (vibrating q)) <> 0 ->
  closed_adj q n = Ok (Spec.closedAdjustment q n).
Proof.
  intros Hn Hd. unfold closed_adj, Spec.closedAdjustment, Spec.wallThickness,
    Spec.boreInnerDiameter, Spec.holeDiameter.
  rewrite (getitem_nth _ _ 0 Hn). py_unfold. py_div. py_div. py_eq.
Qed.

Lemma closed_adj_comprehension (q : Quena) (l : list nat) :
  Forall (fun n => (n < length (holes_diams q))%nat) l ->
  diam (pipe (vibrating q)) <> 0 ->
  comprehension (closed_adj q) l = Ok (map (Spec.closedAdjustment q) l).
Proof.
  intros Hl Hd. induction Hl as [| n t Hn Ht IH]; cbn; [reflexivity |].
  rewrite closed_adj_R, IH by assumption. reflexivity.
Qed.

Lemma cum_closed_adj_R (q : Quena) (a : nat) :
  length (holes_diams q) = holes_nb q ->
  diam (pipe (vibrating q)) <> 0 ->
  cum_closed_adj q a None = Ok (Spec.closedAdjustmentSum q a (Spec.holeCount q)).
Proof.
  intros Hlen Hd. unfold cum_closed_adj, Spec.closedAdjustmentSum, range.
  fold (holes_nb q). change (Spec.holeCount q) with (holes_nb q).
  rewrite closed_adj_comprehension; [| | exact Hd].
  - cbn [bind]. rewrite sum_R. reflexivity.
  - apply Forall_forall. intros n Hn. apply in_seq in Hn. lia.
Qed.

Lemma Quena_end_pos_R (q : Quena) :
  length (holes_diams q) = holes_nb q ->
  freq (vibrating q) <> 0 ->
  diam (pipe (vibrating q)) <> 0 ->
  Quena_end_pos q = Ok (Spec.endPosition q).
Proof.
  intros Hlen Hf Hd. unfold Quena_end_pos.
  rewrite VibratingPipe_end_pos_R, ring_adj_R, cum_closed_adj_R by assumption.
  unfold Spec.endPosition, Spec.baseEndPosition, Spec.theoreticalLength,
    Spec.SOUND_VELOCITY, Spec.boreInnerDiameter, SOUND_VEL.
  py_unfold. change (345 * 10 ^ 3)%Z with 345000%Z. f_equal.
  field. assumption.
Qed.

(** C2: the end position of a [Quena] (non-zero target frequency and bore
    diameter) is the base end position [theoric_length - 0.8 * diam], minus
    the ring adjustment (23.58 with a ring, else 0), minus the sum over all
    holes of the closed adjustment [(thick/10) * (holes_diams[i]/diam)^2],
    which is what [closed_adj] returns for each hole. *)
Theorem C2_quena_end_pos (p : Pipe) (f : R) (hf : list R) (s : R)
    (hd : option diams_arg) (rg : option bool) (q : Quena) :
  Quena_init p f hf s hd rg = Ok q ->
  f <> 0 -> diam p <> 0 ->
  end_pos q
  = Ok ((Spec.SOUND_VELOCITY / (2 * f) - 0.8 * diam p)
        - (if ring q then 23.58 else 0)
        - Spec.closedAdjustmentSum q 0 (length (holes_freqs q)))
  /\ (forall i : nat,
        (i < length (holes_freqs q))%nat ->
        closed_adj q i = Ok (thick p / 10 * (nth i (holes_diams q) 0 / diam p) ^ 2)
        /\ Spec.closedAdjustment q i
           = thick p / 10 * (nth i (holes_diams q) 0 / diam p) ^ 2).
Proof.
  intros Hq Hf Hd.
  pose proof (Quena_init_lengths _ _ _ _ _ _ _ Hq) as Hlen.
  apply Quena_init_body in Hq.
  assert (Hp : pipe (vibrating q) = p) by (unfold vibrating; now rewrite Hq).
  assert (Hfq : freq (vibrating q) = f) by (unfold vibrating; now rewrite Hq).
  split.
  - cbn [end_pos Quena_Instrument].
    rewrite Quena_end_pos_R by (rewrite ?Hp, ?Hfq; assumption).
    unfold Spec.endPosition, Spec.baseEndPosition, Spec.theoreticalLength,
      Spec.ringAdjustment, Spec.boreInnerDiameter, Spec.holeCount.
    rewrite Hp, Hfq. reflexivity.
  - intros i Hi.
    rewrite closed_adj_R by (rewrite ?Hp; unfold holes_nb in Hlen; lia || assumption).
    unfold Spec.closedAdjustment, Spec.wallThickness, Spec.boreInnerDiameter,
      Spec.holeDiameter. rewrite Hp. split; reflexivity.
Qed.

(** A ringed flute of two holes on [water_pipe]. *)
Lemma C2_quena_end_pos_witness :
  exists q : Quena,
    Quena_init water_pipe_R 392 [440; 493.88] 9.5 (Some (Sequence [10; 12]))
      (Some true) = Ok q
    /\ end_pos q
       = Ok (345000 / (2 * 392) - 0.8 * 18 - 23.58
             - (3.5 / 10 * (10 / 18) ^ 2 + (3.5 / 10 * (12 / 18) ^ 2 + 0))).
Proof.
  assert (Hq : Quena_init water_pipe_R 392 [440; 493.88] 9.5
                 (Some (Sequence [10; 12])) (Some true)
               = Ok (mkQuena (mkQuenaBody (mkVibratingPipe water_pipe_R (9.5 * lips_k) 392))
                       true [440; 493.88] [10; 12])).
  { unfold Quena_init. rewrite QuenaBody_init_R.
    cbn [iterable as_sequence].
    cbn [length Nat.eqb negb bind sorted fold_right insert combine].
    unfold tuple_ltb. cbn [fst snd neqb nltb PyNum_R insert].
    decide_R. reflexivity. }
  eexists. split; [exact Hq |].
  destruct (C2_quena_end_pos _ _ _ _ _ _ _ Hq) as [He _]; [lra | cbn; lra |].
  rewrite He. unfold Spec.closedAdjustmentSum, Spec.closedAdjustment,
    Spec.SOUND_VELOCITY, Spec.wallThickness, Spec.boreInnerDiameter, Spec.holeDiameter.
  cbn. f_equal.
Defined.

(* ================================================================== *)
(** ** The tone-hole solver, in every number system *)

Lemma bind_Ok_inv {A B : Type} (c : result A) (k : A -> result B) (b : B) :
  bind c k = Ok b -> exists a : A, c = Ok a /\ k a = Ok b.
Proof. destruct c as [a | e |]; cbn; try discriminate. intros Hk. now exists a. Qed.

Lemma getitem_last {A : Type} (pre : list A) (x : A) :
  getitem (pre ++ [x]) (length pre) = Ok x.
Proof.
  unfold getitem. rewrite nth_error_app2 by lia.
  rewrite Nat.sub_diag. reflexivity.
Qed.

Lemma setitem_last {A : Type} (pre : list A) (x v : A) :
  setitem (pre ++ [x]) (length pre) v = Ok (pre ++ [v]).
Proof.
  induction pre as [| a t IH]; cbn; [reflexivity |]. now rewrite IH.
Qed.

Section SolverFacts.
Context {F : Type} `{PyNum F}.
Variable self : @Quena F.

(** The test of the loop on a list whose last position is the hole's. *)
Lemma loop_test_last (pre : list F) (cur old_pos : F) :
  loop_test (pre ++ [cur]) (length pre) old_pos
  = gt_ (abs_ (Ok cur - Ok old_pos)) EPSILON.
Proof. unfold loop_test. rewrite getitem_last. reflexivity. Qed.

(** One pass of the body stores [next_pos] in the last position. *)
Lemma while_body_next_pos (pre : list F) (x : F) :
  while_body self (length pre) (pre ++ [x])
  = (v <- next_pos self (length pre) (pre ++ [x]) ;; Ok (pre ++ [v]))%py.
Proof.
  unfold while_body, next_pos, value.
  destruct (open_adj self (length pre) (pre ++ [x])) as [oa | e |];
    cbn [bind]; try reflexivity.
  destruct (theoric_hole_pos self (length pre) - Ok oa)%py as [v | e |];
    cbn [bind]; try reflexivity.
  rewrite setitem_last. cbn [bind].
  destruct (length pre <? holes_nb self - 1)%nat; [| reflexivity].
  rewrite getitem_last. unfold lift2. cbn [bind].
  destruct (cum_closed_adj self (length pre + 1) None) as [c | e |];
    cbn [bind total2]; try reflexivity.
  apply setitem_last.
Qed.

(** When the loop of hole [n] ends, only position [n] has changed, and the
    test is false for the value [cur] it holds and some [prev]: the
    initial [old_pos] if the body never ran, and otherwise the estimate
    from which the last pass computed [cur]. *)
Lemma while_loop_post (fuel : nat) (pre : list F) :
  forall (x old_pos : F) (res : list F),
    while_loop fuel self (length pre) (pre ++ [x]) old_pos = Ok res ->
    exists cur prev : F,
      res = pre ++ [cur]
      /\ gt_ (abs_ (Ok cur - Ok prev)) EPSILON = Ok false
      /\ ((cur = x /\ prev = old_pos)
          \/ next_pos self (length pre) (pre ++ [prev]) = Ok cur).
Proof.
  induction fuel as [| fuel IH]; intros x old_pos res; cbn [while_loop];
    rewrite loop_test_last;
    destruct (gt_ (abs_ (Ok x - Ok old_pos)) EPSILON) as [[|] | e |] eqn:Ht;
    cbn [bind]; try discriminate.
  - intros Hres. injection Hres as <-. exists x, old_pos. auto.
  - rewrite getitem_last, while_body_next_pos. cbn [bind].
    destruct (next_pos self (length pre) (pre ++ [x])) as [v | e |] eqn:Hv;
      cbn [bind]; try discriminate.
    intros Hres. apply IH in Hres as [cur [prev [Hr [Hc Hd]]]].
    exists cur, prev. split; [exact Hr |]. split; [exact Hc |].
    right. destruct Hd as [[-> ->] | Hd]; assumption.
  - intros Hres. injection Hres as <-. exists x, old_pos. auto.
Qed.

Lemma for_loop_post (fuel : nat) (k : nat) :
  sentinel_enters ->
  forall (pre res : list F),
    for_loop fuel self (seq (length pre) k) pre = Ok res ->
    length res = (length pre + k)%nat
    /\ firstn (length pre) res = pre
    /\ forall n : nat,
        (length pre <= n < length pre + k)%nat ->
        exists cur prev : F,
          nth_error res n = Some cur
          /\ next_pos self n (firstn n res ++ [prev]) = Ok cur
          /\ gt_ (abs_ (Ok cur - Ok prev)) EPSILON = Ok false.
Proof.
  intros Hs. induction k as [| k IH]; intros pre res; cbn [seq for_loop].
  - intros Hres. injection Hres as <-. rewrite Nat.add_0_r, firstn_all.
    repeat split. intros n Hn. lia.
  - intros Hres. apply bind_Ok_inv in Hres as [hp [Hw Hres]].
    apply while_loop_post in Hw as [cur [prev [-> [Hc Hd]]]].
    destruct Hd as [[-> ->] | Hd].
    { unfold sentinel_enters, int in Hs. rewrite Hs in Hc. discriminate. }
    replace (S (length pre)) with (length (pre ++ [cur])) in Hres
      by (rewrite length_app; cbn; lia).
    apply IH in Hres as [Hlen [Hfirst Hall]].
    rewrite length_app in Hlen, Hfirst, Hall. cbn [length] in Hlen, Hfirst, Hall.
    assert (Hpre : firstn (length pre) res = pre).
    { assert (Hp : firstn (length pre) (pre ++ [cur]) = pre).
      { rewrite firstn_app, Nat.sub_diag, firstn_all. cbn. apply app_nil_r. }
      rewrite <- Hfirst, firstn_firstn in Hp.
      rewrite Nat.min_l in Hp by lia. exact Hp. }
    split; [lia |]. split; [exact Hpre |].
    intros n Hn. destruct (Nat.eq_dec n (length pre)) as [-> | Hne].
    + exists cur, prev. rewrite Hpre. split; [| split; assumption].
      rewrite <- (firstn_skipn (length pre + 1) res), Hfirst.
      rewrite nth_error_app1 by (rewrite length_app; cbn; lia).
      rewrite nth_error_app2 by lia. rewrite Nat.sub_diag. reflexivity.
    + apply Hall. lia.
Qed.

(** What [holes_pos] returns: one position per hole; each is the value of
    [next_pos], computed from the positions before it and an estimate
    [prev] of its own, for which the test of the loop is false. *)
Lemma holes_pos_post (fuel : nat) (ps : list F) :
  sentinel_enters ->
  holes_pos fuel self = Ok ps ->
  length ps = holes_nb self
  /\ forall n : nat,
      (n < holes_nb self)%nat ->
      exists cur prev : F,
        nth_error ps n = Some cur
        /\ next_pos self n (firstn n ps ++ [prev]) = Ok cur
        /\ gt_ (abs_ (Ok cur - Ok prev)) EPSILON = Ok false.
Proof.
  intros Hs Hps. unfold holes_pos, range in Hps. rewrite Nat.sub_0_r in Hps.
  apply (for_loop_post fuel (holes_nb self) Hs []) in Hps as [Hlen [_ Hall]].
  cbn [length] in Hlen, Hall. split; [exact Hlen |].
  intros n Hn. apply Hall. lia.
Qed.
End SolverFacts.

(* ================================================================== *)
(** ** The tone-hole solver in exact arithmetic: the code computes the
       formulas of the design document *)

Lemma ndiv_R_inv (x y z : R) : ndiv x y = Ok z -> y <> 0 /\ z = x / y.
Proof.
  cbn. destruct (Reqb y 0) eqn:Hy; [discriminate |].
  apply Reqb_false_iff in Hy. intros Hz. injection Hz as <-. auto.
Qed.

Lemma nsqrt_R_inv (x z : R) : nsqrt x = Ok z -> 0 <= x /\ z = sqrt x.
Proof.
  cbn. destruct (Rltb x 0) eqn:Hx; [discriminate |].
  apply Rltb_false_iff in Hx. intros Hz. injection Hz as <-. auto.
Qed.

Lemma getitem_Ok_nth {A : Type} (l : list A) (n : nat) (a d : A) :
  getitem l n = Ok a -> (n < length l)%nat /\ a = nth n l d.
Proof.
  unfold getitem. destruct (nth_error l n) as [b |] eqn:Hn; [| discriminate].
  intros Ha. injection Ha as <-. split.
  - apply nth_error_Some. congruence.
  - symmetry. now apply nth_error_nth.
Qed.

(** Taking apart an expression of the error monad that returned a value. *)
Ltac inv_ok :=
  repeat match goal with
    | H : bind _ _ = Ok _ |- _ =>
        let a := fresh "a" in
        let E := fresh "E" in
        apply bind_Ok_inv in H as [a [E H]]
    | H : Ok _ = Ok _ |- _ => injection H as H
    | H : @ndiv R _ _ _ = Ok _ |- _ =>
        let N := fresh "N" in apply ndiv_R_inv in H as [N H]
    | H : @nsqrt R _ _ = Ok _ |- _ =>
        let N := fresh "N" in apply nsqrt_R_inv in H as [N H]
    | H : getitem _ _ = Ok _ |- _ =>
        let N := fresh "N" in apply (getitem_Ok_nth _ _ _ 0) in H as [N H]
    end.

Ltac py_unfold_in H :=
  unfold sqrt_, abs_, gt_, int, value, math_pi in H;
  unfold lift2, lift1, total2 in H;
  cbn [bind of_int npi nadd nsub nmul nabs nltb neqb npow2 PyNum_R] in H.

Lemma closed_adj_R_inv (q : Quena) (n : nat) (c : R) :
  closed_adj q n = Ok c -> c = Spec.closedAdjustment q n.
Proof.
  unfold closed_adj. intros Hc. py_unfold_in Hc. inv_ok. subst.
  unfold Spec.closedAdjustment, Spec.wallThickness, Spec.boreInnerDiameter,
    Spec.holeDiameter. field. assumption.
Qed.

Lemma comprehension_inv {A B : Type} (f : A -> result B) (g : A -> B) (l : list A) :
  (forall a b, f a = Ok b -> b = g a) ->
  forall r : list B, comprehension f l = Ok r -> r = map g l.
Proof.
  intros Hfg. induction l as [| a t IH]; cbn; intros r Hr.
  - now injection Hr as <-.
  - apply bind_Ok_inv in Hr as [b [Hb Hr]].
    apply bind_Ok_inv in Hr as [t' [Ht Hr]].
    injection Hr as <-. f_equal; auto.
Qed.

Lemma cum_closed_adj_R_inv (q : Quena) (a : nat) (c : R) :
  cum_closed_adj q a None = Ok c ->
  c = Spec.closedAdjustmentSum q a (Spec.holeCount q).
Proof.
  unfold cum_closed_adj. intros Hc.
  apply bind_Ok_inv in Hc as [l [Hl Hc]]. injection Hc as <-.
  apply (comprehension_inv _ (Spec.closedAdjustment q)) in Hl;
    [| apply closed_adj_R_inv].
  subst l. rewrite sum_R. reflexivity.
Qed.

Lemma theoric_hole_pos_R_inv (q : Quena) (n : nat) (t : R) :
  theoric_hole_pos q n = Ok t -> t = Spec.theoreticalHolePos q n.
Proof.
  unfold theoric_hole_pos. intros Ht. py_unfold_in Ht. inv_ok. subst.
  unfold Spec.theoreticalHolePos, Spec.holeFrequency, Spec.SOUND_VELOCITY, SOUND_VEL.
  norm_Z. field. assumption.
Qed.

Lemma thick_hole_R_inv (q : Quena) (n : nat) (t : R) :
  thick_hole q n = Ok t -> t = Spec.openThickness q n.
Proof.
  unfold thick_hole. rewrite dec_R. intros Ht. py_unfold_in Ht. inv_ok. subst.
  unfold Spec.openThickness, Spec.wallThickness, Spec.holeDiameter.
  norm_Z. lra.
Qed.

Lemma Quena_end_pos_R_inv (q : Quena) (E : R) :
  Quena_end_pos q = Ok E -> E = Spec.endPosition q.
Proof.
  unfold Quena_end_pos, VibratingPipe_end_pos, theoric_length.
  rewrite end_adj_R, ring_adj_R. intros HE. py_unfold_in HE. inv_ok.
  match goal with
  | Hc : cum_closed_adj _ _ None = Ok _ |- _ => apply cum_closed_adj_R_inv in Hc
  end.
  subst.
  unfold Spec.endPosition, Spec.baseEndPosition, Spec.theoreticalLength,
    Spec.boreInnerDiameter, Spec.SOUND_VELOCITY, SOUND_VEL.
  norm_Z. field. assumption.
Qed.

Ltac inv_spec :=
  repeat match goal with
    | H : cum_closed_adj _ _ None = Ok _ |- _ => apply cum_closed_adj_R_inv in H
    | H : theoric_hole_pos _ _ = Ok _ |- _ => apply theoric_hole_pos_R_inv in H
    | H : thick_hole _ _ = Ok _ |- _ => apply thick_hole_R_inv in H
    | H : Quena_end_pos _ = Ok _ |- _ => apply Quena_end_pos_R_inv in H
    end.

Lemma try_except_Ok_inv {A : Type} (c : result A) (e : exn) (v : A) :
  try_except_ValueError c (Raise e) = Ok v -> c = Ok v.
Proof. destruct c as [a | [| m | |] |]; cbn; congruence. Qed.

Lemma open_adj_R_inv (q : Quena) (n : nat) (hp : list R) (oa : R) :
  open_adj q n hp = Ok oa -> oa = Spec.openAdj q n hp.
Proof.
  unfold open_adj. intros Ho. apply try_except_Ok_inv in Ho.
  destruct n as [| m]; rewrite ?dec_R in Ho; py_unfold_in Ho; inv_ok; inv_spec; subst.
  - unfold Spec.openAdj, Spec.holeDiameter, Spec.boreInnerDiameter. cbv zeta.
    f_equal. ring.
  - unfold Spec.openAdj, Spec.holeDiameter, Spec.boreInnerDiameter. cbv zeta.
    do 3 f_equal. ring.
Qed.

(** One pass of the loop body computes the next estimate of the design
    document. *)
Lemma next_pos_R_inv (q : Quena) (n : nat) (hp : list R) (v : R) :
  next_pos q n hp = Ok v -> v = Spec.nextPos q n hp.
Proof.
  unfold next_pos, Spec.nextPos. change (Spec.holeCount q) with (holes_nb q).
  intros Hv. apply bind_Ok_inv in Hv as [oa [Ho Hv]].
  apply open_adj_R_inv in Ho.
  apply bind_Ok_inv in Hv as [w [Hw Hv]].
  py_unfold_in Hw. inv_ok. inv_spec. 
  destruct (n <? holes_nb q - 1)%nat.
  - py_unfold_in Hv. inv_ok. inv_spec. subst. reflexivity.
  - inv_ok. subst. reflexivity.
Qed.

Lemma thick_hole_R (q : Quena) (n : nat) :
  (n < length (holes_diams q))%nat ->
  thick_hole q n = Ok (Spec.openThickness q n).
Proof.
  intros Hn. unfold thick_hole. rewrite dec_R, (getitem_nth _ _ 0 Hn).
  py_unfold. unfold Spec.openThickness, Spec.wallThickness, Spec.holeDiameter.
  py_eq.
Qed.

(** Conversely, a pass returns when the arithmetic is valid. *)
Lemma open_adj_R (q : Quena) (n : nat) (hp : list R) :
  length (holes_diams q) = holes_nb q ->
  (n < holes_nb q)%nat ->
  length hp = S n ->
  freq (vibrating q) <> 0 ->
  diam (pipe (vibrating q)) <> 0 ->
  Spec.openAdjDefined q n hp ->
  open_adj q n hp = Ok (Spec.openAdj q n hp).
Proof.
  intros Hlen Hn Hhp Hf HD Hdef. unfold open_adj.
  destruct n as [| m]; cbn [Spec.openAdjDefined] in Hdef.
  - destruct Hdef as [Hdist Hden].
    rewrite (getitem_nth (holes_diams q) 0 0) by lia.
    rewrite (getitem_nth hp 0 0) by lia.
    rewrite Quena_end_pos_R by assumption.
    rewrite thick_hole_R by lia.
    unfold Spec.holeDiameter, Spec.boreInnerDiameter in Hden.
    py_unfold. py_div. py_div.
    rewrite ndiv_R_ok.
    + cbn [try_except_ValueError]. unfold Spec.openAdj, Spec.holeDiameter,
        Spec.boreInnerDiameter. cbv zeta. do 2 f_equal. ring.
    + intros H0. apply Hden.
      match type of H0 with ?l = 0 => transitivity l; [ring | exact H0] end.
  - destruct Hdef as [Hd0 [Hdist Hrad]].
    rewrite (getitem_nth (holes_diams q) (S m) 0) by lia.
    rewrite (getitem_nth hp (S m) 0) by lia.
    rewrite (getitem_nth hp m 0) by lia.
    rewrite thick_hole_R by lia.
    unfold Spec.holeDiameter, Spec.boreInnerDiameter in Hd0, Hrad.
    py_unfold. py_div. py_div. py_div.
    rewrite nsqrt_R_ok.
    + cbn [bind try_except_ValueError]. unfold Spec.openAdj, Spec.holeDiameter,
        Spec.boreInnerDiameter. cbv zeta. do 4 f_equal. ring.
    + match goal with |- 0 <= ?x =>
        match type of Hrad with 0 <= ?y => replace x with y by ring end
      end.
      exact Hrad.
Qed.

Lemma next_pos_R (q : Quena) (n : nat) (hp : list R) :
  length (holes_diams q) = holes_nb q ->
  (n < holes_nb q)%nat ->
  length hp = S n ->
  freq (vibrating q) <> 0 ->
  diam (pipe (vibrating q)) <> 0 ->
  Spec.holeFrequency q n <> 0 ->
  Spec.openAdjDefined q n hp ->
  next_pos q n hp = Ok (Spec.nextPos q n hp).
Proof.
  intros Hlen Hn Hhp Hf HD Hfn Hdef. unfold next_pos, Spec.nextPos.
  rewrite open_adj_R by assumption. cbn [bind].
  unfold theoric_hole_pos. rewrite (getitem_nth (holes_freqs q) n 0) by exact Hn.
  unfold Spec.holeFrequency in Hfn.
  py_unfold. py_div. py_div.
  change (Spec.holeCount q) with (holes_nb q).
  assert (Ht : IZR SOUND_VEL / nth n (holes_freqs q) 0 / 2
               = Spec.theoreticalHolePos q n).
  { unfold Spec.theoreticalHolePos, Spec.holeFrequency, Spec.SOUND_VELOCITY, SOUND_VEL.
    norm_Z. field. assumption. }
  rewrite Ht.
  destruct (n <? holes_nb q - 1)%nat; [| reflexivity].
  rewrite cum_closed_adj_R by assumption. reflexivity.
Qed.

(** The test of the loop in exact arithmetic. *)
Lemma loop_test_R (cur prev : R) :
  gt_ (abs_ (Ok cur - Ok prev)) EPSILON
  = Ok (Rltb Spec.EPSILON (Rabs (cur - prev))).
Proof.
  unfold EPSILON. rewrite dec_R. py_unfold. unfold Spec.EPSILON.
  do 2 f_equal; norm_Z; lra.
Qed.

Lemma sentinel_enters_R : @sentinel_enters R _.
Proof.
  unfold sentinel_enters, int. rewrite loop_test_R. f_equal.
  apply Rltb_true_iff. unfold Spec.EPSILON. cbn [of_int PyNum_R].
  replace (0 - 1) with (- (1)) by lra. rewrite Rabs_Ropp, Rabs_R1. lra.
Qed.

Lemma sentinel_enters_float : @sentinel_enters float _.
Proof. vm_compute. reflexivity. Qed.

(* ================================================================== *)
(** ** C1: the fixed-point iteration *)

(** One turn of the [while] loop of hole [n], the list ending at position
    [n]: [old_pos] becomes the current estimate and the estimate becomes
    [next_pos]. *)
Lemma while_loop_unfold {F : Type} `{PyNum F} (fuel : nat) (q : Quena)
    (pre : list F) (cur old_pos : F) :
  while_loop (S fuel) q (length pre) (pre ++ [cur]) old_pos
  = (test <- gt_ (abs_ (Ok cur - Ok old_pos)) EPSILON ;;
     if test : bool
     then v <- next_pos q (length pre) (pre ++ [cur]) ;;
          while_loop fuel q (length pre) (pre ++ [v]) cur
     else Ok (pre ++ [cur]))%py.
Proof.
  cbn [while_loop]. rewrite loop_test_last.
  destruct (gt_ (abs_ (Ok cur - Ok old_pos)) EPSILON) as [[|] | e |];
    cbn [bind]; try reflexivity.
  rewrite getitem_last, while_body_next_pos. cbn [bind].
  destruct (next_pos q (length pre) (pre ++ [cur])); reflexivity.
Qed.

(** C1: [holes_pos] takes the holes in order from 0; for hole [n] it starts
    from the estimate 0 and [old_pos = 1], and while the test
    [abs(holes_pos[n] - old_pos) > EPSILON] holds it moves the estimate to
    [old_pos] and replaces it by [next_pos].  In exact arithmetic [next_pos]
    is the formula of the design document:
    SOUND_VELOCITY / (2 * holeFrequency n) - openAdj, minus
    closedAdjustmentSum (n+1) holeCount when [n] is not the last hole, with
    the two forms of [openAdj]; a pass returns that value whenever the
    arithmetic of [openAdj] is valid.  When [holes_pos] returns, it returns one
    position per hole, and each position is [next_pos] of a previous
    estimate from which it differs by at most EPSILON.
    The first part holds in every number system in which the sentinel makes
    the test true (it does in exact arithmetic and in binary64). *)
Theorem C1_fixed_point_iteration :
  (forall (F : Type) (N : PyNum F) (fuel : nat) (q : @Quena F) (ps : list F),
      sentinel_enters ->
      holes_pos fuel q = Ok ps ->
      length ps = holes_nb q
      /\ forall n : nat,
          (n < holes_nb q)%nat ->
          exists cur prev : F,
            nth_error ps n = Some cur
            /\ next_pos q n (firstn n ps ++ [prev]) = Ok cur
            /\ gt_ (abs_ (Ok cur - Ok prev)) EPSILON = Ok false)
  /\ (forall (F : Type) (N : PyNum F) (fuel : nat) (q : @Quena F)
        (ns : list nat) (n : nat) (pre : list F) (cur old_pos : F),
      for_loop fuel q (n :: ns) pre
      = (hp <- while_loop fuel q n (pre ++ [of_int 0]) (of_int 1) ;;
         for_loop fuel q ns hp)%py
      /\ while_loop (S fuel) q (length pre) (pre ++ [cur]) old_pos
         = (test <- gt_ (abs_ (Ok cur - Ok old_pos)) EPSILON ;;
            if test : bool
            then v <- next_pos q (length pre) (pre ++ [cur]) ;;
                 while_loop fuel q (length pre) (pre ++ [v]) cur
            else Ok (pre ++ [cur]))%py)
  /\ (forall (q : @Quena R) (n : nat) (pos : list R) (v : R),
      next_pos q n pos = Ok v -> v = Spec.nextPos q n pos)
  /\ (forall (q : @Quena R) (n : nat) (pos : list R),
      length (holes_diams q) = holes_nb q ->
      (n < holes_nb q)%nat ->
      length pos = S n ->
      freq (vibrating q) <> 0 ->
      diam (pipe (vibrating q)) <> 0 ->
      Spec.holeFrequency q n <> 0 ->
      Spec.openAdjDefined q n pos ->
      next_pos q n pos = Ok (Spec.nextPos q n pos))
  /\ (forall (fuel : nat) (q : @Quena R) (ps : list R),
      holes_pos fuel q = Ok ps ->
      length ps = Spec.holeCount q
      /\ forall n : nat,
          (n < Spec.holeCount q)%nat ->
          exists prev : R,
            nth n ps 0 = Spec.nextPos q n (firstn n ps ++ [prev])
            /\ Rabs (nth n ps 0 - prev) <= Spec.EPSILON).
Proof.
  split; [| split; [| split; [| split]]].
  - intros F N fuel q ps Hs Hps. apply (holes_pos_post q fuel ps Hs Hps).
  - intros F N fuel q ns n pre cur old_pos. split; [reflexivity |].
    apply while_loop_unfold.
  - apply next_pos_R_inv.
  - apply next_pos_R.
  - intros fuel q ps Hps.
    destruct (holes_pos_post q fuel ps sentinel_enters_R Hps) as [Hlen Hall].
    split; [exact Hlen |]. intros n Hn.
    destruct (Hall n Hn) as [cur [prev [Hc [Hnext Htest]]]].
    exists prev. rewrite (nth_error_nth _ _ 0 Hc).
    split; [now apply next_pos_R_inv |].
    rewrite loop_test_R in Htest. injection Htest as Htest.
    now apply Rltb_false_iff in Htest.
Qed.

Lemma quena_400_R_init :
  Quena_init water_pipe_R 362.67 [400] 9.5 (Some (Scalar 10)) None = Ok quena_400_R.
Proof.
  unfold Quena_init. rewrite QuenaBody_init_R. reflexivity.
Qed.

Lemma quena_400_R_end_position : 461 < Spec.endPosition quena_400_R < 462.
Proof.
  unfold Spec.endPosition, Spec.baseEndPosition, Spec.theoreticalLength,
    Spec.ringAdjustment, Spec.closedAdjustmentSum, Spec.closedAdjustment,
    Spec.holeCount, Spec.holeDiameter, Spec.wallThickness, Spec.boreInnerDiameter,
    Spec.SOUND_VELOCITY, quena_400_R, water_pipe_R, vibrating.
  cbn [body quena_super pipe freq diam thick ring holes_freqs holes_diams
       length Nat.sub seq map fold_right nth].
  lra.
Qed.

(** The seven-hole flute solved in binary64, and the first pass of the
    flute of [test_quena_emb_pos] in exact arithmetic. *)
Lemma C1_fixed_point_iteration_witness :
  (exists (q : @Quena float) (ps : list float),
      quena_G4_float = Ok q
      /\ ps = [376.79021438083538; 328.77229888148941; 308.83163987506828;
               275.07626220685813; 243.50966805604119; 215.72716972321638;
               196.37691316479075]%float
      /\ holes_pos 30 q = Ok ps
      /\ length ps = 7%nat
      /\ forall n : nat,
          (n < 7)%nat ->
          exists cur prev : float,
            nth_error ps n = Some cur
            /\ next_pos q n (firstn n ps ++ [prev]) = Ok cur
            /\ gt_ (abs_ (Ok cur - Ok prev)) EPSILON = Ok false)
  /\ next_pos quena_400_R 0 [0] = Ok (Spec.nextPos quena_400_R 0 [0]).
Proof.
  split.
  - let r := eval vm_compute in quena_G4_float in
    match r with Ok ?q => exists q end.
    eexists. split; [vm_compute; reflexivity |]. split; [reflexivity |].
    match goal with
    | |- holes_pos ?k ?q = Ok ?ps /\ _ =>
        assert (Hrun : holes_pos k q = Ok ps) by (vm_compute; reflexivity);
        split; [exact Hrun |];
        exact (proj1 C1_fixed_point_iteration float _ k q ps sentinel_enters_float Hrun)
    end.
  - pose proof quena_400_R_end_position as HE.
    apply (proj1 (proj2 (proj2 (proj2 C1_fixed_point_iteration)))).
    + reflexivity.
    + cbn. lia.
    + reflexivity.
    + cbn. lra.
    + cbn. lra.
    + cbn. lra.
    + cbn [Spec.openAdjDefined]. split; [cbn [nth]; lra |].
      assert (H1 : 0 <= (Spec.holeDiameter quena_400_R 0
                         / Spec.boreInnerDiameter quena_400_R) ^ 2)
        by apply pow2_ge_0.
      assert (H2 : 0 < Spec.openThickness quena_400_R 0
                       / (Spec.endPosition quena_400_R - nth 0 [0] 0)).
      { apply Rdiv_lt_0_compat; [| cbn [nth]; lra].
        unfold Spec.openThickness, Spec.wallThickness, Spec.holeDiameter,
          quena_400_R, water_pipe_R, vibrating.
        cbn [body quena_super pipe thick holes_diams nth]. lra. }
      lra.
Defined.

(* ================================================================== *)
(** ** The states the solver goes through, and its errors *)

Section Visited.
Context {F : Type} `{PyNum F}.
Variable self : @Quena F.

Lemma loop_test_getitem (hp : list F) (n : nat) (old_pos : F) (b : bool) :
  loop_test hp n old_pos = Ok b -> exists cur : F, getitem hp n = Ok cur.
Proof.
  unfold loop_test, gt_, abs_, lift2, lift1. intros Ht.
  destruct (getitem hp n) as [cur | e |]; cbn in Ht; try discriminate.
  now exists cur.
Qed.

Lemma while_loop_test_false (fuel : nat) (n : nat) (hp : list F) (old_pos : F) :
  loop_test hp n old_pos = Ok false ->
  while_loop fuel self n hp old_pos = Ok hp.
Proof. intros Ht. destruct fuel; cbn [while_loop]; rewrite Ht; reflexivity. Qed.

Lemma while_loop_test_true (fuel : nat) (n : nat) (hp : list F) (old_pos cur : F) :
  loop_test hp n old_pos = Ok true ->
  getitem hp n = Ok cur ->
  while_loop (S fuel) self n hp old_pos
  = (hp' <- while_body self n hp ;; while_loop fuel self n hp' cur)%py.
Proof. intros Ht Hg. cbn [while_loop]. rewrite Ht, Hg. reflexivity. Qed.

Lemma seq_cons (a b : nat) :
  (a < b)%nat -> seq a (b - a) = a :: seq (S a) (b - S a).
Proof.
  intros Hab. replace (b - a)%nat with (S (b - S a)) by lia. reflexivity.
Qed.

(** From a visited state on, [holes_pos] is the rest of the loop of the
    current hole followed by the loops of the later holes; [used] passes
    of the current loop have been made. *)
Lemma visited_resume (n : nat) (hp : list F) (old_pos : F) :
  visited self n hp old_pos ->
  (n < holes_nb self)%nat
  /\ exists used k : nat,
      (used <= k)%nat
      /\ forall fuel : nat,
          (k <= fuel)%nat ->
          holes_pos fuel self
          = (r <- while_loop (fuel - used) self n hp old_pos ;;
             for_loop fuel self (seq (S n) (holes_nb self - S n)) r)%py.
Proof.
  induction 1 as [Hnb | n hp hp' old_pos cur Hv [Hn [used [k [Hu IH]]]] Ht Hg Hb
                 | n hp old_pos Hv [Hn [used [k [Hu IH]]]] Ht Hlt].
  - split; [exact Hnb |]. exists 0%nat, 0%nat. split; [lia |].
    intros fuel _. unfold holes_pos, range.
    rewrite (seq_cons 0 (holes_nb self) Hnb), Nat.sub_0_r. reflexivity.
  - split; [exact Hn |]. exists (S used), (S k). split; [lia |].
    intros fuel Hf. rewrite IH by lia.
    replace (fuel - used)%nat with (S (fuel - S used)) by lia.
    rewrite (while_loop_test_true _ _ _ _ _ Ht Hg), Hb. reflexivity.
  - split; [exact Hlt |]. exists 0%nat, k. split; [lia |].
    intros fuel Hf. rewrite IH by lia.
    rewrite (while_loop_test_false _ _ _ _ Ht). cbn [bind].
    rewrite (seq_cons (S n) (holes_nb self) Hlt). rewrite Nat.sub_0_r.
    reflexivity.
Qed.

(** An exception raised by the body in a visited state whose test is true
    is the outcome of [holes_pos], given fuel to get there. *)
Lemma visited_raise (n : nat) (hp : list F) (old_pos : F) (e : exn) :
  visited self n hp old_pos ->
  loop_test hp n old_pos = Ok true ->
  while_body self n hp = Raise e ->
  exists k : nat, forall fuel : nat,
      (k <= fuel)%nat -> holes_pos fuel self = Raise e.
Proof.
  intros Hv Ht Hb.
  destruct (visited_resume n hp old_pos Hv) as [_ [used [k [Hu IH]]]].
  destruct (loop_test_getitem _ _ _ _ Ht) as [cur Hg].
  exists (S k). intros fuel Hf. rewrite IH by lia.
  replace (fuel - used)%nat with (S (fuel - S used)) by lia.
  rewrite (while_loop_test_true _ _ _ _ _ Ht Hg), Hb. reflexivity.
Qed.

Lemma while_body_open_adj_raise (n : nat) (hp : list F) (e : exn) :
  open_adj self n hp = Raise e -> while_body self n hp = Raise e.
Proof. intros Ho. unfold while_body. rewrite Ho. reflexivity. Qed.

(** The [except] clause: a [ValueError] of the correction of hole [n]
    names hole [n]. *)
Lemma open_adj_ValueError (n : nat) (hp : list F) (m : message) :
  open_adj self n hp = Raise (ValueError m) -> m = OpenHoleFailed n.
Proof.
  unfold open_adj, try_except_ValueError.
  match goal with |- match ?c with _ => _ end = _ -> _ => destruct c as [a | [| m' | |] |] end;
    congruence.
Qed.
End Visited.

(* ================================================================== *)
(** ** C4: what the solver does when the arithmetic of a correction fails *)

(** A [ValueError] of [math.sqrt] in the correction of a hole other than the
    first becomes the [ValueError] that names the hole. *)
Lemma open_adj_sqrt_raise {F : Type} `{PyNum F} (q : Quena) (m : nat)
    (hp : list F) (x : F) (mm : message) :
  (forall d : F, exists h : F, ndiv d (of_int 2) = Ok h) ->
  radicand q (S m) hp = Ok x ->
  nsqrt x = Raise (ValueError mm) ->
  open_adj q (S m) hp = Raise (ValueError (OpenHoleFailed (S m))).
Proof.
  intros Hhalf Hx Hs. unfold radicand, hole_dist in Hx. unfold open_adj.
  apply bind_Ok_inv in Hx as [ratio [Hr Hx]]. rewrite Hr. cbn [bind].
  apply bind_Ok_inv in Hx as [dist [Hd Hx]]. rewrite Hd. cbn [bind].
  unfold value in *. destruct (Hhalf dist) as [h Hh].
  unfold lift2 at 1. unfold lift2 at 1. unfold int at 1. cbn [bind].
  rewrite Hh. cbn [bind]. unfold lift2 at 1. unfold sqrt_.
  rewrite Hx. unfold lift1. cbn [bind]. rewrite Hs. reflexivity.
Qed.

(** The argument of the square root in exact arithmetic. *)
Lemma radicand_R_inv (q : Quena) (m : nat) (hp : list R) (x : R) :
  radicand q (S m) hp = Ok x ->
  x = 1 + 4 * (Spec.openThickness q (S m) / (nth m hp 0 - nth (S m) hp 0))
          * (Spec.boreInnerDiameter q / Spec.holeDiameter q (S m)) ^ 2.
Proof.
  unfold radicand, hole_dist. intros Hx. py_unfold_in Hx. inv_ok. inv_spec. subst.
  unfold Spec.boreInnerDiameter, Spec.holeDiameter. ring.
Qed.

Lemma radicand_R (q : Quena) (m : nat) (hp : list R) :
  (S m < length (holes_diams q))%nat ->
  (S m < length hp)%nat ->
  Spec.holeDiameter q (S m) <> 0 ->
  nth m hp 0 - nth (S m) hp 0 <> 0 ->
  radicand q (S m) hp
  = Ok (1 + 4 * (Spec.openThickness q (S m) / (nth m hp 0 - nth (S m) hp 0))
          * (Spec.boreInnerDiameter q / Spec.holeDiameter q (S m)) ^ 2).
Proof.
  intros Hd Hp Hd0 Hdist. unfold radicand, hole_dist.
  rewrite (getitem_nth (holes_diams q) (S m) 0 Hd).
  rewrite (getitem_nth hp (S m) 0 Hp).
  rewrite (getitem_nth hp m 0) by lia.
  rewrite (thick_hole_R q (S m) Hd).
  unfold Spec.holeDiameter in Hd0.
  py_unfold. py_div. py_div.
  unfold Spec.boreInnerDiameter, Spec.holeDiameter. f_equal. ring.
Qed.

(** Replaying the solver in binary64 from a visited state [Hv], for at most
    [k] steps, up to the first pass that raises or to the end. *)
Ltac replay k q Hv :=
  lazymatch k with
  | O => idtac
  | S ?k' =>
  lazymatch type of Hv with
  | visited _ ?n ?hp ?old =>
      let t := eval vm_compute in (loop_test hp n old) in
      lazymatch t with
      | Ok true =>
          let b := eval vm_compute in (while_body q n hp) in
          lazymatch b with
          | Ok ?hp' =>
              let c := eval vm_compute in (getitem hp n) in
              lazymatch c with
              | Ok ?cur =>
                  let Hv' := fresh "Hv" in
                  let Ht := fresh "Ht" in
                  let Hg := fresh "Hg" in
                  let Hb := fresh "Hb" in
                  assert (Ht : loop_test hp n old = Ok true)
                    by (vm_compute; reflexivity);
                  assert (Hg : getitem hp n = Ok cur)
                    by (vm_compute; reflexivity);
                  assert (Hb : while_body q n hp = Ok hp')
                    by (vm_compute; reflexivity);
                  pose proof (visited_pass q n hp hp' old cur Hv Ht Hg Hb) as Hv';
                  clear Hv Ht Hg Hb; replay k' q Hv'
              end
          | _ => idtac
          end
      | Ok false =>
          let more := eval vm_compute in (Nat.ltb (S n) (holes_nb q)) in
          lazymatch more with
          | true =>
              let hp' := eval vm_compute in (hp ++ [of_int 0]) in
              let one := eval vm_compute in (@of_int float _ 1) in
              let Hv' := fresh "Hv" in
              let Ht := fresh "Ht" in
              let Hn := fresh "Hn" in
              assert (Ht : loop_test hp n old = Ok false)
                by (vm_compute; reflexivity);
              assert (Hn : (S n < holes_nb q)%nat)
                by (apply Nat.ltb_lt; vm_compute; reflexivity);
              assert (Hv' : visited q (S n) hp' one)
                by exact (visited_next q n hp old Hv Ht Hn);
              clear Hv Ht Hn; replay k' q Hv'
          | false => idtac
          end
      end
  end
  end.

(** The first state of a flute given by its construction, then [k] steps. *)
Ltac replay_from k c :=
  let r := eval vm_compute in c in
  lazymatch r with
  | Ok ?q =>
      exists q;
      let Hn := fresh "Hn" in
      let Hv := fresh "Hv" in
      assert (Hn : (0 < holes_nb q)%nat)
        by (apply Nat.ltb_lt; vm_compute; reflexivity);
      assert (Hv : visited q 0 [0%float] 1%float) by exact (visited_first q Hn);
      clear Hn; replay k q Hv
  end.

(** C4, as stated, fails for the distance.  In binary64:
    - the flute [low_hole_float] (target 400 Hz, one hole at 300 Hz): after
      the first pass the estimate of the hole lies beyond the end position,
      the next pass computes a negative [dist], the correction returns a
      value all the same, and the solver returns a position;
    - the flute [zero_end_float]: the first pass computes [dist == 0] and the
      solver raises [ZeroDivisionError], which names no hole. *)
Lemma C4_nonpositive_distance_counterexample :
  (exists q : @Quena float,
      low_hole_float = Ok q
      /\ end_pos q = Ok 416.741975308642%float
      /\ visited q 0 [542.16782539828955%float] 0%float
      /\ loop_test [542.16782539828955%float] 0 0%float = Ok true
      /\ hole_dist q 0 [542.16782539828955%float] = Ok (-125.42585008964755)%float
      /\ PrimFloat.ltb (-125.42585008964755) 0 = true
      /\ open_adj q 0 [542.16782539828955%float] = Ok 49.787102229713767%float
      /\ holes_pos 30 q = Ok [520.79255891192224%float])
  /\ (exists q : @Quena float,
      zero_end_float = Ok q
      /\ end_pos q = Ok 0%float
      /\ visited q 0 [0%float] 1%float
      /\ loop_test [0%float] 0 1%float = Ok true
      /\ hole_dist q 0 [0%float] = Ok 0%float
      /\ open_adj q 0 [0%float] = Raise ZeroDivisionError
      /\ holes_pos 30 q = Raise ZeroDivisionError).
Proof.
  split.
  - replay_from 1%nat low_hole_float.
    split; [vm_compute; reflexivity |].
    split; [vm_compute; reflexivity |].
    split; [assumption |].
    repeat split; vm_compute; reflexivity.
  - replay_from 0%nat zero_end_float.
    split; [vm_compute; reflexivity |].
    split; [vm_compute; reflexivity |].
    split; [assumption |].
    repeat split; vm_compute; reflexivity.
Qed.

(** C4, amended: when the argument of the square root in the correction of
    a hole [n >= 1] is negative in a state the solver reaches, [holes_pos]
    raises the [ValueError] that names hole [n], whatever fuel beyond what it
    takes to get there; a [ValueError] of a correction always names its hole;
    and a correction that returns a value returns the value of the formula,
    never a clamped one.  (The distance itself is not tested: a negative one
    is used as it is.)
    The first part is for every number system in which halving cannot fail;
    [math.sqrt] raises on the negative numbers in exact arithmetic and in
    binary64, and in exact arithmetic the argument of the square root is
    1 + 4 * (openThickness n / dist) * ratio^2. *)
Theorem C4_negative_radicand_error :
  (forall (F : Type) (N : PyNum F) (q : @Quena F) (m : nat) (hp : list F)
          (old_pos x : F) (mm : message),
      (forall d : F, exists h : F, ndiv d (of_int 2) = Ok h) ->
      visited q (S m) hp old_pos ->
      loop_test hp (S m) old_pos = Ok true ->
      radicand q (S m) hp = Ok x ->
      nsqrt x = Raise (ValueError mm) ->
      exists k : nat, forall fuel : nat,
          (k <= fuel)%nat ->
          holes_pos fuel q = Raise (ValueError (OpenHoleFailed (S m))))
  /\ (forall x : R, x < 0 -> nsqrt x = Raise (ValueError MathDomain))
  /\ (forall x : float,
      PrimFloat.ltb x 0 = true -> nsqrt x = Raise (ValueError MathDomain))
  /\ (forall (q : @Quena R) (m : nat) (hp : list R) (x : R),
      radicand q (S m) hp = Ok x ->
      x = 1 + 4 * (Spec.openThickness q (S m) / (nth m hp 0 - nth (S m) hp 0))
              * (Spec.boreInnerDiameter q / Spec.holeDiameter q (S m)) ^ 2)
  /\ (forall (q : @Quena R) (m : nat) (hp : list R),
      (S m < length (holes_diams q))%nat ->
      (S m < length hp)%nat ->
      1 + 4 * (Spec.openThickness q (S m) / (nth m hp 0 - nth (S m) hp 0))
            * (Spec.boreInnerDiameter q / Spec.holeDiameter q (S m)) ^ 2 < 0 ->
      open_adj q (S m) hp = Raise (ValueError (OpenHoleFailed (S m))))
  /\ (forall (F : Type) (N : PyNum F) (q : @Quena F) (n : nat) (hp : list F)
        (mm : message),
      open_adj q n hp = Raise (ValueError mm) -> mm = OpenHoleFailed n)
  /\ (forall (q : @Quena R) (n : nat) (hp : list R) (oa : R),
      open_adj q n hp = Ok oa -> oa = Spec.openAdj q n hp).
Proof.
  split; [| split; [| split; [| split; [| split; [| split]]]]].
  - intros F N q m hp old_pos x mm Hhalf Hv Ht Hx Hs.
    apply (visited_raise q (S m) hp old_pos _ Hv Ht).
    apply while_body_open_adj_raise.
    exact (open_adj_sqrt_raise q m hp x mm Hhalf Hx Hs).
  - apply nsqrt_R_neg.
  - intros x Hx. cbn. unfold float_sqrt. change PrimFloat.zero with 0%float.
    rewrite Hx. reflexivity.
  - apply radicand_R_inv.
  - intros q m hp Hd Hp Hneg.
    assert (Hd0 : Spec.holeDiameter q (S m) <> 0).
    { intros H0. rewrite H0 in Hneg. unfold Rdiv at 2 in Hneg.
      rewrite Rinv_0 in Hneg. nra. }
    assert (Hdist : nth m hp 0 - nth (S m) hp 0 <> 0).
    { intros H0. rewrite H0 in Hneg. unfold Rdiv at 1 in Hneg.
      rewrite Rinv_0 in Hneg. nra. }
    eapply (open_adj_sqrt_raise q m hp _ MathDomain).
    + intros d. exists (d / 2). apply ndiv_R_ok. cbn. lra.
    + apply radicand_R; assumption.
    + apply nsqrt_R_neg. exact Hneg.
  - intros F N q n hp mm. apply open_adj_ValueError.
  - apply open_adj_R_inv.
Qed.

(** The flute of [test_impossible_quena] in binary64: at its third hole the
    argument of the square root is negative and the solver raises. *)
Lemma C4_negative_radicand_error_witness :
  exists q : @Quena float,
    impossible_float = Ok q
    /\ visited q 2
         [320.91832358015336; 182.96386868424329; 196.55576442906897]%float
         177.31047200339265%float
    /\ loop_test [320.91832358015336; 182.96386868424329; 196.55576442906897]%float
         2 177.31047200339265%float = Ok true
    /\ radicand q 2
         [320.91832358015336; 182.96386868424329; 196.55576442906897]%float
       = Ok (-37.736318309418628)%float
    /\ PrimFloat.ltb (-37.736318309418628) 0 = true
    /\ holes_pos 30 q = Raise (ValueError (OpenHoleFailed 2))
    /\ exists k : nat, forall fuel : nat,
        (k <= fuel)%nat ->
        holes_pos fuel q = Raise (ValueError (OpenHoleFailed 2)).
Proof.
  replay_from 1000%nat impossible_float.
  split; [vm_compute; reflexivity |].
  split; [assumption |].
  match goal with
  | |- ?T /\ ?X /\ ?L /\ ?H /\ _ =>
      assert (Ht : T) by (vm_compute; reflexivity);
      assert (Hx : X) by (vm_compute; reflexivity);
      assert (Hl : L) by (vm_compute; reflexivity);
      assert (Hh : H) by (vm_compute; reflexivity)
  end.
  repeat (split; [assumption |]).
  eapply (proj1 C4_negative_radicand_error float _ _ 1%nat _ _ _ MathDomain).
  - intros d. exists (d / 2)%float. reflexivity.
  - match goal with Hv : visited _ _ _ _ |- _ => exact Hv end.
  - exact Ht.
  - exact Hx.
  - apply (proj1 (proj2 (proj2 C4_negative_radicand_error))). exact Hl.
Defined.

(* ================================================================== *)
(** * Further properties of the code *)

(* ================================================================== *)
(** ** The embouchure location of the three instruments *)

Lemma closedAdjustment_nonneg (q : Quena) (n : nat) :
  0 <= Spec.wallThickness q -> 0 <= Spec.closedAdjustment q n.
Proof.
  intros HT. unfold Spec.closedAdjustment.
  apply Rmult_le_pos; [lra | apply pow2_ge_0].
Qed.

Lemma closedAdjustmentSum_nonneg (q : Quena) (a b : nat) :
  0 <= Spec.wallThickness q -> 0 <= Spec.closedAdjustmentSum q a b.
Proof.
  intros HT. unfold Spec.closedAdjustmentSum.
  induction (seq a (b - a)) as [| n t IH]; cbn; [lra |].
  pose proof (closedAdjustment_nonneg q n HT). lra.
Qed.

Lemma Quena_init_fields (p : Pipe) (f : R) (hf : list R) (s : R)
    (hd : option diams_arg) (rg : option bool) (q : Quena) :
  Quena_init p f hf s hd rg = Ok q ->
  pipe (vibrating q) = p /\ freq (vibrating q) = f
  /\ emb_diam (vibrating q) = s * lips_k
  /\ length (holes_diams q) = holes_nb q.
Proof.
  intros Hq. pose proof (Quena_init_lengths _ _ _ _ _ _ _ Hq) as Hlen.
  apply Quena_init_body in Hq. unfold vibrating. rewrite Hq. cbn. auto.
Qed.

(** [emb_loc] on a [Quena] calls the [end_pos] of [Quena] and the [emb_adj]
    of [QuenaBody]. *)
Lemma Quena_emb_loc_R (p : Pipe) (f : R) (hf : list R) (s : R)
    (hd : option diams_arg) (rg : option bool) (q : Quena) :
  Quena_init p f hf s hd rg = Ok q ->
  f <> 0 -> diam p <> 0 -> s <> 0 ->
  emb_loc q
  = Ok (IZR SOUND_VEL / f / 2 - 0.8 * diam p
        - (diam p / (s * lips_k)) ^ 2
          * (diam p / 2 + thick p + 0.307 * (s * lips_k)) * (1 - 0.15)
        - (if ring q then 23.58 else 0)
        - Spec.closedAdjustmentSum q 0 (holes_nb q)).
Proof.
  intros Hq Hf HD Hs. pose proof lips_k_pos as Hk.
  destruct (Quena_init_fields _ _ _ _ _ _ _ Hq) as [Hp [Hfq [He Hlen]]].
  assert (Hne : s * lips_k <> 0)
    by (apply Rmult_integral_contrapositive_currified; lra).
  unfold emb_loc. cbn [end_pos emb_adj Quena_Instrument].
  rewrite Quena_end_pos_R by (rewrite ?Hp, ?Hfq; assumption).
  apply Quena_init_body in Hq.
  rewrite QuenaBody_emb_adj_R by (rewrite Hq; cbn; assumption).
  rewrite Hq. cbn [quena_super pipe emb_diam freq bind lift2 total2 nsub PyNum_R].
  unfold Spec.endPosition, Spec.baseEndPosition, Spec.theoreticalLength,
    Spec.ringAdjustment, Spec.boreInnerDiameter, Spec.SOUND_VELOCITY, SOUND_VEL,
    Spec.holeCount, holes_nb, vibrating.
  rewrite Hq. cbn [quena_super pipe freq]. norm_Z. unfold total2. f_equal.
  field. repeat split; first [assumption | lra].
Qed.

(** The embouchure location of a [Quena] is that of its [QuenaBody] (same
    pipe, frequency and embouchure) less the ring adjustment and the closed
    adjustments of all its holes. *)
Theorem Quena_emb_loc_decomposition (p : Pipe) (f : R) (hf : list R) (s : R)
    (hd : option diams_arg) (rg : option bool) (q : Quena) :
  Quena_init p f hf s hd rg = Ok q ->
  f <> 0 -> diam p <> 0 -> s <> 0 ->
  exists base : R,
    (b <- QuenaBody_init p f s ;; emb_loc b)%py = Ok base
    /\ emb_loc q
       = Ok (base - (if ring q then 23.58 else 0)
             - Spec.closedAdjustmentSum q 0 (holes_nb q)).
Proof.
  intros Hq Hf HD Hs. pose proof lips_k_pos as Hk.
  assert (Hne : s * lips_k <> 0)
    by (apply Rmult_integral_contrapositive_currified; lra).
  rewrite QuenaBody_init_R. cbn [bind].
  rewrite QuenaBody_emb_loc_R by (cbn; assumption).
  cbn [quena_super pipe emb_diam freq].
  eexists. split; [reflexivity |].
  exact (Quena_emb_loc_R p f hf s hd rg q Hq Hf HD Hs).
Qed.

(** At the flute of [test_quena_ringed_emb_pos]'s shape: two holes, a ring. *)
Lemma Quena_emb_loc_decomposition_witness :
  exists (q : Quena) (base : R),
    Quena_init water_pipe_R 392 [440; 493.88] 9.5 (Some (Sequence [10; 12]))
      (Some true) = Ok q
    /\ (b <- QuenaBody_init water_pipe_R 392 9.5 ;; emb_loc b)%py = Ok base
    /\ emb_loc q = Ok (base - 23.58 - Spec.closedAdjustmentSum q 0 2).
Proof.
  assert (Hq : Quena_init water_pipe_R 392 [440; 493.88] 9.5
                 (Some (Sequence [10; 12])) (Some true)
               = Ok (mkQuena (mkQuenaBody (mkVibratingPipe water_pipe_R (9.5 * lips_k) 392))
                       true [440; 493.88] [10; 12])).
  { unfold Quena_init. rewrite QuenaBody_init_R.
    cbn [iterable as_sequence].
    cbn [length Nat.eqb negb bind sorted fold_right insert combine].
    unfold tuple_ltb. cbn [fst snd neqb nltb PyNum_R insert].
    decide_R. reflexivity. }
  destruct (Quena_emb_loc_decomposition _ _ _ _ _ _ _ Hq) as [base [Hb Hl]];
    [lra | cbn; lra | lra |].
  eexists. exists base. split; [exact Hq |]. split; [exact Hb |]. exact Hl.
Defined.

(** With a wall thickness that is not negative, the ring and the holes only
    shorten the flute: the end position of a [Quena] is at most that of the
    same pipe without holes, and at most that less 23.58 with a ring. *)
Theorem Quena_end_pos_le_base (p : Pipe) (f : R) (hf : list R) (s : R)
    (hd : option diams_arg) (rg : option bool) (q : Quena) :
  Quena_init p f hf s hd rg = Ok q ->
  f <> 0 -> diam p <> 0 -> 0 <= thick p ->
  exists E Eb : R,
    end_pos q = Ok E
    /\ VibratingPipe_end_pos (vibrating q) = Ok Eb
    /\ E <= Eb
    /\ (ring q = true -> E <= Eb - 23.58).
Proof.
  intros Hq Hf HD HT.
  destruct (Quena_init_fields _ _ _ _ _ _ _ Hq) as [Hp [Hfq [He Hlen]]].
  cbn [end_pos Quena_Instrument].
  rewrite Quena_end_pos_R by (rewrite ?Hp, ?Hfq; assumption).
  rewrite VibratingPipe_end_pos_R by (rewrite Hfq; assumption).
  do 2 eexists. split; [reflexivity |]. split; [reflexivity |].
  assert (Hs : 0 <= Spec.closedAdjustmentSum q 0 (Spec.holeCount q)).
  { apply closedAdjustmentSum_nonneg. unfold Spec.wallThickness. now rewrite Hp. }
  unfold Spec.endPosition, Spec.baseEndPosition, Spec.theoreticalLength,
    Spec.ringAdjustment, Spec.boreInnerDiameter, Spec.SOUND_VELOCITY, SOUND_VEL.
  norm_Z.
  replace (345000 / (2 * freq (vibrating q))) with (345000 / freq (vibrating q) / 2)
    by (field; rewrite Hfq; assumption).
  split.
  - destruct (ring q); lra.
  - intros ->. lra.
Qed.

Lemma Quena_end_pos_le_base_witness :
  exists E Eb : R,
    end_pos quena_400_R = Ok E
    /\ VibratingPipe_end_pos (vibrating quena_400_R) = Ok Eb
    /\ E <= Eb
    /\ (ring quena_400_R = true -> E <= Eb - 23.58).
Proof.
  apply (Quena_end_pos_le_base water_pipe_R 362.67 [400] 9.5
           (Some (Scalar 10)) None quena_400_R).
  - apply quena_400_R_init.
  - lra.
  - cbn. lra.
  - cbn. lra.
Defined.

(** A [ClarinetBody] has the embouchure as wide as the bore, so its
    embouchure correction does not depend on the frequency: the embouchure
    location is SOUND_VEL / (2 * freq) - 1.607 * diam - thick.  A zero
    frequency or a zero diameter divides by zero. *)
Theorem ClarinetBody_emb_loc_closed_form (p : Pipe) (f : R) :
  (f <> 0 -> diam p <> 0 ->
   (c <- ClarinetBody_init p f ;; emb_loc c)%py
   = Ok (345000 / (2 * f) - 1.607 * diam p - thick p))
  /\ (f = 0 -> (c <- ClarinetBody_init p f ;; emb_loc c)%py = Raise ZeroDivisionError)
  /\ (f <> 0 -> diam p = 0 ->
      (c <- ClarinetBody_init p f ;; emb_loc c)%py = Raise ZeroDivisionError).
Proof.
  split; [| split].
  - intros Hf HD. rewrite ClarinetBody_emb_loc_R by assumption.
    unfold SOUND_VEL. norm_Z. apply f_equal.
    replace (diam p / diam p) with 1 by (field; assumption).
    replace (345000 / f / 2) with (345000 / (2 * f)) by (field; assumption).
    lra.
  - intros ->. unfold ClarinetBody_init, emb_loc. cbn [bind].
    cbn [end_pos ClarinetBody_Instrument clarinet_super].
    unfold VibratingPipe_end_pos. rewrite theoric_length_R_zero by reflexivity.
    reflexivity.
  - intros Hf HD. unfold ClarinetBody_init, emb_loc. cbn [bind].
    cbn [end_pos emb_adj ClarinetBody_Instrument clarinet_super].
    rewrite VibratingPipe_end_pos_R by assumption.
    rewrite VibratingPipe_emb_adj_R_zero by assumption. reflexivity.
Qed.

Lemma ClarinetBody_emb_loc_closed_form_witness :
  (c <- ClarinetBody_init water_pipe_R 392 ;; emb_loc c)%py
  = Ok (345000 / (2 * 392) - 1.607 * 18 - 3.5)
  /\ (c <- ClarinetBody_init water_pipe_R 0 ;; emb_loc c)%py = Raise ZeroDivisionError
  /\ (c <- ClarinetBody_init (mkPipe 0 3.5) 392 ;; emb_loc c)%py
     = Raise ZeroDivisionError.
Proof.
  split; [| split].
  - apply (proj1 (ClarinetBody_emb_loc_closed_form water_pipe_R 392)); cbn; lra.
  - apply (proj1 (proj2 (ClarinetBody_emb_loc_closed_form water_pipe_R 0))).
    reflexivity.
  - apply (proj2 (proj2 (ClarinetBody_emb_loc_closed_form (mkPipe 0 3.5) 392)));
      [lra | reflexivity].
Defined.

(** Raising the target frequency of a [Quena], all else equal, moves the
    embouchure location down by the difference of the theoric lengths, and
    by nothing else: holes, ring and embouchure correction do not depend on
    the target frequency. *)
Theorem Quena_emb_loc_frequency (p : Pipe) (f1 f2 : R) (hf : list R) (s : R)
    (hd : option diams_arg) (rg : option bool) (q1 q2 : Quena) :
  Quena_init p f1 hf s hd rg = Ok q1 ->
  Quena_init p f2 hf s hd rg = Ok q2 ->
  0 < f1 -> f1 < f2 -> diam p <> 0 -> s <> 0 ->
  exists l1 l2 : R,
    emb_loc q1 = Ok l1 /\ emb_loc q2 = Ok l2
    /\ l1 - l2 = 345000 / (2 * f1) - 345000 / (2 * f2)
    /\ l2 < l1.
Proof.
  intros Hq1 Hq2 Hf1 Hf12 HD Hs.
  destruct (Quena_init_fields _ _ _ _ _ _ _ Hq1) as [Hp1 _].
  destruct (Quena_init_fields _ _ _ _ _ _ _ Hq2) as [Hp2 _].
  rewrite (Quena_emb_loc_R _ _ _ _ _ _ _ Hq1) by (try assumption; lra).
  rewrite (Quena_emb_loc_R _ _ _ _ _ _ _ Hq2) by (try assumption; lra).
  apply Quena_init_inv in Hq1 as [_ [Hr1 [Hf1' Hd1]]].
  apply Quena_init_inv in Hq2 as [_ [Hr2 [Hf2' Hd2]]].
  assert (Hhd : holes_diams q1 = holes_diams q2).
  { destruct hd as [[d | l] |].
    - now rewrite Hd1, Hd2.
    - destruct Hd1 as [_ ->]. destruct Hd2 as [_ ->]. reflexivity.
    - now rewrite Hd1, Hd2. }
  assert (HS : Spec.closedAdjustmentSum q2 0 (holes_nb q2)
               = Spec.closedAdjustmentSum q1 0 (holes_nb q1)).
  { unfold Spec.closedAdjustmentSum, holes_nb. rewrite Hf1', Hf2'.
    apply f_equal, map_ext. intros n.
    unfold Spec.closedAdjustment, Spec.holeDiameter, Spec.wallThickness,
      Spec.boreInnerDiameter.
    rewrite Hhd, Hp1, Hp2.
    reflexivity. }
  rewrite HS, Hr1, Hr2. do 2 eexists.
  split; [reflexivity |]. split; [reflexivity |].
  assert (Hinv : / f2 < / f1) by (apply Rinv_lt_contravar; nra).
  unfold SOUND_VEL. norm_Z. unfold Rdiv. rewrite !Rinv_mult.
  split; lra.
Qed.

Lemma Quena_emb_loc_frequency_witness :
  exists (q1 q2 : Quena) (l1 l2 : R),
    Quena_init water_pipe_R 362.67 [400] 9.5 (Some (Scalar 10)) None = Ok q1
    /\ Quena_init water_pipe_R 392 [400] 9.5 (Some (Scalar 10)) None = Ok q2
    /\ emb_loc q1 = Ok l1 /\ emb_loc q2 = Ok l2
    /\ l1 - l2 = 345000 / (2 * 362.67) - 345000 / (2 * 392)
    /\ l2 < l1.
Proof.
  assert (Hq2 : Quena_init water_pipe_R 392 [400] 9.5 (Some (Scalar 10)) None
                = Ok (mkQuena (mkQuenaBody (mkVibratingPipe water_pipe_R (9.5 * lips_k) 392))
                        false [400] [10])).
  { unfold Quena_init. rewrite QuenaBody_init_R. reflexivity. }
  destruct (Quena_emb_loc_frequency _ _ _ _ _ _ _ _ _ quena_400_R_init Hq2)
    as [l1 [l2 H]]; [lra | lra | cbn; lra | lra |].
  do 2 eexists. exists l1, l2. split; [exact quena_400_R_init |].
  split; [exact Hq2 |]. exact H.
Defined.

(* ================================================================== *)
(** ** [cum_closed_adj]: bounds and composition *)

Lemma closedAdjustmentSum_split (q : Quena) (a b c : nat) :
  (a <= b)%nat -> (b <= c)%nat ->
  Spec.closedAdjustmentSum q a c
  = Spec.closedAdjustmentSum q a b + Spec.closedAdjustmentSum q b c.
Proof.
  intros Hab Hbc. unfold Spec.closedAdjustmentSum.
  replace (c - a)%nat with ((b - a) + (c - b))%nat by lia.
  rewrite seq_app, map_app, fold_right_app.
  replace (a + (b - a))%nat with b by lia.
  generalize (fold_right Rplus 0 (map (Spec.closedAdjustment q) (seq b (c - b)))).
  intros r. induction (map (Spec.closedAdjustment q) (seq a (b - a))) as [| x t IH];
    cbn; [lra | rewrite IH; lra].
Qed.

Lemma cum_closed_adj_R_upto (q : Quena) (a b : nat) :
  (0 < b)%nat -> (b <= length (holes_diams q))%nat ->
  diam (pipe (vibrating q)) <> 0 ->
  cum_closed_adj q a (Some b) = Ok (Spec.closedAdjustmentSum q a b).
Proof.
  intros Hb Hlen Hd. unfold cum_closed_adj, Spec.closedAdjustmentSum, range.
  destruct b as [| b']; [lia |].
  rewrite closed_adj_comprehension; [| | exact Hd].
  - cbn [bind]. rewrite sum_R. reflexivity.
  - apply Forall_forall. intros n Hn. apply in_seq in Hn. lia.
Qed.

(** The closed adjustments add up over adjacent ranges of holes: the sum
    from [a] to the end is the sum from [a] up to [b] plus the sum from [b]
    to the end. *)
Theorem cum_closed_adj_split (q : Quena) (a b : nat) :
  length (holes_diams q) = holes_nb q ->
  diam (pipe (vibrating q)) <> 0 ->
  (a <= b)%nat -> (0 < b)%nat -> (b <= holes_nb q)%nat ->
  exists x y z : R,
    cum_closed_adj q a (Some b) = Ok x
    /\ cum_closed_adj q b None = Ok y
    /\ cum_closed_adj q a None = Ok z
    /\ z = x + y.
Proof.
  intros Hlen Hd Hab Hb Hbn.
  rewrite (cum_closed_adj_R_upto q a b) by (try assumption; lia).
  rewrite !cum_closed_adj_R by assumption.
  do 3 eexists. repeat (split; [reflexivity |]).
  apply closedAdjustmentSum_split; assumption.
Qed.

Lemma cum_closed_adj_split_witness :
  exists x y z : R,
    cum_closed_adj three_holes_R 0 (Some 1%nat) = Ok x
    /\ cum_closed_adj three_holes_R 1 None = Ok y
    /\ cum_closed_adj three_holes_R 0 None = Ok z
    /\ z = x + y.
Proof.
  apply cum_closed_adj_split.
  - reflexivity.
  - cbn. lra.
  - lia.
  - lia.
  - cbn. lia.
Defined.

(** The bounds of [cum_closed_adj], in every number system: an upper bound 0
    is read as "to the last hole" ([b or self.holes_nb]); an empty range
    gives the integer 0 without looking at a diameter or dividing.  In exact
    arithmetic an upper bound beyond the last hole raises [IndexError]. *)
Theorem cum_closed_adj_bounds :
  (forall (F : Type) (N : PyNum F) (q : @Quena F) (a b : nat),
      cum_closed_adj q a (Some 0%nat) = cum_closed_adj q a None
      /\ ((holes_nb q <= a)%nat -> cum_closed_adj q a None = Ok (of_int 0))
      /\ ((0 < b)%nat -> (b <= a)%nat ->
          cum_closed_adj q a (Some b) = Ok (of_int 0)))
  /\ (forall (q : @Quena R) (a b : nat),
      diam (pipe (vibrating q)) <> 0 ->
      (a <= length (holes_diams q))%nat ->
      (length (holes_diams q) < b)%nat ->
      cum_closed_adj q a (Some b) = Raise IndexError).
Proof.
  split.
  - intros F N q a b. split; [reflexivity |]. split.
    + intros Ha. unfold cum_closed_adj, range.
      replace (holes_nb q - a)%nat with 0%nat by lia. reflexivity.
    + intros Hb Hba. unfold cum_closed_adj, range.
      destruct b as [| b']; [lia |].
      replace (S b' - a)%nat with 0%nat by lia. reflexivity.
  - intros q a b Hd Ha Hb. unfold cum_closed_adj, range.
    destruct b as [| b']; [lia |].
    replace (S b' - a)%nat
      with ((length (holes_diams q) - a) + S (b' - length (holes_diams q)))%nat
      by lia.
    rewrite seq_app. replace (a + (length (holes_diams q) - a))%nat
      with (length (holes_diams q)) by lia.
    assert (Hpre : forall l1 l2,
               Forall (fun n => (n < length (holes_diams q))%nat) l1 ->
               comprehension (closed_adj q) l2 = Raise IndexError ->
               comprehension (closed_adj q) (l1 ++ l2) = Raise IndexError).
    { intros l1 l2 Hl1 Hl2. induction Hl1 as [| n t Hn Ht IH]; [exact Hl2 |].
      cbn. rewrite closed_adj_R by assumption. cbn [bind]. rewrite IH.
      reflexivity. }
    rewrite Hpre; [reflexivity | |].
    + apply Forall_forall. intros n Hn. apply in_seq in Hn. lia.
    + cbn [seq comprehension]. unfold closed_adj at 1. unfold getitem.
      assert (Hnone : nth_error (holes_diams q) (length (holes_diams q)) = None)
        by (apply nth_error_None; lia).
      rewrite Hnone. py_unfold. py_div. reflexivity.
Qed.

Lemma cum_closed_adj_bounds_witness :
  cum_closed_adj quena_400_R 1 None = Ok 0
  /\ cum_closed_adj quena_400_R 0 (Some 2%nat) = Raise IndexError.
Proof.
  split.
  - refine (proj1 (proj2 (proj1 cum_closed_adj_bounds R _ quena_400_R 1%nat 0%nat)) _).
    cbn. lia.
  - apply (proj2 cum_closed_adj_bounds quena_400_R 0%nat 2%nat); cbn; lra || lia.
Defined.

(* ================================================================== *)
(** ** The open hole correction: its size, and when it fails *)

(** For the first hole, with a positive effective thickness, a hole
    diameter other than zero and the current estimate short of the end
    position, the correction returns a value between 0 and the distance to
    the end, both excluded. *)
Theorem open_adj_first_hole_bounds (q : Quena) (hp : list R) :
  length (holes_diams q) = holes_nb q ->
  (0 < holes_nb q)%nat ->
  length hp = 1%nat ->
  freq (vibrating q) <> 0 ->
  diam (pipe (vibrating q)) <> 0 ->
  Spec.holeDiameter q 0 <> 0 ->
  0 < Spec.openThickness q 0 ->
  0 < Spec.endPosition q - nth 0 hp 0 ->
  exists oa : R,
    open_adj q 0 hp = Ok oa
    /\ 0 < oa < Spec.endPosition q - nth 0 hp 0.
Proof.
  intros Hlen Hn Hhp Hf HD Hd0 Hth Hdist.
  set (dist := Spec.endPosition q - nth 0 hp 0) in *.
  set (r := Spec.holeDiameter q 0 / Spec.boreInnerDiameter q).
  assert (Hr : 0 < r ^ 2).
  { assert (Hr0 : r <> 0).
    { unfold r, Spec.boreInnerDiameter. intros H0. apply Hd0.
      apply (Rmult_eq_reg_r (/ diam (pipe (vibrating q)))).
      - rewrite Rmult_0_l. exact H0.
      - apply Rinv_neq_0_compat. exact HD. }
    destruct (Rtotal_order r 0) as [Hneg | [Hz | Hp]]; [| contradiction |];
      simpl; nra. }
  assert (Hq : 0 < Spec.openThickness q 0 / dist) by (apply Rdiv_lt_0_compat; lra).
  assert (Hden : 0 < r ^ 2 + Spec.openThickness q 0 / dist) by lra.
  exists (Spec.openAdj q 0 hp). split.
  - apply open_adj_R; try assumption.
    cbn [Spec.openAdjDefined]. fold dist. fold r. split; lra.
  - cbn [Spec.openAdj]. fold dist. fold r.
    set (th := Spec.openThickness q 0) in *.
    set (den := r ^ 2 + th / dist) in *.
    assert (Hval : th / den * den = th) by (field; lra).
    assert (Hthd : th / dist * dist = th) by (field; lra).
    assert (Hpos : 0 < th / den) by (apply Rdiv_lt_0_compat; lra).
    split; [exact Hpos |].
    assert (Hlt : th / den * den < dist * den).
    { rewrite Hval. unfold den. rewrite Rmult_plus_distr_l.
      replace (dist * (th / dist)) with th by (rewrite <- Hthd at 1; ring).
      assert (0 < dist * r ^ 2) by (apply Rmult_lt_0_compat; lra). lra. }
    apply (Rmult_lt_reg_r den); assumption.
Qed.

(** The first pass of the flute of [test_quena_emb_pos]. *)
Lemma open_adj_first_hole_bounds_witness :
  exists oa : R,
    open_adj quena_400_R 0 [0] = Ok oa
    /\ 0 < oa < Spec.endPosition quena_400_R - nth 0 [0] 0.
Proof.
  pose proof quena_400_R_end_position as HE.
  apply open_adj_first_hole_bounds.
  - reflexivity.
  - cbn. lia.
  - reflexivity.
  - cbn. lra.
  - cbn. lra.
  - cbn. lra.
  - unfold Spec.openThickness, Spec.wallThickness, Spec.holeDiameter,
      quena_400_R, water_pipe_R, vibrating.
    cbn [body quena_super pipe thick holes_diams nth]. lra.
  - cbn [nth]. lra.
Defined.

(** When the correction of the first hole divides by zero. *)
Lemma open_adj_R_first_zero (q : Quena) (hp : list R) :
  length (holes_diams q) = holes_nb q ->
  (0 < holes_nb q)%nat ->
  length hp = 1%nat ->
  freq (vibrating q) <> 0 ->
  diam (pipe (vibrating q)) <> 0 ->
  ~ Spec.openAdjDefined q 0 hp ->
  open_adj q 0 hp = Raise ZeroDivisionError.
Proof.
  intros Hlen Hn Hhp Hf HD Hdef. unfold open_adj.
  cbn [Spec.openAdjDefined] in Hdef.
  rewrite (getitem_nth (holes_diams q) 0 0) by lia.
  rewrite (getitem_nth hp 0 0) by lia.
  rewrite Quena_end_pos_R by assumption.
  rewrite thick_hole_R by lia.
  py_unfold. py_div.
  destruct (Req_dec_T (Spec.endPosition q - nth 0 hp 0) 0) as [Hz | Hnz].
  - rewrite (ndiv_R_zero _ _ Hz). reflexivity.
  - py_div. rewrite ndiv_R_zero; [reflexivity |].
    destruct (Req_dec_T
                ((Spec.holeDiameter q 0 / Spec.boreInnerDiameter q) ^ 2
                 + Spec.openThickness q 0 / (Spec.endPosition q - nth 0 hp 0)) 0)
      as [Hd0 | Hd0]; [| exfalso; apply Hdef; split; assumption].
    etransitivity; [| exact Hd0].
    unfold Spec.holeDiameter, Spec.boreInnerDiameter. ring.
Qed.

(** When the correction of a later hole divides by zero. *)
Lemma open_adj_R_later_zero (q : Quena) (m : nat) (hp : list R) :
  length (holes_diams q) = holes_nb q ->
  (S m < holes_nb q)%nat ->
  length hp = S (S m) ->
  diam (pipe (vibrating q)) <> 0 ->
  Spec.holeDiameter q (S m) = 0 \/ nth m hp 0 - nth (S m) hp 0 = 0 ->
  open_adj q (S m) hp = Raise ZeroDivisionError.
Proof.
  intros Hlen Hn Hhp HD Hz. unfold open_adj.
  rewrite (getitem_nth (holes_diams q) (S m) 0) by lia.
  rewrite (getitem_nth hp (S m) 0) by lia.
  rewrite (getitem_nth hp m 0) by lia.
  rewrite thick_hole_R by lia.
  py_unfold.
  destruct (Req_dec_T (nth (S m) (holes_diams q) 0) 0) as [Hd0 | Hd0].
  - rewrite (ndiv_R_zero _ _ Hd0). reflexivity.
  - destruct Hz as [Hz | Hz]; [contradiction |].
    py_div. py_div. rewrite (ndiv_R_zero _ _ Hz). reflexivity.
Qed.

(** How the open hole correction fails in exact arithmetic, for a hole [n]
    of a constructed flute and a list of [n + 1] positions: it raises
    nothing but [ZeroDivisionError] and the [ValueError] that names the
    hole; [ZeroDivisionError] exactly when a divisor of the formula is zero;
    and [ValueError] only for a hole other than the first whose current
    estimate lies beyond the position of the hole before it (if the
    effective thickness is not negative). *)
Theorem open_adj_failures (q : Quena) (n : nat) (hp : list R) :
  length (holes_diams q) = holes_nb q ->
  (n < holes_nb q)%nat ->
  length hp = S n ->
  freq (vibrating q) <> 0 ->
  diam (pipe (vibrating q)) <> 0 ->
  (forall e : exn,
      open_adj q n hp = Raise e ->
      e = ZeroDivisionError \/ e = ValueError (OpenHoleFailed n))
  /\ (open_adj q n hp = Raise ZeroDivisionError <->
      match n with
      | O => ~ Spec.openAdjDefined q 0 hp
      | S m => Spec.holeDiameter q n = 0 \/ nth m hp 0 - nth n hp 0 = 0
      end)
  /\ (forall mm : message,
      open_adj q n hp = Raise (ValueError mm) ->
      exists m : nat,
        n = S m
        /\ 1 + 4 * (Spec.openThickness q n / (nth m hp 0 - nth n hp 0))
               * (Spec.boreInnerDiameter q / Spec.holeDiameter q n) ^ 2 < 0
        /\ (0 <= Spec.openThickness q n -> nth m hp 0 < nth n hp 0))
  /\ open_adj q n hp <> OutOfFuel.
Proof.
  intros Hlen Hn Hhp Hf HD.
  assert (Hcases :
    (Spec.openAdjDefined q n hp /\ open_adj q n hp = Ok (Spec.openAdj q n hp))
    \/ (match n with
        | O => ~ Spec.openAdjDefined q 0 hp
        | S m => Spec.holeDiameter q n = 0 \/ nth m hp 0 - nth n hp 0 = 0
        end /\ open_adj q n hp = Raise ZeroDivisionError)
    \/ (exists m : nat,
          n = S m /\ Spec.holeDiameter q n <> 0
          /\ nth m hp 0 - nth n hp 0 <> 0
          /\ 1 + 4 * (Spec.openThickness q n / (nth m hp 0 - nth n hp 0))
                 * (Spec.boreInnerDiameter q / Spec.holeDiameter q n) ^ 2 < 0
          /\ open_adj q n hp = Raise (ValueError (OpenHoleFailed n)))).
  { destruct n as [| m].
    - assert (Hdec : Spec.openAdjDefined q 0 hp \/ ~ Spec.openAdjDefined q 0 hp).
      { cbn [Spec.openAdjDefined].
        destruct (Req_dec_T (Spec.endPosition q - nth 0 hp 0) 0) as [H1 | H1];
          [right; intros [H _]; contradiction |].
        destruct (Req_dec_T
                    ((Spec.holeDiameter q 0 / Spec.boreInnerDiameter q) ^ 2
                     + Spec.openThickness q 0
                       / (Spec.endPosition q - nth 0 hp 0)) 0) as [H2 | H2];
          [right; intros [_ H]; contradiction | left; split; assumption]. }
      destruct Hdec as [Hd | Hd].
      + left. split; [exact Hd |]. apply open_adj_R; assumption.
      + right. left. split; [exact Hd |]. apply open_adj_R_first_zero; assumption.
    - destruct (Req_dec_T (Spec.holeDiameter q (S m)) 0) as [Hd0 | Hd0];
        [right; left; split; [left; exact Hd0 |];
         apply open_adj_R_later_zero; auto |].
      destruct (Req_dec_T (nth m hp 0 - nth (S m) hp 0) 0) as [Hz | Hz];
        [right; left; split; [right; exact Hz |];
         apply open_adj_R_later_zero; auto |].
      destruct (Rlt_dec
                  (1 + 4 * (Spec.openThickness q (S m)
                            / (nth m hp 0 - nth (S m) hp 0))
                     * (Spec.boreInnerDiameter q / Spec.holeDiameter q (S m)) ^ 2)
                  0) as [Hneg | Hpos].
      + right. right. exists m. repeat (split; [assumption || reflexivity |]).
        eapply (open_adj_sqrt_raise q m hp _ MathDomain).
        * intros d. exists (d / 2). apply ndiv_R_ok. cbn. lra.
        * apply radicand_R; try assumption; lia.
        * apply nsqrt_R_neg. exact Hneg.
      + left. assert (Hdef : Spec.openAdjDefined q (S m) hp).
        { cbn [Spec.openAdjDefined]. repeat (split; [assumption |]). lra. }
        split; [exact Hdef |]. apply open_adj_R; assumption. }
  split; [| split; [| split]].
  - intros e He.
    destruct Hcases as [[_ Hc] | [[_ Hc] | [m [_ [_ [_ [_ Hc]]]]]]];
      rewrite Hc in He; inversion He; auto.
  - split.
    + intros He.
      destruct Hcases as [[_ Hc] | [[Hz _] | [m [_ [_ [_ [_ Hc]]]]]]];
        [rewrite Hc in He; discriminate | exact Hz
        | rewrite Hc in He; discriminate].
    + intros Hz.
      destruct Hcases as [[Hd Hc] | [[_ Hc] | [m [-> [Hd0 [Hdist _]]]]]].
      * exfalso. destruct n as [| m]; [exact (Hz Hd) |].
        cbn [Spec.openAdjDefined] in Hd. destruct Hd as [Hd0 [Hdist _]].
        destruct Hz; contradiction.
      * exact Hc.
      * exfalso. destruct Hz; contradiction.
  - intros mm He.
    destruct Hcases as [[_ Hc] | [[_ Hc] | [m [-> [Hd0 [Hdist [Hneg _]]]]]]];
      [rewrite Hc in He; discriminate | rewrite Hc in He; discriminate |].
    exists m. split; [reflexivity |]. split; [exact Hneg |].
    intros Hth.
    destruct (Rlt_dec (nth m hp 0) (nth (S m) hp 0)) as [Hlt | Hge]; [exact Hlt |].
    exfalso.
    assert (Hd : 0 < nth m hp 0 - nth (S m) hp 0) by lra.
    assert (Hq : 0 <= Spec.openThickness q (S m) / (nth m hp 0 - nth (S m) hp 0)).
    { apply Rmult_le_pos; [exact Hth |].
      apply Rlt_le, Rinv_0_lt_compat. exact Hd. }
    assert (Hr : 0 <= (Spec.boreInnerDiameter q / Spec.holeDiameter q (S m)) ^ 2)
      by apply pow2_ge_0.
    assert (0 <= 4 * (Spec.openThickness q (S m) / (nth m hp 0 - nth (S m) hp 0))
                 * (Spec.boreInnerDiameter q / Spec.holeDiameter q (S m)) ^ 2).
    { apply Rmult_le_pos; [lra | exact Hr]. }
    lra.
  - destruct Hcases as [[_ Hc] | [[_ Hc] | [m [_ [_ [_ [_ Hc]]]]]]];
      rewrite Hc; discriminate.
Qed.

(** The second hole of a three-hole flute, in a state in which its estimate
    lies beyond the hole before it. *)
Lemma open_adj_failures_witness :
  (forall e : exn,
      open_adj three_holes_R 1 [300; 310] = Raise e ->
      e = ZeroDivisionError \/ e = ValueError (OpenHoleFailed 1))
  /\ (open_adj three_holes_R 1 [300; 310] = Raise ZeroDivisionError <->
      Spec.holeDiameter three_holes_R 1 = 0
      \/ nth 0 [300; 310] 0 - nth 1 [300; 310] 0 = 0)
  /\ (forall mm : message,
      open_adj three_holes_R 1 [300; 310] = Raise (ValueError mm) ->
      exists m : nat,
        1%nat = S m
        /\ 1 + 4 * (Spec.openThickness three_holes_R 1
                    / (nth m [300; 310] 0 - nth 1 [300; 310] 0))
               * (Spec.boreInnerDiameter three_holes_R
                  / Spec.holeDiameter three_holes_R 1) ^ 2 < 0
        /\ (0 <= Spec.openThickness three_holes_R 1 ->
            nth m [300; 310] 0 < nth 1 [300; 310] 0))
  /\ open_adj three_holes_R 1 [300; 310] <> OutOfFuel.
Proof.
  apply (open_adj_failures three_holes_R 1 [300; 310]).
  - reflexivity.
  - cbn. lia.
  - reflexivity.
  - cbn. lra.
  - cbn. lra.
Defined.

(* ================================================================== *)
(** ** [Quena.__init__]: the order of the arguments *)

(** [sorted] leaves a list that is in order as it is. *)
Lemma sorted_id {A : Type} (lt : A -> A -> bool) (l : list A) :
  StronglySorted (le_of lt) l -> sorted lt l = l.
Proof.
  induction 1 as [| x t Hs IH Hall]; cbn [sorted fold_right]; [reflexivity |].
  change (fold_right (insert lt) [] t) with (sorted lt t). rewrite IH.
  destruct t as [| y t']; cbn [insert]; [reflexivity |].
  inversion Hall as [| ? ? Hy _]; subst. unfold le_of in Hy. now rewrite Hy.
Qed.

(** The order of pairs of real numbers is the lexicographic one. *)
Lemma tuple_le_R (p q : R * R) :
  le_of tuple_ltb p q
  <-> fst p < fst q \/ (fst p = fst q /\ snd p <= snd q).
Proof.
  unfold le_of, tuple_ltb. cbn [neqb nltb PyNum_R].
  destruct (Reqb (fst q) (fst p)) eqn:He.
  - apply Reqb_true_iff in He.
    destruct (Reqb (snd q) (snd p)) eqn:Hs.
    + apply Reqb_true_iff in Hs. split; [intros _; right; split; lra | reflexivity].
    + apply Reqb_false_iff in Hs. rewrite Rltb_false_iff. split.
      * intros Hle. right. split; lra.
      * intros [Hlt | [_ Hle]]; lra.
  - apply Reqb_false_iff in He. rewrite Rltb_false_iff. split.
    + intros Hle. left. lra.
    + intros [Hlt | [Heq _]]; [lra | congruence].
Qed.

Lemma sorted_pairs_R (l : list (R * R)) :
  StronglySorted (le_of tuple_ltb) (sorted tuple_ltb l).
Proof.
  apply (sorted_sorted tuple_ltb (fun _ => True)).
  - intros x y _ _ Hxy. change (le_of tuple_ltb x y). apply tuple_le_R.
    assert (Hn : ~ le_of tuple_ltb y x)
      by (unfold le_of; rewrite Hxy; discriminate).
    rewrite tuple_le_R in Hn.
    destruct (Rtotal_order (fst x) (fst y)) as [Hlt | [Heq | Hgt]].
    + left. exact Hlt.
    + right. split; [exact Heq |].
      destruct (Rle_dec (snd x) (snd y)) as [Hle | Hnle]; [exact Hle |].
      exfalso. apply Hn. right. split; lra.
    + exfalso. apply Hn. left. exact Hgt.
  - intros x y z _ _ _. rewrite !tuple_le_R.
    intros [H1 | [H1 H1']] [H2 | [H2 H2']]; [left | left | left | right; split]; lra.
  - apply Forall_forall. auto.
Qed.

Lemma sorted_pairs_perm_R (l1 l2 : list (R * R)) :
  Permutation l1 l2 -> sorted tuple_ltb l1 = sorted tuple_ltb l2.
Proof.
  intros Hp.
  apply (StronglySorted_perm_unique (le_of tuple_ltb) (fun _ => True)).
  - intros [a b] [c d] _ _. rewrite !tuple_le_R. cbn [fst snd].
    intros [H1 | [H1 H1']] [H2 | [H2 H2']]; try lra. f_equal; lra.
  - apply Forall_forall. auto.
  - apply sorted_pairs_R.
  - apply sorted_pairs_R.
  - rewrite <- (sorted_perm tuple_ltb l1), <- (sorted_perm tuple_ltb l2). exact Hp.
Qed.

Lemma sorted_perm_R (l1 l2 : list R) :
  Permutation l1 l2 -> sorted Rltb l1 = sorted Rltb l2.
Proof.
  intros Hp.
  apply (StronglySorted_perm_unique Rle (fun _ => True)).
  - intros x y _ _. lra.
  - apply Forall_forall. auto.
  - apply sorted_R_sorted.
  - apply sorted_R_sorted.
  - rewrite <- (sorted_perm Rltb l1), <- (sorted_perm Rltb l2). exact Hp.
Qed.

Lemma StronglySorted_nth_le {A : Type} (le : A -> A -> Prop) (d : A) (l : list A) :
  StronglySorted le l ->
  forall i j : nat, (i < j)%nat -> (j < length l)%nat -> le (nth i l d) (nth j l d).
Proof.
  induction 1 as [| x t Hs IH Hall]; intros i j Hij Hj; cbn in Hj; [lia |].
  destruct j as [| j]; [lia |]. destruct i as [| i]; cbn [nth].
  - rewrite Forall_forall in Hall. apply Hall, nth_In. lia.
  - apply IH; lia.
Qed.

(** The flute does not depend on the order in which its holes are given:
    two lists of (frequency, diameter) pairs that are rearrangements of one
    another construct the same [Quena].  In exact arithmetic. *)
Theorem Quena_init_order_independent (p : Pipe) (f : R) (hf hf' : list R)
    (s : R) (l l' : list R) (rg : option bool) :
  length l = length hf -> length l' = length hf' ->
  Permutation (combine hf l) (combine hf' l') ->
  Quena_init p f hf s (Some (Sequence l)) rg
  = Quena_init p f hf' s (Some (Sequence l')) rg.
Proof.
  intros Hl Hl' Hp. unfold Quena_init. cbn [iterable as_sequence].
  rewrite Hl, Hl', !Nat.eqb_refl. cbn [negb bind].
  rewrite (sorted_pairs_perm_R _ _ Hp).
  assert (Hf : Permutation hf hf').
  { rewrite <- (map_fst_combine hf l Hl), <- (map_fst_combine hf' l' Hl').
    apply Permutation_map. exact Hp. }
  cbn [nltb PyNum_R]. rewrite (sorted_perm_R _ _ Hf). reflexivity.
Qed.

(** The holes of the fixture given from the highest to the lowest. *)
Lemma Quena_init_order_independent_witness :
  Quena_init water_pipe_R 392 [440; 493.88; 523.25] 9.5
    (Some (Sequence [10; 12; 9])) (Some true)
  = Quena_init water_pipe_R 392 [523.25; 493.88; 440] 9.5
      (Some (Sequence [9; 12; 10])) (Some true).
Proof.
  apply Quena_init_order_independent; [reflexivity | reflexivity |].
  cbn [combine].
  apply (Permutation_rev [(440, 10); (493.88, 12); (523.25, 9)]).
Defined.

(** What the constructor stores is in the order of Python's tuples: the
    frequencies ascend, and holes of equal frequency are in ascending order
    of diameter.  In exact arithmetic, for a sequence of diameters. *)
Theorem Quena_init_ties_by_diameter (p : Pipe) (f : R) (hf : list R) (s : R)
    (l : list R) (rg : option bool) (q : Quena) (i j : nat) :
  Quena_init p f hf s (Some (Sequence l)) rg = Ok q ->
  (i < j)%nat -> (j < holes_nb q)%nat ->
  nth i (holes_freqs q) 0 < nth j (holes_freqs q) 0
  \/ (nth i (holes_freqs q) 0 = nth j (holes_freqs q) 0
      /\ nth i (holes_diams q) 0 <= nth j (holes_diams q) 0).
Proof.
  intros Hq Hij Hj.
  pose proof (Quena_init_lengths _ _ _ _ _ _ _ Hq) as Hlen.
  apply Quena_init_inv in Hq as [_ [_ [Hf [Hl Hd]]]].
  set (sp := sorted tuple_ltb (combine hf l)) in *.
  assert (Hfst : holes_freqs q = map fst sp).
  { rewrite Hf. symmetry. apply (sorted_zip_fst hf (ordered_by_lt_R hf) l Hl). }
  assert (Hsp : length sp = holes_nb q).
  { unfold holes_nb. rewrite Hfst. now rewrite length_map. }
  rewrite Hfst, Hd.
  assert (Hnf : forall k, nth k (map fst sp) 0 = fst (nth k sp (0, 0)))
    by (intros k; apply (map_nth fst sp (0, 0))).
  assert (Hns : forall k, nth k (map snd sp) 0 = snd (nth k sp (0, 0)))
    by (intros k; apply (map_nth snd sp (0, 0))).
  rewrite !Hnf, !Hns.
  apply tuple_le_R.
  pose proof (sorted_pairs_R (combine hf l)) as Hs. fold sp in Hs.
  apply StronglySorted_nth_le; [exact Hs | lia | lia].
Qed.

(** Two holes at 440 Hz, the wider one given first. *)
Lemma Quena_init_ties_by_diameter_witness :
  exists q : Quena,
    Quena_init water_pipe_R 392 [440; 440] 9.5 (Some (Sequence [12; 10])) None = Ok q
    /\ (nth 0 (holes_freqs q) 0 < nth 1 (holes_freqs q) 0
        \/ (nth 0 (holes_freqs q) 0 = nth 1 (holes_freqs q) 0
            /\ nth 0 (holes_diams q) 0 <= nth 1 (holes_diams q) 0)).
Proof.
  assert (Hq : exists q : Quena,
             Quena_init water_pipe_R 392 [440; 440] 9.5
               (Some (Sequence [12; 10])) None = Ok q).
  { unfold Quena_init. rewrite QuenaBody_init_R. cbn. eexists. reflexivity. }
  destruct Hq as [q Hq]. exists q. split; [exact Hq |].
  apply (Quena_init_ties_by_diameter water_pipe_R 392 [440; 440] 9.5 [12; 10]
           None q 0 1 Hq).
  - lia.
  - apply Quena_init_inv in Hq as [_ [_ [Hf _]]].
    unfold holes_nb. rewrite Hf, sorted_length. cbn. lia.
Defined.

(** Pairs that are in the order of Python's tuples are stored as given. *)
Lemma Quena_init_sorted_R (p : Pipe) (f : R) (hf : list R) (s : R)
    (l : list R) (rg : option bool) :
  length l = length hf ->
  StronglySorted (le_of tuple_ltb) (combine hf l) ->
  Quena_init p f hf s (Some (Sequence l)) rg
  = Ok (mkQuena (mkQuenaBody (mkVibratingPipe p (s * lips_k) f))
          (match rg with Some b => b | None => false end) hf l).
Proof.
  intros Hl Hs. unfold Quena_init. cbn [iterable as_sequence].
  rewrite Hl, Nat.eqb_refl. cbn [negb bind].
  rewrite (sorted_id tuple_ltb _ Hs), (map_snd_combine hf l Hl).
  rewrite QuenaBody_init_R. cbn [bind].
  assert (Hf : StronglySorted (le_of Rltb) hf).
  { rewrite <- (map_fst_combine hf l Hl).
    induction Hs as [| x t Hs IH Hall]; cbn [map]; constructor; [exact IH |].
    apply Forall_map. eapply Forall_impl; [| exact Hall].
    intros y Hy. apply Rle_of_iff. apply tuple_le_R in Hy. lra. }
  cbn [nltb PyNum_R]. rewrite (sorted_id Rltb hf Hf). reflexivity.
Qed.

Lemma combine_repeat_sorted_R (sf : list R) (d : R) :
  StronglySorted Rle sf ->
  StronglySorted (le_of tuple_ltb) (combine sf (repeat d (length sf))).
Proof.
  induction 1 as [| x t Hs IH Hall]; cbn [length repeat combine]; constructor;
    [exact IH |].
  apply Forall_forall. intros [y e] Hin.
  pose proof (in_combine_l _ _ _ _ Hin) as Hy.
  pose proof (in_combine_r _ _ _ _ Hin) as He.
  apply repeat_spec in He. subst e.
  rewrite Forall_forall in Hall. specialize (Hall y Hy).
  apply tuple_le_R. cbn [fst snd].
  destruct (Req_dec_T x y) as [Heq | Hne]; [right; split; lra | left; lra].
Qed.

(** Constructing a flute from what a constructed flute stores gives that
    flute again: its frequencies and diameters are already in the order the
    constructor puts them in.  In exact arithmetic. *)
Theorem Quena_init_round_trip (p : Pipe) (f : R) (hf : list R) (s : R)
    (hd : option diams_arg) (rg : option bool) (q : Quena) :
  Quena_init p f hf s hd rg = Ok q ->
  Quena_init p f (holes_freqs q) s (Some (Sequence (holes_diams q)))
    (Some (ring q)) = Ok q.
Proof.
  intros Hq.
  pose proof (Quena_init_lengths _ _ _ _ _ _ _ Hq) as Hlen.
  pose proof (Quena_init_body _ _ _ _ _ _ _ Hq) as Hb.
  pose proof (Quena_init_inv _ _ _ _ _ _ _ Hq) as [_ [_ [Hf Hd]]].
  rewrite Quena_init_sorted_R.
  - destruct q as [b r fs ds]. cbn in Hb |- *. now rewrite Hb.
  - exact Hlen.
  - assert (Hrep : forall d : R,
               holes_diams q = repeat d (length hf) ->
               StronglySorted (le_of tuple_ltb)
                 (combine (holes_freqs q) (holes_diams q))).
    { intros d Hr. rewrite Hr, Hf.
      rewrite <- (sorted_length Rltb hf). cbn [nltb PyNum_R].
      apply combine_repeat_sorted_R, sorted_R_sorted. }
    destruct hd as [[d | l] |]; [exact (Hrep d Hd) | | exact (Hrep _ Hd)].
    destruct Hd as [Hl Hd].
    rewrite Hd, Hf, <- (sorted_zip_fst hf (ordered_by_lt_R hf) l Hl).
    rewrite combine_fst_snd. apply sorted_pairs_R.
Qed.

(** The fixture with its holes given from the highest to the lowest. *)
Lemma Quena_init_round_trip_witness :
  exists q : Quena,
    Quena_init water_pipe_R 392 [523.25; 493.88; 440] 9.5
      (Some (Sequence [9; 12; 10])) (Some true) = Ok q
    /\ Quena_init water_pipe_R 392 (holes_freqs q) 9.5
         (Some (Sequence (holes_diams q))) (Some (ring q)) = Ok q.
Proof.
  assert (Hq : exists q : Quena,
             Quena_init water_pipe_R 392 [523.25; 493.88; 440] 9.5
               (Some (Sequence [9; 12; 10])) (Some true) = Ok q).
  { unfold Quena_init. rewrite QuenaBody_init_R. cbn. eexists. reflexivity. }
  destruct Hq as [q Hq]. exists q. split; [exact Hq |].
  exact (Quena_init_round_trip _ _ _ _ _ _ _ Hq).
Defined.

(* ================================================================== *)
(** ** The fuel of the loop *)

Section Fuel.
Context {F : Type} `{PyNum F}.
Variable self : @Quena F.

Lemma while_loop_S (fuel : nat) (n : nat) (hp : list F) (old_pos : F) :
  while_loop (S fuel) self n hp old_pos
  = (test <- loop_test hp n old_pos ;;
     if test : bool
     then old_pos <- getitem hp n ;;
          hp' <- while_body self n hp ;;
          while_loop fuel self n hp' old_pos
     else Ok hp)%py.
Proof. reflexivity. Qed.

Lemma while_loop_fuel_mono (fuel : nat) :
  forall (fuel' : nat) (n : nat) (hp : list F) (old_pos : F),
    (fuel <= fuel')%nat ->
    while_loop fuel self n hp old_pos <> OutOfFuel ->
    while_loop fuel' self n hp old_pos = while_loop fuel self n hp old_pos.
Proof.
  induction fuel as [| fuel IH]; intros fuel' n hp old_pos Hle Hne.
  - destruct (loop_test hp n old_pos) as [[|] | e |] eqn:Ht.
    + exfalso. apply Hne. cbn [while_loop]. rewrite Ht. reflexivity.
    + now rewrite !(while_loop_test_false self _ _ _ _ Ht).
    + destruct fuel'; cbn [while_loop]; rewrite Ht; reflexivity.
    + destruct fuel'; cbn [while_loop]; rewrite Ht; reflexivity.
  - destruct fuel' as [| fuel']; [lia |].
    rewrite while_loop_S in Hne. rewrite !while_loop_S.
    destruct (loop_test hp n old_pos) as [[|] | e |]; cbn [bind] in *;
      try reflexivity.
    destruct (getitem hp n) as [cur | e |]; cbn [bind] in *; try reflexivity.
    destruct (while_body self n hp) as [hp' | e |]; cbn [bind] in *;
      try reflexivity.
    apply IH; [lia | exact Hne].
Qed.

End Fuel.

(* ================================================================== *)
(** ** [holes_loc] *)

Lemma comprehension_total {A B : Type} (g : A -> B) (l : list A) :
  comprehension (fun a => Ok (g a)) l = Ok (map g l).
Proof. induction l as [| a t IH]; cbn; [reflexivity | now rewrite IH]. Qed.

(** What [holes_loc] returns: with no hole the empty list, the end position
    not being computed; an exception of [holes_pos] as it is; and when
    [holes_pos] has returned the positions, the end position less each of
    them - the end position is then a value, the first pass of the solver
    having computed it.  For every number system in which the first test of
    a loop succeeds. *)
Theorem holes_loc_of_holes_pos {F : Type} `{PyNum F} (q : Quena) (fuel : nat) :
  sentinel_enters ->
  ((holes_nb q = 0)%nat -> holes_loc fuel q = Ok [])
  /\ (forall e : exn, holes_pos fuel q = Raise e -> holes_loc fuel q = Raise e)
  /\ (forall hp : list F,
      holes_pos fuel q = Ok hp ->
      (0 < holes_nb q)%nat ->
      exists E : F,
        end_pos q = Ok E
        /\ holes_loc fuel q = Ok (map (nsub E) hp)
        /\ length (map (nsub E) hp) = holes_nb q).
Proof.
  intros Hs. split; [| split].
  - intros Hn. unfold holes_loc, holes_pos, range. rewrite Hn. reflexivity.
  - intros e He. unfold holes_loc. rewrite He. reflexivity.
  - intros hp Hhp Hn.
    destruct (holes_pos_post q fuel hp Hs Hhp) as [Hlen Hall].
    destruct (Hall 0%nat Hn) as [cur [prev [_ [Hnext _]]]].
    cbn [firstn app] in Hnext.
    unfold next_pos in Hnext. apply bind_Ok_inv in Hnext as [oa [Ho _]].
    unfold open_adj in Ho. apply try_except_Ok_inv in Ho.
    apply bind_Ok_inv in Ho as [ratio [_ Ho]].
    apply bind_Ok_inv in Ho as [dist [Hd _]].
    unfold lift2 in Hd. apply bind_Ok_inv in Hd as [E [HE _]].
    exists E. split; [exact HE |]. split.
    + unfold holes_loc. rewrite Hhp. cbn [bind].
      unfold lift2, total2. rewrite HE. cbn [bind].
      apply (comprehension_total (nsub E) hp).
    + rewrite length_map. exact Hlen.
Qed.

(** The seven holes of the fixture in binary64. *)
Lemma holes_loc_of_holes_pos_witness :
  exists (q : @Quena float) (hp : list float) (E : float),
    quena_G4_float = Ok q
    /\ holes_pos 30 q = Ok hp
    /\ end_pos q = Ok E
    /\ holes_loc 30 q = Ok (map (nsub E) hp)
    /\ length (map (nsub E) hp) = holes_nb q.
Proof.
  let r := eval vm_compute in quena_G4_float in
  match r with Ok ?q =>
    let h := eval vm_compute in (holes_pos 30 q) in
    match h with Ok ?hp =>
      assert (Hrun : holes_pos 30 q = Ok hp) by (vm_compute; reflexivity);
      assert (Hn : (0 < holes_nb q)%nat) by (vm_compute; lia);
      destruct (proj2 (proj2 (holes_loc_of_holes_pos q 30 sentinel_enters_float))
                  hp Hrun Hn) as [E [HE [Hloc Hlen]]];
      exists q, hp, E
    end
  end.
  split; [vm_compute; reflexivity |].
  repeat (split; [assumption |]). assumption.
Defined.

(* ================================================================== *)
(** ** What the solver raises *)

Lemma arithmetic_raises_R : @arithmetic_raises R _.
Proof.
  unfold arithmetic_raises. cbn [ndiv npow2 nsqrt PyNum_R]. repeat split.
  - intros x y e. destruct (Reqb y 0); congruence.
  - intros x e. discriminate.
  - intros x e. destruct (Rltb x 0); congruence.
Qed.

Lemma arithmetic_raises_float : @arithmetic_raises float _.
Proof.
  unfold arithmetic_raises. cbn [ndiv npow2 nsqrt PyNum_float]. repeat split.
  - intros x y e. unfold float_div.
    destruct (PrimFloat.eqb y PrimFloat.zero); congruence.
  - intros x e. unfold float_pow2.
    destruct (PrimFloat.is_finite x && PrimFloat.is_infinity (PrimFloat.mul x x));
      congruence.
  - intros x e. unfold float_sqrt.
    destruct (PrimFloat.ltb x PrimFloat.zero); congruence.
Qed.

Lemma fails_in_Ok {A : Type} (P : exn -> Prop) (a : A) : fails_in P (Ok a).
Proof. intros e He. discriminate. Qed.

Lemma fails_in_bind {A B : Type} (P : exn -> Prop) (c : result A)
    (k : A -> result B) :
  fails_in P c -> (forall a : A, c = Ok a -> fails_in P (k a)) ->
  fails_in P (bind c k).
Proof.
  intros Hc Hk e. destruct c as [a | e' |]; cbn [bind].
  - apply (Hk a eq_refl).
  - intros He. injection He as <-. apply Hc. reflexivity.
  - discriminate.
Qed.

Lemma fails_in_weaken {A : Type} (P Q : exn -> Prop) (c : result A) :
  (forall e, P e -> Q e) -> fails_in P c -> fails_in Q c.
Proof. intros HPQ Hc e He. apply HPQ, Hc, He. Qed.

Lemma fails_in_lift2 {A B C : Type} (P : exn -> Prop) (f : A -> B -> result C)
    (a : result A) (b : result B) :
  fails_in P a -> fails_in P b -> (forall x y, fails_in P (f x y)) ->
  fails_in P (lift2 f a b).
Proof.
  intros Ha Hb Hf. unfold lift2.
  apply fails_in_bind; [exact Ha |]. intros x _.
  apply fails_in_bind; [exact Hb |]. intros y _. apply Hf.
Qed.

Lemma fails_in_lift1 {A B : Type} (P : exn -> Prop) (f : A -> result B)
    (a : result A) :
  fails_in P a -> (forall x, fails_in P (f x)) -> fails_in P (lift1 f a).
Proof.
  intros Ha Hf. unfold lift1. apply fails_in_bind; [exact Ha |].
  intros x _. apply Hf.
Qed.

Lemma fails_in_comprehension {A B : Type} (P : exn -> Prop) (f : A -> result B)
    (l : list A) :
  Forall (fun a => fails_in P (f a)) l -> fails_in P (comprehension f l).
Proof.
  induction 1 as [| a t Ha Ht IH]; cbn [comprehension]; [apply fails_in_Ok |].
  apply fails_in_bind; [exact Ha |]. intros b _.
  apply fails_in_bind; [exact IH |]. intros t' _. apply fails_in_Ok.
Qed.

Lemma fails_in_getitem {A : Type} (P : exn -> Prop) (l : list A) (n : nat) :
  (n < length l)%nat -> fails_in P (getitem l n).
Proof.
  intros Hn e. unfold getitem.
  destruct (nth_error l n) eqn:Hnth; [discriminate |].
  apply nth_error_None in Hnth. lia.
Qed.

Lemma fails_in_try_except {A : Type} (P Q : exn -> Prop) (c : result A) (h : exn) :
  fails_in P c ->
  (forall e : exn, P e -> (forall m : message, e <> ValueError m) -> Q e) ->
  ((exists m : message, P (ValueError m)) -> Q h) ->
  fails_in Q (try_except_ValueError c (Raise h)).
Proof.
  intros Hc Hother Hvalue e. destruct c as [a | e' |];
    cbn [try_except_ValueError]; try discriminate.
  specialize (Hc e' eq_refl).
  destruct e' as [| m | |]; intros He; injection He as <-;
    try (apply Hother; [exact Hc | intros m'; discriminate]).
  apply Hvalue. exists m. exact Hc.
Qed.

Section Raises.
Context {F : Type} `{PyNum F}.
Hypothesis Harith : arithmetic_raises.
Variable self : @Quena F.
Hypothesis Hwf : length (holes_diams self) = holes_nb self.

Lemma fails_in_ndiv (x y : F) : fails_in division_or_overflow (ndiv x y).
Proof.
  intros e He. left. destruct Harith as [Hd _]. exact (Hd x y e He).
Qed.

Lemma fails_in_npow2 (x : F) : fails_in division_or_overflow (npow2 x).
Proof.
  intros e He. right. destruct Harith as [_ [Hp _]]. exact (Hp x e He).
Qed.

Lemma fails_in_total2 (f : F -> F -> F) (x y : F) : fails_in division_or_overflow (total2 f x y).
Proof. apply fails_in_Ok. Qed.

Lemma fails_in_dec (m : Z) (k : nat) : fails_in division_or_overflow (dec m k).
Proof.
  unfold dec, int. apply fails_in_lift2; try apply fails_in_Ok.
  apply fails_in_ndiv.
Qed.

(** The steps of a proof that an expression raises nothing but the
    exceptions of a division and of a square. *)
Ltac fails_step :=
  first [ apply fails_in_Ok
        | apply fails_in_dec
        | apply fails_in_ndiv
        | apply fails_in_npow2
        | apply fails_in_total2
        | apply fails_in_lift2
        | apply fails_in_lift1
        | apply fails_in_getitem; lia
        | intros;
          match goal with
          | |- fails_in _ (bind _ _) => apply fails_in_bind
          end
        | progress intros ].

Lemma fails_in_closed_adj (n : nat) :
  (n < holes_nb self)%nat -> fails_in division_or_overflow (closed_adj self n).
Proof.
  intros Hn. unfold closed_adj, int, value. repeat fails_step.
Qed.

Lemma fails_in_cum_closed_adj (a : nat) :
  fails_in division_or_overflow (cum_closed_adj self a None).
Proof.
  unfold cum_closed_adj. apply fails_in_bind; [| intros; apply fails_in_Ok].
  apply fails_in_comprehension, Forall_forall. intros n Hn.
  apply in_seq in Hn. apply fails_in_closed_adj. lia.
Qed.

Lemma fails_in_end_pos : fails_in division_or_overflow (Quena_end_pos self).
Proof.
  unfold Quena_end_pos, VibratingPipe_end_pos, theoric_length, end_adj,
    ring_adj, ring_offset, int, value.
  destruct (ring self);
    repeat first [apply fails_in_cum_closed_adj | fails_step].
Qed.

Lemma fails_in_thick_hole (n : nat) :
  (n < holes_nb self)%nat -> fails_in division_or_overflow (thick_hole self n).
Proof.
  intros Hn. unfold thick_hole, value. repeat fails_step.
Qed.

Lemma fails_in_theoric_hole_pos (n : nat) :
  (n < holes_nb self)%nat -> fails_in division_or_overflow (theoric_hole_pos self n).
Proof.
  intros Hn. unfold theoric_hole_pos, int, holes_nb in *. repeat fails_step.
Qed.

Lemma fails_in_open_adj (n : nat) (hp : list F) :
  (n < holes_nb self)%nat -> length hp = S n ->
  fails_in (hole_failure n) (open_adj self n hp).
Proof.
  intros Hn Hhp. unfold open_adj. destruct n as [| m].
  - apply (fails_in_try_except division_or_overflow).
    + unfold value. repeat first [apply fails_in_end_pos | fails_step].
      all: apply fails_in_thick_hole; lia.
    + intros e He _. left. exact He.
    + intros [mm [Hm | Hm]]; discriminate.
  - apply (fails_in_try_except
             (fun e => division_or_overflow e \/ e = ValueError MathDomain)).
    + unfold value, sqrt_, int.
      repeat first
        [ apply fails_in_Ok
        | apply fails_in_getitem; lia
        | apply (fails_in_weaken division_or_overflow);
          [intros; left; assumption |];
          first [ apply fails_in_ndiv | apply fails_in_npow2
                | apply fails_in_total2 | apply fails_in_thick_hole; lia ]
        | apply fails_in_lift2
        | apply fails_in_lift1
        | intros;
          match goal with
          | |- fails_in _ (bind _ _) => apply fails_in_bind
          | |- fails_in _ (nsqrt _) =>
              let e := fresh "e" in
              let He := fresh "He" in
              intros e He; right;
              destruct Harith as [_ [_ Hsq]]; exact (Hsq _ e He)
          end
        | progress intros ].
    + intros e [He | He] Hnv; [left; exact He |].
      exfalso. exact (Hnv _ He).
    + intros _. right. split; [lia | reflexivity].
Qed.

Lemma fails_in_next_pos (n : nat) (hp : list F) :
  (n < holes_nb self)%nat -> length hp = S n ->
  fails_in (hole_failure n) (next_pos self n hp).
Proof.
  intros Hn Hhp. unfold next_pos.
  apply fails_in_bind; [apply fails_in_open_adj; assumption |]. intros oa _.
  apply (fails_in_weaken division_or_overflow); [intros; left; assumption |].
  apply fails_in_bind.
  - unfold value.
    repeat first [apply fails_in_theoric_hole_pos; exact Hn | fails_step].
  - intros v _. destruct (n <? holes_nb self - 1)%nat; [| apply fails_in_Ok].
    unfold value. repeat first [apply fails_in_cum_closed_adj | fails_step].
Qed.

Lemma fails_in_loop_test (cur old_pos : F) :
  fails_in division_or_overflow (gt_ (abs_ (Ok cur - Ok old_pos)) EPSILON).
Proof.
  unfold gt_, abs_, EPSILON. repeat fails_step.
Qed.

Lemma fails_in_while_loop (fuel : nat) (pre : list F) :
  (length pre < holes_nb self)%nat ->
  forall cur old_pos : F,
    fails_in (hole_failure (length pre))
      (while_loop fuel self (length pre) (pre ++ [cur]) old_pos).
Proof.
  intros Hn. induction fuel as [| fuel IH]; intros cur old_pos.
  - cbn [while_loop]. rewrite loop_test_last.
    apply fails_in_bind.
    + apply (fails_in_weaken division_or_overflow); [intros; left; assumption |].
      apply fails_in_loop_test.
    + intros [|] _; [intros e He; discriminate | apply fails_in_Ok].
  - rewrite while_loop_unfold. apply fails_in_bind.
    + apply (fails_in_weaken division_or_overflow); [intros; left; assumption |].
      apply fails_in_loop_test.
    + intros [|] _; [| apply fails_in_Ok].
      apply fails_in_bind; [| intros v _; apply IH].
      apply fails_in_next_pos; [exact Hn |].
      rewrite length_app. cbn. lia.
Qed.

Lemma fails_in_for_loop (fuel : nat) (k : nat) :
  forall pre : list F,
    (length pre + k <= holes_nb self)%nat ->
    fails_in (fun e => exists n : nat, (n < holes_nb self)%nat /\ hole_failure n e)
      (for_loop fuel self (seq (length pre) k) pre).
Proof.
  induction k as [| k IH]; intros pre Hk; cbn [seq for_loop];
    [apply fails_in_Ok |].
  apply fails_in_bind.
  - intros e He. exists (length pre). split; [lia |].
    exact (fails_in_while_loop fuel pre ltac:(lia) _ _ e He).
  - intros hp Hw. apply while_loop_post in Hw as [cur [prev [-> _]]].
    replace (S (length pre)) with (length (pre ++ [cur]))
      by (rewrite length_app; cbn; lia).
    apply IH. rewrite length_app. cbn. lia.
Qed.
End Raises.

(** What the solver of a constructed flute (as many diameters as
    frequencies) raises, in a number system whose division, square and
    square root raise what Python's do: [ZeroDivisionError],
    [OverflowError], or the [ValueError] that names a hole other than the
    first.  It never raises [IndexError], and never lets the [ValueError] of
    [math.sqrt] through.  [holes_loc] likewise. *)
Theorem holes_pos_raises {F : Type} `{PyNum F} (q : Quena) (fuel : nat) (e : exn) :
  arithmetic_raises ->
  length (holes_diams q) = holes_nb q ->
  holes_pos fuel q = Raise e \/ holes_loc fuel q = Raise e ->
  e = ZeroDivisionError \/ e = OverflowError
  \/ exists n : nat,
      (0 < n)%nat /\ (n < holes_nb q)%nat /\ e = ValueError (OpenHoleFailed n).
Proof.
  intros Harith Hwf He.
  assert (Hpos : fails_in
            (fun e => exists n : nat, (n < holes_nb q)%nat /\ hole_failure n e)
            (holes_pos fuel q)).
  { unfold holes_pos, range. rewrite Nat.sub_0_r.
    apply (fails_in_for_loop Harith q Hwf fuel (holes_nb q) []). cbn. lia. }
  assert (Hloc : fails_in
            (fun e => exists n : nat, (n < holes_nb q)%nat /\ hole_failure n e)
            (holes_loc fuel q)).
  { unfold holes_loc. apply fails_in_bind; [exact Hpos |]. intros l Hl.
    destruct (Nat.eq_dec (holes_nb q) 0) as [Hz | Hnz].
    - unfold holes_pos, range in Hl. rewrite Hz in Hl. cbn in Hl.
      injection Hl as <-. apply fails_in_Ok.
    - apply (fails_in_weaken division_or_overflow).
      + intros e' He'. exists 0%nat. split; [lia | left; exact He'].
      + apply fails_in_comprehension, Forall_forall. intros pos _.
        apply fails_in_lift2;
          [apply (fails_in_end_pos Harith q Hwf) | apply fails_in_Ok
          | intros; apply fails_in_Ok]. }
  assert (Hex : exists n : nat, (n < holes_nb q)%nat /\ hole_failure n e)
    by (destruct He as [He | He]; [exact (Hpos e He) | exact (Hloc e He)]).
  destruct Hex as [n [Hn [[Hz | Ho] | [Hn0 Hv]]]]; auto.
  right. right. exists n. auto.
Qed.

(** The flute of [test_impossible_quena] in binary64, whose solver raises
    for its third hole. *)
Lemma holes_pos_raises_witness :
  exists q : @Quena float,
    impossible_float = Ok q
    /\ holes_pos 30 q = Raise (ValueError (OpenHoleFailed 2))
    /\ (ValueError (OpenHoleFailed 2) = ZeroDivisionError
        \/ ValueError (OpenHoleFailed 2) = OverflowError
        \/ exists n : nat,
            (0 < n)%nat /\ (n < holes_nb q)%nat
            /\ ValueError (OpenHoleFailed 2) = ValueError (OpenHoleFailed n)).
Proof.
  let r := eval vm_compute in impossible_float in
  match r with Ok ?q => exists q;
    assert (Hrun : holes_pos 30 q = Raise (ValueError (OpenHoleFailed 2)))
      by (vm_compute; reflexivity);
    assert (Hwf : length (holes_diams q) = holes_nb q) by reflexivity
  end.
  split; [vm_compute; reflexivity |]. split; [exact Hrun |].
  match type of Hwf with
  | length (holes_diams ?q) = _ =>
      exact (holes_pos_raises q 30 _ arithmetic_raises_float Hwf (or_introl Hrun))
  end.
Defined.

(* ================================================================== *)
(** ** The loop of the first hole ends *)

(** The correction of the first hole as a function of the distance [d] to
    the end: it lies between 0 and [d]. *)
Lemma first_correction_bounds (th r2 d : R) :
  0 < th -> 0 < r2 -> 0 < d -> 0 < th / (r2 + th / d) < d.
Proof.
  intros Hth Hr Hd.
  assert (Hq : 0 < th / d) by (apply Rdiv_lt_0_compat; lra).
  assert (Hden : 0 < r2 + th / d) by lra.
  assert (Heq : th / (r2 + th / d) = th * d / (r2 * d + th)).
  { field. split; [nra | lra]. }
  assert (HA : 0 < r2 * d + th) by nra.
  rewrite Heq. split.
  - apply Rdiv_lt_0_compat; nra.
  - apply (Rmult_lt_reg_r (r2 * d + th)); [exact HA |].
    replace (th * d / (r2 * d + th) * (r2 * d + th)) with (th * d) by (field; lra).
    assert (0 < r2 * d * d) by (repeat apply Rmult_lt_0_compat; lra).
    lra.
Qed.

(** At distances of at least [m] it is a contraction. *)
Lemma first_correction_lipschitz (th r2 m d1 d2 : R) :
  0 < th -> 0 < r2 -> 0 < m -> m <= d1 -> m <= d2 ->
  Rabs (th / (r2 + th / d1) - th / (r2 + th / d2))
  <= (th / (r2 * m + th)) ^ 2 * Rabs (d1 - d2).
Proof.
  intros Hth Hr Hm H1 H2.
  set (A0 := r2 * m + th). set (A1 := r2 * d1 + th). set (A2 := r2 * d2 + th).
  assert (HA0 : 0 < A0) by (unfold A0; nra).
  assert (HA1 : A0 <= A1) by (unfold A0, A1; nra).
  assert (HA2 : A0 <= A2) by (unfold A0, A2; nra).
  assert (Heq : th / (r2 + th / d1) - th / (r2 + th / d2)
                = th * th / (A1 * A2) * (d1 - d2)).
  { unfold A1, A2. field. repeat split; nra. }
  rewrite Heq, Rabs_mult.
  assert (Hprod : 0 < A1 * A2) by nra.
  rewrite (Rabs_pos_eq (th * th / (A1 * A2)))
    by (apply Rlt_le, Rdiv_lt_0_compat; nra).
  apply Rmult_le_compat_r; [apply Rabs_pos |].
  replace ((th / A0) ^ 2) with (th * th * / (A0 * A0)) by (field; lra).
  unfold Rdiv. apply Rmult_le_compat_l; [nra |].
  apply Rinv_le_contravar; nra.
Qed.

Lemma first_correction_constant (th r2 m : R) :
  0 < th -> 0 < r2 -> 0 < m -> 0 <= (th / (r2 * m + th)) ^ 2 < 1.
Proof.
  intros Hth Hr Hm.
  assert (HA : 0 < r2 * m + th) by nra.
  assert (Hq : 0 < th / (r2 * m + th) < 1).
  { split; [apply Rdiv_lt_0_compat; lra |].
    apply (Rmult_lt_reg_r (r2 * m + th)); [exact HA |].
    replace (th / (r2 * m + th) * (r2 * m + th)) with th by (field; lra). nra. }
  split; simpl; nra.
Qed.

Section FirstHole.
Variable q : @Quena R.
Hypothesis Hlen : length (holes_diams q) = holes_nb q.
Hypothesis Hn : (0 < holes_nb q)%nat.
Hypothesis Hf : freq (vibrating q) <> 0.
Hypothesis HD : diam (pipe (vibrating q)) <> 0.
Hypothesis Hf0 : Spec.holeFrequency q 0 <> 0.
Hypothesis Hd0 : Spec.holeDiameter q 0 <> 0.
Hypothesis Hth : 0 < Spec.openThickness q 0.
Hypothesis HE : 0 < Spec.endPosition q.
Hypothesis Ht :
  Spec.theoreticalHolePos q 0 - Spec.closedAdjustmentSum q 1 (holes_nb q)
  < Spec.endPosition q.

Lemma first_ratio_pos :
  0 < (Spec.holeDiameter q 0 / Spec.boreInnerDiameter q) ^ 2.
Proof.
  assert (Hr0 : Spec.holeDiameter q 0 / Spec.boreInnerDiameter q <> 0).
  { unfold Spec.boreInnerDiameter. intros H0. apply Hd0.
    apply (Rmult_eq_reg_r (/ diam (pipe (vibrating q)))).
    - rewrite Rmult_0_l. exact H0.
    - apply Rinv_neq_0_compat. exact HD. }
  destruct (Rtotal_order (Spec.holeDiameter q 0 / Spec.boreInnerDiameter q) 0)
    as [Hneg | [Hz | Hp]]; [| contradiction |]; simpl; nra.
Qed.

(** One pass of the loop, at an estimate short of the end position. *)
Lemma first_hole_next (x : R) :
  0 < Spec.endPosition q - x ->
  next_pos q 0 [x]
  = Ok (Spec.theoreticalHolePos q 0 - Spec.closedAdjustmentSum q 1 (holes_nb q)
        - Spec.openThickness q 0
          / ((Spec.holeDiameter q 0 / Spec.boreInnerDiameter q) ^ 2
             + Spec.openThickness q 0 / (Spec.endPosition q - x))).
Proof.
  intros Hx. pose proof first_ratio_pos as Hr.
  pose proof (first_correction_bounds _ _ _ Hth Hr Hx) as Hphi.
  rewrite next_pos_R; try assumption; try reflexivity.
  - f_equal. unfold Spec.nextPos. change (Spec.holeCount q) with (holes_nb q).
    cbn [Spec.openAdj nth Nat.add].
    destruct (0 <? holes_nb q - 1)%nat eqn:Hnb; [lra |].
    apply Nat.ltb_ge in Hnb.
    assert (H1 : holes_nb q = 1%nat) by lia.
    rewrite H1. unfold Spec.closedAdjustmentSum. cbn. lra.
  - cbn [Spec.openAdjDefined nth]. split; [lra |].
    assert (0 < Spec.openThickness q 0 / (Spec.endPosition q - x))
      by (apply Rdiv_lt_0_compat; lra).
    lra.
Qed.

(** From an estimate [x] that one pass has computed from [old_pos], both
    at least [m] short of the end position, the loop ends; [n] bounds the
    number of passes it still makes. *)
Lemma first_hole_loop (m : R) (n : nat) :
  0 < m ->
  m <= Spec.endPosition q
       - (Spec.theoreticalHolePos q 0 - Spec.closedAdjustmentSum q 1 (holes_nb q)) ->
  forall x old_pos : R,
    m <= Spec.endPosition q - x ->
    m <= Spec.endPosition q - old_pos ->
    next_pos q 0 [old_pos] = Ok x ->
    ((Spec.openThickness q 0
      / ((Spec.holeDiameter q 0 / Spec.boreInnerDiameter q) ^ 2 * m
         + Spec.openThickness q 0)) ^ 2) ^ n * Rabs (x - old_pos)
    <= Spec.EPSILON ->
    exists (fuel : nat) (y prev : R),
      while_loop fuel q 0 [x] old_pos = Ok [y]
      /\ next_pos q 0 [prev] = Ok y
      /\ m <= Spec.endPosition q - prev.
Proof.
  intros Hm Ha. pose proof first_ratio_pos as Hr.
  pose proof (first_correction_constant _ _ _ Hth Hr Hm) as [HK0 HK1].
  set (K := (Spec.openThickness q 0
             / ((Spec.holeDiameter q 0 / Spec.boreInnerDiameter q) ^ 2 * m
                + Spec.openThickness q 0)) ^ 2) in *.
  assert (Hstop : forall x old_pos : R,
             Rabs (x - old_pos) <= Spec.EPSILON ->
             while_loop 0 q 0 [x] old_pos = Ok [x]).
  { intros x old_pos Hle. apply while_loop_test_false.
    change (loop_test ([] ++ [x]) (length (@nil R)) old_pos = Ok false).
    rewrite loop_test_last, loop_test_R. f_equal.
    apply Rltb_false_iff. exact Hle. }
  induction n as [| n IH]; intros x old_pos Hx Hold Hnext Hbound.
  - exists 0%nat, x, old_pos. split; [| split; assumption].
    apply Hstop. cbn [pow] in Hbound. lra.
  - destruct (Rle_dec (Rabs (x - old_pos)) Spec.EPSILON) as [Hle | Hgt].
    + exists 0%nat, x, old_pos. split; [| split; assumption].
      apply Hstop. exact Hle.
    + assert (Hx0 : 0 < Spec.endPosition q - x) by lra.
      assert (Ho0 : 0 < Spec.endPosition q - old_pos) by lra.
      pose proof (first_hole_next x Hx0) as Hnx.
      rewrite (first_hole_next old_pos Ho0) in Hnext. injection Hnext as Hxeq.
      change (Spec.holeDiameter q 0 / Spec.boreInnerDiameter q
              * (Spec.holeDiameter q 0 / Spec.boreInnerDiameter q * 1))
        with ((Spec.holeDiameter q 0 / Spec.boreInnerDiameter q) ^ 2) in Hxeq.
      pose proof (first_correction_bounds _ _ _ Hth Hr Hx0) as Hphi.
      pose proof (first_correction_lipschitz _ _ m _ _ Hth Hr Hm Hx Hold) as Hlip.
      fold K in Hlip.
      match type of Hnx with _ = Ok ?v => set (x' := v) in * end.
      destruct (IH x' x) as [fuel [y [prev [Hrun Hy]]]].
      * unfold x'. lra.
      * exact Hx.
      * exact Hnx.
      * assert (Hd : Rabs (x' - x) <= K * Rabs (x - old_pos)).
        { replace (x' - x)
            with (- (Spec.openThickness q 0
                     / ((Spec.holeDiameter q 0 / Spec.boreInnerDiameter q) ^ 2
                        + Spec.openThickness q 0 / (Spec.endPosition q - x))
                     - Spec.openThickness q 0
                       / ((Spec.holeDiameter q 0 / Spec.boreInnerDiameter q) ^ 2
                          + Spec.openThickness q 0
                            / (Spec.endPosition q - old_pos))))
            by (unfold x'; lra).
          rewrite Rabs_Ropp.
          replace (x - old_pos)
            with (- ((Spec.endPosition q - x) - (Spec.endPosition q - old_pos)))
            by ring.
          rewrite Rabs_Ropp. exact Hlip. }
        assert (HKn : 0 <= K ^ n) by (apply pow_le; exact HK0).
        cbn [pow] in Hbound.
        apply Rle_trans with (K ^ n * (K * Rabs (x - old_pos))).
        -- apply Rmult_le_compat_l; assumption.
        -- lra.
      * exists (S fuel), y, prev. split; [| exact Hy].
        change (while_loop (S fuel) q (length (@nil R)) ([] ++ [x]) old_pos = Ok [y]).
        rewrite while_loop_unfold, loop_test_R.
        assert (Htest : Rltb Spec.EPSILON (Rabs (x - old_pos)) = true)
          by (apply Rltb_true_iff; lra).
        rewrite Htest. cbn [bind app length]. rewrite Hnx. cbn [bind].
        exact Hrun.
Qed.
End FirstHole.

(** In exact arithmetic the loop of the first hole ends, for a flute whose
    first hole has a positive effective thickness and a diameter other than
    zero, whose end position is positive, and whose first hole, placed at
    its theoric position less the closed adjustments of the later holes,
    lies short of the end position: from some number of passes on the loop
    returns one and the same estimate, which lies below that uncorrected
    position.  For a flute with this one hole, [holes_pos] returns it and
    [holes_loc] its distance to the end, which is positive. *)
Theorem first_hole_loop_terminates (q : Quena) :
  length (holes_diams q) = holes_nb q ->
  (0 < holes_nb q)%nat ->
  freq (vibrating q) <> 0 ->
  diam (pipe (vibrating q)) <> 0 ->
  Spec.holeFrequency q 0 <> 0 ->
  Spec.holeDiameter q 0 <> 0 ->
  0 < Spec.openThickness q 0 ->
  0 < Spec.endPosition q ->
  Spec.theoreticalHolePos q 0 - Spec.closedAdjustmentSum q 1 (holes_nb q)
  < Spec.endPosition q ->
  exists (fuel : nat) (y : R),
    (forall fuel' : nat,
        (fuel <= fuel')%nat -> while_loop fuel' q 0 [0] 1 = Ok [y])
    /\ y < Spec.theoreticalHolePos q 0 - Spec.closedAdjustmentSum q 1 (holes_nb q)
    /\ 0 < Spec.endPosition q - y
    /\ (holes_nb q = 1%nat ->
        forall fuel' : nat,
          (fuel <= fuel')%nat ->
          holes_pos fuel' q = Ok [y]
          /\ holes_loc fuel' q = Ok [Spec.endPosition q - y]).
Proof.
  intros Hlen Hn Hf HD Hf0 Hd0 Hth HE Ht.
  pose proof (first_ratio_pos q HD Hd0) as Hr.
  set (t0 := Spec.theoreticalHolePos q 0
             - Spec.closedAdjustmentSum q 1 (holes_nb q)) in *.
  set (m := Rmin (Spec.endPosition q - t0) (Spec.endPosition q)).
  assert (Hm : 0 < m) by (unfold m; apply Rmin_glb_lt; lra).
  assert (Hma : m <= Spec.endPosition q - t0) by apply Rmin_l.
  assert (Hme : m <= Spec.endPosition q - 0)
    by (rewrite Rminus_0_r; apply Rmin_r).
  pose proof (first_correction_constant _ _ _ Hth Hr Hm) as [HK0 HK1].
  set (K := (Spec.openThickness q 0
             / ((Spec.holeDiameter q 0 / Spec.boreInnerDiameter q) ^ 2 * m
                + Spec.openThickness q 0)) ^ 2) in *.
  assert (HE0 : 0 < Spec.endPosition q - 0) by lra.
  pose proof (first_hole_next q Hlen Hn Hf HD Hf0 Hd0 Hth 0 HE0) as Hx1.
  fold t0 in Hx1.
  pose proof (first_correction_bounds _ _ _ Hth Hr HE0) as Hphi0.
  match type of Hx1 with _ = Ok ?v => set (x1 := v) in * end.
  assert (Hmx : m <= Spec.endPosition q - x1) by (unfold x1; lra).
  assert (HN : exists N : nat, K ^ N * Rabs (x1 - 0) <= Spec.EPSILON).
  { assert (Hy : 0 < Spec.EPSILON / (Rabs x1 + 1)).
    { apply Rdiv_lt_0_compat; [unfold Spec.EPSILON; lra |].
      pose proof (Rabs_pos x1). lra. }
    assert (HKabs : Rabs K < 1) by (rewrite Rabs_pos_eq; assumption).
    destruct (pow_lt_1_zero K HKabs _ Hy) as [N HN].
    exists N. specialize (HN N (Nat.le_refl N)).
    assert (HKN : 0 <= K ^ N) by (apply pow_le; exact HK0).
    rewrite Rabs_pos_eq in HN by exact HKN.
    rewrite Rminus_0_r. pose proof (Rabs_pos x1) as Hx1pos.
    assert (Hlt : K ^ N * (Rabs x1 + 1) < Spec.EPSILON).
    { apply (Rmult_lt_compat_r (Rabs x1 + 1)) in HN; [| lra].
      replace (Spec.EPSILON / (Rabs x1 + 1) * (Rabs x1 + 1))
        with Spec.EPSILON in HN by (field; lra).
      exact HN. }
    nra. }
  destruct HN as [N HN].
  destruct (first_hole_loop q Hlen Hn Hf HD Hf0 Hd0 Hth m N Hm Hma
              x1 0 Hmx Hme Hx1 HN) as [fuel [y [prev [Hrun [Hy Hprev]]]]].
  assert (Hp0 : 0 < Spec.endPosition q - prev) by lra.
  rewrite (first_hole_next q Hlen Hn Hf HD Hf0 Hd0 Hth prev Hp0) in Hy.
  injection Hy as Hy.
  change (Spec.holeDiameter q 0 / Spec.boreInnerDiameter q
          * (Spec.holeDiameter q 0 / Spec.boreInnerDiameter q * 1))
    with ((Spec.holeDiameter q 0 / Spec.boreInnerDiameter q) ^ 2) in Hy.
  fold t0 in Hy.
  pose proof (first_correction_bounds _ _ _ Hth Hr Hp0) as Hphi.
  assert (Hfirst : while_loop (S fuel) q 0 [0] 1 = Ok [y]).
  { change (while_loop (S fuel) q (length (@nil R)) ([] ++ [0]) 1 = Ok [y]).
    rewrite while_loop_unfold.
    pose proof sentinel_enters_R as Hs. unfold sentinel_enters, int in Hs.
    cbn [of_int PyNum_R] in Hs. rewrite Hs. cbn [bind app length].
    rewrite Hx1. cbn [bind]. exact Hrun. }
  assert (Hall : forall fuel' : nat,
             (S fuel <= fuel')%nat -> while_loop fuel' q 0 [0] 1 = Ok [y]).
  { intros fuel' Hle. rewrite <- Hfirst.
    apply while_loop_fuel_mono; [exact Hle |]. rewrite Hfirst. discriminate. }
  exists (S fuel), y. split; [exact Hall |].
  split; [lra |]. split; [lra |].
  intros H1 fuel' Hle.
  assert (Hpos : holes_pos fuel' q = Ok [y]).
  { unfold holes_pos, range. rewrite H1. cbn [Nat.sub seq for_loop app].
    cbn [of_int PyNum_R]. rewrite (Hall fuel' Hle). reflexivity. }
  split; [exact Hpos |].
  unfold holes_loc. rewrite Hpos. cbn [bind comprehension].
  rewrite Quena_end_pos_R by assumption. py_unfold. reflexivity.
Qed.

(** The flute of [test_quena_emb_pos]: one hole at 400 Hz, whose theoric
    position 431.25 lies short of the end position, about 461. *)
Lemma first_hole_loop_terminates_witness :
  exists (fuel : nat) (y : R),
    (forall fuel' : nat,
        (fuel <= fuel')%nat -> while_loop fuel' quena_400_R 0 [0] 1 = Ok [y])
    /\ y < Spec.theoreticalHolePos quena_400_R 0
           - Spec.closedAdjustmentSum quena_400_R 1 (holes_nb quena_400_R)
    /\ 0 < Spec.endPosition quena_400_R - y
    /\ (holes_nb quena_400_R = 1%nat ->
        forall fuel' : nat,
          (fuel <= fuel')%nat ->
          holes_pos fuel' quena_400_R = Ok [y]
          /\ holes_loc fuel' quena_400_R
             = Ok [Spec.endPosition quena_400_R - y]).
Proof.
  pose proof quena_400_R_end_position as HE.
  apply first_hole_loop_terminates.
  - reflexivity.
  - cbn. lia.
  - cbn. lra.
  - cbn. lra.
  - cbn. lra.
  - cbn. lra.
  - unfold Spec.openThickness, Spec.wallThickness, Spec.holeDiameter,
      quena_400_R, water_pipe_R, vibrating.
    cbn [body quena_super pipe thick holes_diams nth]. lra.
  - lra.
  - unfold Spec.theoreticalHolePos, Spec.holeFrequency, Spec.closedAdjustmentSum,
      Spec.SOUND_VELOCITY.
    cbn [quena_400_R holes_nb holes_freqs length Nat.sub seq map fold_right nth].
    lra.
Defined.

(* ================================================================== *)
(** ** What the constructor refuses *)

Lemma Quena_init_cases {F : Type} `{PyNum F} (p : Pipe) (f : F) (hf : list F)
    (s : F) (hd : option diams_arg) (rg : option bool) (b : QuenaBody) :
  QuenaBody_init p f s = Ok b ->
  ((exists q : Quena, Quena_init p f hf s hd rg = Ok q)
   <-> (forall l : list F, hd = Some (Sequence l) -> length l = length hf))
  /\ (forall e : exn,
      Quena_init p f hf s hd rg = Raise e <->
      e = IndexError
      /\ exists l : list F, hd = Some (Sequence l) /\ length l <> length hf)
  /\ Quena_init p f hf s hd rg <> OutOfFuel.
Proof.
  intros Hb. unfold Quena_init. rewrite Hb.
  destruct hd as [[d | l] |]; cbn [iterable as_sequence as_number bind].
  - split; [| split].
    + split; [intros _ l Hl; discriminate | intros _; eexists; reflexivity].
    + intros e. split; [discriminate | intros [_ [l [Hl _]]]; discriminate].
    + discriminate.
  - destruct (length l =? length hf)%nat eqn:Hlen; cbn [negb bind].
    + apply Nat.eqb_eq in Hlen. split; [| split].
      * split; [intros _ l' Hl'; injection Hl' as <-; exact Hlen
               | intros _; eexists; reflexivity].
      * intros e. split; [discriminate |].
        intros [_ [l' [Hl' Hne]]]. injection Hl' as <-. contradiction.
      * discriminate.
    + apply Nat.eqb_neq in Hlen. split; [| split].
      * split; [intros [q Hq]; discriminate |].
        intros Hall. exfalso. apply Hlen, Hall. reflexivity.
      * intros e. split.
        -- intros He. injection He as <-. split; [reflexivity |].
           exists l. split; [reflexivity | exact Hlen].
        -- intros [-> _]. reflexivity.
      * discriminate.
  - split; [| split].
    + split; [intros _ l Hl; discriminate | intros _; eexists; reflexivity].
    + intros e. split; [discriminate | intros [_ [l [Hl _]]]; discriminate].
    + discriminate.
Qed.

(** The constructor refuses one thing only: a sequence of diameters whose
    length is not the number of frequencies, with [IndexError].  Every other
    argument constructs a flute - a frequency or a diameter that is zero or
    negative, an embouchure of size zero, no hole at all.  In exact
    arithmetic and in binary64. *)
Theorem Quena_init_refuses :
  (forall (p : @Pipe R) (f : R) (hf : list R) (s : R)
          (hd : option diams_arg) (rg : option bool),
      ((exists q : Quena, Quena_init p f hf s hd rg = Ok q)
       <-> (forall l : list R, hd = Some (Sequence l) -> length l = length hf))
      /\ (forall e : exn,
          Quena_init p f hf s hd rg = Raise e <->
          e = IndexError
          /\ exists l : list R, hd = Some (Sequence l) /\ length l <> length hf)
      /\ Quena_init p f hf s hd rg <> OutOfFuel)
  /\ (forall (p : @Pipe float) (f : float) (hf : list float) (s : float)
          (hd : option diams_arg) (rg : option bool),
      ((exists q : Quena, Quena_init p f hf s hd rg = Ok q)
       <-> (forall l : list float, hd = Some (Sequence l) -> length l = length hf))
      /\ (forall e : exn,
          Quena_init p f hf s hd rg = Raise e <->
          e = IndexError
          /\ exists l : list float, hd = Some (Sequence l) /\ length l <> length hf)
      /\ Quena_init p f hf s hd rg <> OutOfFuel).
Proof.
  split; intros p f hf s hd rg.
  - exact (Quena_init_cases p f hf s hd rg _ (QuenaBody_init_R p f s)).
  - exact (Quena_init_cases p f hf s hd rg _ (QuenaBody_init_float p f s)).
Qed.

(** A flute at 0 Hz with a hole of diameter 0 at -440 Hz is constructed, in
    binary64. *)
Lemma Quena_init_refuses_witness :
  exists q : @Quena float,
    Quena_init water_pipe_float 0%float [(-440)%float] 0%float
      (Some (Sequence [0%float])) None = Ok q.
Proof.
  apply (proj1 (proj2 Quena_init_refuses water_pipe_float 0%float
                  [(-440)%float] 0%float (Some (Sequence [0%float])) None)).
  intros l Hl. injection Hl as <-. reflexivity.
Defined.

(* ================================================================== *)
(** ** The holes and the embouchure *)

Section Embouchure.
Context {F : Type} `{PyNum F}.
Variables (p : @Pipe F) (f : F) (r : bool) (hfs hds : list F) (e e' : F).

Lemma while_loop_emb_diam (fuel : nat) :
  forall (n : nat) (hp : list F) (old_pos : F),
    while_loop fuel (mkQuena (mkQuenaBody (mkVibratingPipe p e f)) r hfs hds)
      n hp old_pos
    = while_loop fuel (mkQuena (mkQuenaBody (mkVibratingPipe p e' f)) r hfs hds)
        n hp old_pos.
Proof.
  induction fuel as [| fuel IH]; intros n hp old_pos; [reflexivity |].
  rewrite !while_loop_S.
  destruct (loop_test hp n old_pos) as [[|] | ex |]; cbn [bind]; try reflexivity.
  destruct (getitem hp n) as [cur | ex |]; cbn [bind]; try reflexivity.
  change (while_body (mkQuena (mkQuenaBody (mkVibratingPipe p e f)) r hfs hds) n hp)
    with (while_body (mkQuena (mkQuenaBody (mkVibratingPipe p e' f)) r hfs hds) n hp).
  destruct (while_body _ n hp) as [hp' | ex |]; cbn [bind]; try reflexivity.
  apply IH.
Qed.

Lemma for_loop_emb_diam (fuel : nat) (ns : list nat) :
  forall pre : list F,
    for_loop fuel (mkQuena (mkQuenaBody (mkVibratingPipe p e f)) r hfs hds) ns pre
    = for_loop fuel (mkQuena (mkQuenaBody (mkVibratingPipe p e' f)) r hfs hds)
        ns pre.
Proof.
  induction ns as [| n ns IH]; intros pre; cbn [for_loop]; [reflexivity |].
  rewrite while_loop_emb_diam.
  destruct (while_loop fuel _ n (pre ++ [of_int 0]) (of_int 1)) as [hp | ex |];
    cbn [bind]; try reflexivity.
  apply IH.
Qed.
End Embouchure.

Lemma QuenaBody_init_inv {F : Type} `{PyNum F} (p : Pipe) (f s : F) (b : QuenaBody) :
  QuenaBody_init p f s = Ok b ->
  exists e : F, b = mkQuenaBody (mkVibratingPipe p e f).
Proof.
  unfold QuenaBody_init. intros Hb. apply bind_Ok_inv in Hb as [e [_ Hb]].
  injection Hb as <-. now exists e.
Qed.

(** The solver never reads the embouchure: two flutes constructed from the
    same arguments except the embouchure size have the same end position,
    and [holes_pos] and [holes_loc] return or raise the same for both.  For
    every number system. *)
Theorem holes_pos_ignores_embouchure {F : Type} `{PyNum F} (p : Pipe) (f : F)
    (hf : list F) (s s' : F) (hd : option diams_arg) (rg : option bool)
    (q q' : Quena) (fuel : nat) :
  Quena_init p f hf s hd rg = Ok q ->
  Quena_init p f hf s' hd rg = Ok q' ->
  end_pos q = end_pos q'
  /\ holes_pos fuel q = holes_pos fuel q'
  /\ holes_loc fuel q = holes_loc fuel q'.
Proof.
  intros Hq Hq'.
  apply Quena_init_inv in Hq as [Hb [Hr [Hf Hd]]].
  apply Quena_init_inv in Hq' as [Hb' [Hr' [Hf' Hd']]].
  apply QuenaBody_init_inv in Hb as [e Hb].
  apply QuenaBody_init_inv in Hb' as [e' Hb'].
  assert (Hds : holes_diams q = holes_diams q').
  { destruct hd as [[d | l] |].
    - now rewrite Hd, Hd'.
    - destruct Hd as [_ ->]. destruct Hd' as [_ ->]. reflexivity.
    - now rewrite Hd, Hd'. }
  destruct q as [b r hfs hds]. destruct q' as [b' r' hfs' hds'].
  cbn [body ring holes_freqs holes_diams] in *. subst.
  assert (Hpos : holes_pos fuel
                   (mkQuena (mkQuenaBody (mkVibratingPipe p e f))
                      match rg with Some b => b | None => false end
                      (sorted nltb hf) hds')
                 = holes_pos fuel
                     (mkQuena (mkQuenaBody (mkVibratingPipe p e' f))
                        match rg with Some b => b | None => false end
                        (sorted nltb hf) hds'))
    by apply for_loop_emb_diam.
  split; [reflexivity |]. split; [exact Hpos |].
  unfold holes_loc. rewrite Hpos. reflexivity.
Qed.

(** The flute of [test_quena_emb_pos] in binary64, with the embouchure sizes
    9.5 and 8. *)
Lemma holes_pos_ignores_embouchure_witness :
  exists q q' : @Quena float,
    Quena_init water_pipe_float 362.67%float [400]%float 9.5%float
      (Some (Scalar 10%float)) None = Ok q
    /\ Quena_init water_pipe_float 362.67%float [400]%float 8%float
         (Some (Scalar 10%float)) None = Ok q'
    /\ end_pos q = end_pos q'
    /\ holes_pos 30 q = holes_pos 30 q'
    /\ holes_loc 30 q = holes_loc 30 q'.
Proof.
  assert (Hq : exists q : @Quena float,
             Quena_init water_pipe_float 362.67%float [400]%float 9.5%float
               (Some (Scalar 10%float)) None = Ok q)
    by (eexists; vm_compute; reflexivity).
  assert (Hq' : exists q' : @Quena float,
             Quena_init water_pipe_float 362.67%float [400]%float 8%float
               (Some (Scalar 10%float)) None = Ok q')
    by (eexists; vm_compute; reflexivity).
  destruct Hq as [q Hq]. destruct Hq' as [q' Hq']. exists q, q'.
  split; [exact Hq |]. split; [exact Hq' |].
  exact (holes_pos_ignores_embouchure _ _ _ _ _ _ _ q q' 30 Hq Hq').
Defined.
